(** * Cache simulator: a shallow embedding of [cache_simulator.c]

    The C program keeps one [cache_t] on the heap and mutates it through
    [lookup].  The embedding keeps the C names.  C [int]s are integers of [Z]
    with the 32-bit wrap-around written out where the code does arithmetic on
    them; the arrays behind [set_arry] and [lines] are lists, a pointer to a
    line is the pair of its set index and line index, and an access outside an
    array (undefined in C) makes the computation return [None]. *)

From Stdlib Require Import ZArith Ascii String Lia.
From stdpp Require Import base list.

Local Open Scope Z_scope.

(** ** Machine integers *)

Definition int_min : Z := - 2 ^ 31.
Definition int_max : Z := 2 ^ 31 - 1.

(** Two's complement wrap-around of a 32-bit [int]. *)
Definition int_wrap (z : Z) : Z := (z + 2 ^ 31) mod 2 ^ 32 - 2 ^ 31.

(** Conversion of an [int] to [unsigned int] (the type of [age]). *)
Definition uint_of_int (z : Z) : Z := z mod 2 ^ 32.

(** Conversion of an [int] to [unsigned long long] (the type of [tag]). *)
Definition ull_of_int (z : Z) : Z := z mod 2 ^ 64.

(** [(int)(pow(2, bits) - 1)], the expression behind [num_sets] and
    [num_blocks].  The double is the exact integer for [0 <= bits <= 31].
    For a negative [bits] the power lies in [0, 1): the difference is a double
    in (-1, 0), which the conversion truncates to 0, unless it rounds to
    [-1.0], which happens from [bits = -54] downwards.  Above 31 the value
    does not fit an [int]; the conversion is undefined in C and yields
    [INT_MIN] on x86-64. *)
Definition pow2_minus_1 (bits : Z) : Z :=
  if bits <? -53 then -1
  else if bits <? 0 then 0
  else if bits <=? 31 then 2 ^ bits - 1
  else int_min.

(** ** Data model *)

(** [cache_line_t].  The [data] pointer is always [NULL] and never read. *)
Record cache_line_t := mk_line {
  valid : Z;
  dirty : Z;
  tag : Z;       (* unsigned long long *)
  age : Z        (* unsigned int *)
}.

Record cache_set_t := mk_set { lines : list cache_line_t }.

Record cache_t := mk_cache {
  set_bits : Z;
  associativity : Z;
  block_bits : Z;
  num_sets : Z;
  num_blocks : Z;
  miss_count : Z;
  hit_count : Z;
  evict_count : Z;
  flag_v_set : Z;
  instr_count : Z;
  set_arry : list cache_set_t
}.

(** Field updates, one per assignment form used by the program. *)
Definition set_miss_count (v : Z) (c : cache_t) : cache_t :=
  mk_cache (set_bits c) (associativity c) (block_bits c) (num_sets c)
    (num_blocks c) v (hit_count c) (evict_count c) (flag_v_set c)
    (instr_count c) (set_arry c).

Definition set_hit_count (v : Z) (c : cache_t) : cache_t :=
  mk_cache (set_bits c) (associativity c) (block_bits c) (num_sets c)
    (num_blocks c) (miss_count c) v (evict_count c) (flag_v_set c)
    (instr_count c) (set_arry c).

Definition set_evict_count (v : Z) (c : cache_t) : cache_t :=
  mk_cache (set_bits c) (associativity c) (block_bits c) (num_sets c)
    (num_blocks c) (miss_count c) (hit_count c) v (flag_v_set c)
    (instr_count c) (set_arry c).

Definition set_instr_count (v : Z) (c : cache_t) : cache_t :=
  mk_cache (set_bits c) (associativity c) (block_bits c) (num_sets c)
    (num_blocks c) (miss_count c) (hit_count c) (evict_count c)
    (flag_v_set c) v (set_arry c).

Definition set_set_arry (v : list cache_set_t) (c : cache_t) : cache_t :=
  mk_cache (set_bits c) (associativity c) (block_bits c) (num_sets c)
    (num_blocks c) (miss_count c) (hit_count c) (evict_count c)
    (flag_v_set c) (instr_count c) v.

(** ** Construction *)

(** [make_cache_line]: every field of the fresh line is written. *)
Definition make_cache_line : cache_line_t :=
  {| valid := 0; dirty := 0; tag := 0; age := 0 |}.

(** [make_cache_set]: [malloc] of [associativity] lines, each initialised by
    [make_cache_line]; the loop body never runs when [associativity <= 0]. *)
Definition make_cache_set (associativity : Z) : cache_set_t :=
  {| lines := replicate (Z.to_nat associativity) make_cache_line |}.

(** [make_cache].  The array holds [num_sets + 1] sets and the loop
    [set_n <= num_sets] initialises each of them; [malloc] is taken to
    succeed whenever it is asked for a positive number of elements.  When
    the count is not positive (it is an [int], so it wraps past [INT_MAX])
    the array has no element to index. *)
Definition make_cache (set_bits associativity block_bits flag_v_set : Z)
  : cache_t :=
  let num_sets := pow2_minus_1 set_bits in
  {| set_bits := set_bits;
     associativity := associativity;
     block_bits := block_bits;
     num_sets := num_sets;
     num_blocks := pow2_minus_1 block_bits;
     miss_count := 0;
     hit_count := 0;
     evict_count := 0;
     flag_v_set := flag_v_set;
     instr_count := 0;
     set_arry := replicate (Z.to_nat (int_wrap (num_sets + 1)))
                   (make_cache_set associativity) |}.

(** ** Address decomposition *)

(** Both functions work on [int]s.  Where the C expression can leave the
    range of [int] (the shifted mask, the sum of the bit counts) the value
    wraps; [&], [|], [~] and [>>] of [int]s stay in range, [>>] being the
    arithmetic shift.  A shift by a count outside 0..31 is undefined in C;
    the model returns what [Z.shiftl] and [Z.shiftr] return there. *)

(** [set_for]. *)
Definition set_for (address : Z) (cache : cache_t) : Z :=
  let set_mask := int_wrap (Z.shiftl (num_sets cache) (block_bits cache)) in
  let result := Z.shiftr (Z.land set_mask address) (block_bits cache) in
  result.

(** [tag_for]. *)
Definition tag_for (address : Z) (cache : cache_t) : Z :=
  let sets_and_blocks :=
    Z.lor (num_blocks cache)
          (int_wrap (Z.shiftl (num_sets cache) (block_bits cache))) in
  let tag_mask := Z.lnot sets_and_blocks in
  Z.shiftr (Z.land tag_mask address)
           (int_wrap (set_bits cache + block_bits cache)).

(** ** The running program: heap, standard output, undefined behaviour *)

(** The state threaded through the C functions: the one [cache_t] they all
    receive by pointer, and what the cache functions have printed so far. *)
Record world := mk_world { mem : cache_t; stdout : list string }.

(** A computation either returns a value and the next state, or is undefined
    ([None]: an array was accessed outside its bounds). *)
Definition M (A : Type) : Type := world -> option (A * world).

Definition ret {A : Type} (a : A) : M A := fun w => Some (a, w).

Definition bind {A B : Type} (m : M A) (k : A -> M B) : M B :=
  fun w => match m w with
           | Some (a, w') => k a w'
           | None => None
           end.

Declare Scope cache_scope.
Delimit Scope cache_scope with cache.
Notation "x <- m ;; k" := (bind m (fun x => k))
  (at level 100, m at next level, right associativity) : cache_scope.
Notation "m ;; k" := (bind m (fun _ => k))
  (at level 100, right associativity) : cache_scope.
Local Open Scope cache_scope.

Definition get_cache : M cache_t := fun w => Some (mem w, w).

Definition modify_cache (f : cache_t -> cache_t) : M unit :=
  fun w => Some (tt, {| mem := f (mem w); stdout := stdout w |}).

Definition printf (s : string) : M unit :=
  fun w => Some (tt, {| mem := mem w; stdout := stdout w ++ [s] |}).

(** [if (cache->flag_v_set) printf(s);] *)
Definition printf_if_verbose (s : string) : M unit :=
  cache <- get_cache ;;
  if flag_v_set cache =? 0 then ret tt else printf s.

(** C array indexing by an [int]. *)
Definition index {A : Type} (l : list A) (i : Z) : option A :=
  if i <? 0 then None else l !! Z.to_nat i.

(** Reading through [&(cache->set_arry[set_n].lines[line_n])]. *)
Definition load_line (set_n line_n : Z) : M cache_line_t :=
  fun w =>
    match index (set_arry (mem w)) set_n with
    | Some set =>
        match index (lines set) line_n with
        | Some line => Some (line, w)
        | None => None
        end
    | None => None
    end.

(** Writing fields through the same pointer. *)
Definition update_line (set_n line_n : Z)
    (f : cache_line_t -> cache_line_t) : M unit :=
  fun w =>
    match index (set_arry (mem w)) set_n with
    | Some set =>
        match index (lines set) line_n with
        | Some line =>
            let set' :=
              {| lines := <[Z.to_nat line_n := f line]> (lines set) |} in
            Some (tt,
                  {| mem := set_set_arry
                              (<[Z.to_nat set_n := set']> (set_arry (mem w)))
                              (mem w);
                     stdout := stdout w |})
        | None => None
        end
    | None => None
    end.

Definition set_valid (v : Z) (l : cache_line_t) : cache_line_t :=
  {| valid := v; dirty := dirty l; tag := tag l; age := age l |}.
Definition set_tag (v : Z) (l : cache_line_t) : cache_line_t :=
  {| valid := valid l; dirty := dirty l; tag := v; age := age l |}.
Definition set_age (v : Z) (l : cache_line_t) : cache_line_t :=
  {| valid := valid l; dirty := dirty l; tag := tag l; age := v |}.

(** ** Lookup and replacement *)

(** The loop of [check_for_hit], with [n] iterations left and the loop
    variable at [line_n].  [correct_set] is the index the set pointer was
    taken at. *)
Fixpoint check_for_hit_from (n : nat) (line_n : Z) (correct_set my_tag : Z)
  : M Z :=
  match n with
  | O => ret 0
  | S n' =>
      line_of_int <- load_line correct_set line_n ;;
      if (tag line_of_int =? ull_of_int my_tag)
         && negb (valid line_of_int =? 0)
      then
        cache <- get_cache ;;
        update_line correct_set line_n
          (set_age (uint_of_int (instr_count cache))) ;;
        modify_cache (fun c => set_hit_count (int_wrap (hit_count c + 1)) c) ;;
        printf_if_verbose "hit " ;;
        ret 1
      else check_for_hit_from n' (line_n + 1) correct_set my_tag
  end.

Definition check_for_hit (correct_set my_tag : Z) : M Z :=
  cache <- get_cache ;;
  check_for_hit_from (Z.to_nat (associativity cache)) 0 correct_set my_tag.

(** [evict]; [oldest_line] is the line index the pointer designates. *)
Definition evict (correct_set oldest_line my_tag : Z) : M unit :=
  modify_cache (fun c => set_evict_count (int_wrap (evict_count c + 1)) c) ;;
  printf_if_verbose "eviction " ;;
  cache <- get_cache ;;
  update_line correct_set oldest_line
    (fun l => set_age (uint_of_int (instr_count cache))
                (set_tag (ull_of_int my_tag) l)).

(** The loop of [miss], with [n] iterations left; falling out of the loop
    reaches the call of [evict]. *)
Fixpoint miss_from (n : nat) (line_n oldest_line : Z)
    (correct_set my_tag : Z) : M unit :=
  match n with
  | O => evict correct_set oldest_line my_tag
  | S n' =>
      line_of_int <- load_line correct_set line_n ;;
      oldest <- load_line correct_set oldest_line ;;
      let oldest_line' :=
        if age line_of_int <? age oldest then line_n else oldest_line in
      if valid line_of_int =? 0 then
        cache <- get_cache ;;
        update_line correct_set line_n
          (fun l => set_age (uint_of_int (instr_count cache))
                      (set_valid 1 (set_tag (ull_of_int my_tag) l)))
      else miss_from n' (line_n + 1) oldest_line' correct_set my_tag
  end.

Definition miss (correct_set my_tag : Z) : M unit :=
  modify_cache (fun c => set_miss_count (int_wrap (miss_count c + 1)) c) ;;
  printf_if_verbose "miss " ;;
  cache <- get_cache ;;
  miss_from (Z.to_nat (associativity cache)) 0 0 correct_set my_tag.

Definition lookup (address : Z) : M unit :=
  modify_cache (fun c => set_instr_count (int_wrap (instr_count c + 1)) c) ;;
  cache <- get_cache ;;
  let my_tag := tag_for address cache in
  let my_set := set_for address cache in
  is_hit <- check_for_hit my_set my_tag ;;
  if is_hit =? 0 then miss my_set my_tag else ret tt.

(** ** The driver *)

Definition newline : string := String (ascii_of_nat 10) EmptyString.

(** [call_lookup]. *)
Definition call_lookup (int_address : Z) (operation : ascii) : M unit :=
  lookup int_address ;;
  (if Ascii.eqb operation "M" then lookup int_address else ret tt) ;;
  printf_if_verbose newline.

(** [read_file], from the point where the file is open.  A record stands for
    one line of the file that starts with a space: its operation character
    and the address [sscanf] read from it.  Tokenising the line and echoing
    it in verbose mode are left to the reader of the file; the call of
    [open_file] is in [main]. *)
Fixpoint read_file (records : list (ascii * Z)) : M unit :=
  match records with
  | [] => ret tt
  | (operation, int_address) :: rest =>
      call_lookup int_address operation ;; read_file rest
  end.

(** [free(set->lines)] for the set at [set_n].  The pointer is read through
    [cache->set_arry[set_n]]; once it is freed, the array of lines has no
    cell left to access. *)
Definition free_lines (set_n : Z) : M unit :=
  fun w =>
    match index (set_arry (mem w)) set_n with
    | Some _ =>
        Some (tt,
              {| mem := set_set_arry
                          (<[Z.to_nat set_n := {| lines := [] |}]>
                             (set_arry (mem w)))
                          (mem w);
                 stdout := stdout w |})
    | None => None
    end.

(** The loop of [free_cache] with the loop variable at [set_n]; it goes on
    while [set_n <= cache->num_sets].  [n] is the number of sets that
    [set_arry] holds from [set_n] on: with none left, one more turn reads
    [set_arry[set_n]] past the end of the array. *)
Fixpoint free_cache_from (n : nat) (set_n : Z) : M unit :=
  cache <- get_cache ;;
  if set_n <=? num_sets cache then
    match n with
    | O => fun _ => None
    | S n' => free_lines set_n ;; free_cache_from n' (int_wrap (set_n + 1))
    end
  else ret tt.

(** [free_cache]: the lines of the sets [0 .. num_sets], then the array of
    sets, then the [cache_t] itself, which nothing reads afterwards. *)
Definition free_cache : M unit :=
  cache <- get_cache ;;
  free_cache_from (length (set_arry cache)) 0 ;;
  modify_cache (set_set_arry []).

(** [open_file].  [trace] is what [fopen] finds behind the file name: [None]
    for a file that cannot be opened, otherwise the records of the file.  In
    the first case the function prints its message, frees the cache and
    ends the process with status 1, which is the [inl] result. *)
Definition open_file (trace : option (list (ascii * Z)))
  : M (Z + list (ascii * Z)) :=
  match trace with
  | Some records => ret (inr records)
  | None =>
      printf ("File can't be opened " ++ newline) ;;
      free_cache ;;
      ret (inl 1)
  end.

(** The three numbers [main] hands to [printSummary]. *)
Record summary := mk_summary { hits : Z; misses : Z; evictions : Z }.

(** [main] after option parsing, with [open_file] called where [read_file]
    calls it and the trace given as the records [read_file] passes to
    [call_lookup].  The result is the exit status and, when the process
    gets to [printSummary], the summary handed to it; [None] when the run
    is undefined. *)
Definition main (flag_v_set flag_s_value flag_E_value flag_b_value : Z)
    (trace : option (list (ascii * Z))) : option (Z * option summary) :=
  let mycache :=
    make_cache flag_s_value flag_E_value flag_b_value flag_v_set in
  let run : M (Z * option summary) :=
    file <- open_file trace ;;
    match file with
    | inl status => ret (status, None)
    | inr records =>
        read_file records ;;
        cache <- get_cache ;;
        free_cache ;;
        ret (0, Some {| hits := hit_count cache;
                        misses := miss_count cache;
                        evictions := evict_count cache |})
    end in
  match run {| mem := mycache; stdout := [] |} with
  | Some (result, _) => Some result
  | None => None
  end.

(** A run of [lookup] calls, one per address, in order. *)
Fixpoint lookups (addresses : list Z) : M unit :=
  match addresses with
  | [] => ret tt
  | address :: rest => lookup address ;; lookups rest
  end.

(** * Vocabulary of the statements *)

(** What [line_at] finds behind the pointer to line [line_n] of set [set_n]. *)
Definition line_at (c : cache_t) (set_n line_n : Z) : option cache_line_t :=
  match index (set_arry c) set_n with
  | Some set => index (lines set) line_n
  | None => None
  end.

(** The heap after line [line_n] of set [set_n] has been overwritten. *)
Definition write_line (set_n line_n : Z) (l : cache_line_t) (c : cache_t)
  : cache_t :=
  match index (set_arry c) set_n with
  | Some set =>
      set_set_arry
        (<[Z.to_nat set_n :=
             {| lines := <[Z.to_nat line_n := l]> (lines set) |}]>
           (set_arry c)) c
  | None => c
  end.

(** What a verbose-mode [printf] adds to the output. *)
Definition verbose (c : cache_t) (s : string) : list string :=
  if flag_v_set c =? 0 then [] else [s].

(** The test of [check_for_hit]: [line->tag == my_tag && line->valid]. *)
Definition line_matches (my_tag : Z) (l : cache_line_t) : Prop :=
  tag l = ull_of_int my_tag /\ valid l <> 0.

Definition line_invalid (l : cache_line_t) : Prop := valid l = 0.

(** [l], at index [j], is the first element of [ls] in scan order with [P]. *)
Definition first_at {A : Type} (P : A -> Prop) (ls : list A) (j : Z) (l : A)
  : Prop :=
  index ls j = Some l /\ P l /\
  forall j' l', 0 <= j' < j -> index ls j' = Some l' -> ~ P l'.

(** [l], at index [j], has the smallest [age] of [ls], and is the first line
    in scan order that has it. *)
Definition oldest_at (ls : list cache_line_t) (j : Z) (l : cache_line_t)
  : Prop :=
  index ls j = Some l /\
  (forall j' l', index ls j' = Some l' -> age l <= age l') /\
  (forall j' l', 0 <= j' < j -> index ls j' = Some l' -> age l < age l').

(** The derived fields are the ones [make_cache] computed from the bit
    counts, and the bit counts leave room in an [int]. *)
Definition geometry_fields_ok (c : cache_t) : Prop :=
  0 <= set_bits c /\ 0 <= block_bits c /\ set_bits c + block_bits c <= 31 /\
  num_sets c = pow2_minus_1 (set_bits c) /\
  num_blocks c = pow2_minus_1 (block_bits c).

(** Geometry parameters [make_cache] can serve: the bit counts and the count
    of sets fit an [int], and a set has a line. *)
Definition geometry_ok (s E b : Z) : Prop :=
  0 <= s <= 30 /\ 0 <= b /\ s + b <= 31 /\ 1 <= E.

(** The shape [make_cache] gives a cache and [lookup] keeps. *)
Record cache_ok (c : cache_t) : Prop := mk_cache_ok {
  ok_geometry : geometry_ok (set_bits c) (associativity c) (block_bits c);
  ok_num_sets : num_sets c = pow2_minus_1 (set_bits c);
  ok_num_blocks : num_blocks c = pow2_minus_1 (block_bits c);
  ok_set_arry : Z.of_nat (length (set_arry c)) = 2 ^ set_bits c;
  ok_lines :
    Forall (fun set => length (lines set) = Z.to_nat (associativity c))
           (set_arry c)
}.

(** The counters while no [int] has overflowed. *)
Record counters_ok (c : cache_t) : Prop := mk_counters_ok {
  ok_evict : 0 <= evict_count c <= miss_count c;
  ok_hit : 0 <= hit_count c;
  ok_sum : hit_count c + miss_count c = instr_count c;
  ok_instr : instr_count c <= int_max
}.

(** The state [check_for_hit] leaves when line [j] of the set, holding [l],
    is the hit. *)
Definition hit_world (set_n j : Z) (l : cache_line_t) (w : world) : world :=
  let c := mem w in
  {| mem := set_hit_count (int_wrap (hit_count c + 1))
              (write_line set_n j (set_age (uint_of_int (instr_count c)) l) c);
     stdout := stdout w ++ verbose c "hit " |}.

(** The state [miss] leaves when it fills the invalid line [j], holding [l]. *)
Definition install_world (set_n j my_tag : Z) (l : cache_line_t) (w : world)
  : world :=
  let c := mem w in
  {| mem := write_line set_n j
              {| valid := 1; dirty := dirty l; tag := ull_of_int my_tag;
                 age := uint_of_int (instr_count c) |}
              (set_miss_count (int_wrap (miss_count c + 1)) c);
     stdout := stdout w ++ verbose c "miss " |}.

(** The state [miss] leaves when it evicts line [j], holding [l]. *)
Definition evict_world (set_n j my_tag : Z) (l : cache_line_t) (w : world)
  : world :=
  let c := mem w in
  {| mem := write_line set_n j
              {| valid := valid l; dirty := dirty l; tag := ull_of_int my_tag;
                 age := uint_of_int (instr_count c) |}
              (set_evict_count (int_wrap (evict_count c + 1))
                 (set_miss_count (int_wrap (miss_count c + 1)) c));
     stdout := stdout w ++ verbose c "miss " ++ verbose c "eviction " |}.

(** The state after [cache->instr_count++]. *)
Definition count_instr (w : world) : world :=
  {| mem := set_instr_count (int_wrap (instr_count (mem w) + 1)) (mem w);
     stdout := stdout w |}.

(** The three ways a [lookup] call can end on a well-shaped cache. *)
Inductive lookup_step (address : Z) (w : world) : world -> Prop :=
| lookup_hit (set : cache_set_t) (j : Z) (l : cache_line_t) :
    index (set_arry (mem w)) (set_for address (mem w)) = Some set ->
    first_at (line_matches (tag_for address (mem w))) (lines set) j l ->
    lookup_step address w
      (hit_world (set_for address (mem w)) j l (count_instr w))
| lookup_install (set : cache_set_t) (j : Z) (l : cache_line_t) :
    index (set_arry (mem w)) (set_for address (mem w)) = Some set ->
    Forall (fun l => ~ line_matches (tag_for address (mem w)) l)
           (lines set) ->
    first_at line_invalid (lines set) j l ->
    lookup_step address w
      (install_world (set_for address (mem w)) j (tag_for address (mem w)) l
         (count_instr w))
| lookup_evict (set : cache_set_t) (j : Z) (l : cache_line_t) :
    index (set_arry (mem w)) (set_for address (mem w)) = Some set ->
    Forall (fun l => ~ line_matches (tag_for address (mem w)) l)
           (lines set) ->
    Forall (fun l => ~ line_invalid l) (lines set) ->
    oldest_at (lines set) j l ->
    lookup_step address w
      (evict_world (set_for address (mem w)) j (tag_for address (mem w)) l
         (count_instr w)).

(** Every line of every set holds a block. *)
Definition all_lines_valid (c : cache_t) : Prop :=
  Forall (fun set => Forall (fun l => ~ line_invalid l) (lines set))
         (set_arry c).

(** The three counts [printSummary] reports, in its order. *)
Definition counters (c : cache_t) : Z * Z * Z :=
  (hit_count c, miss_count c, evict_count c).

(** The geometry fields of [c'] are those of [c]. *)
Definition same_geometry (c c' : cache_t) : Prop :=
  set_bits c' = set_bits c /\ associativity c' = associativity c /\
  block_bits c' = block_bits c /\ num_sets c' = num_sets c /\
  num_blocks c' = num_blocks c.

(** A two-way set, both lines filled, as the third reference of a trace
    finds it. *)
Definition full_set : cache_set_t :=
  {| lines := [ {| valid := 1; dirty := 0; tag := 0; age := 1 |};
                {| valid := 1; dirty := 0; tag := 1; age := 2 |} ] |}.

Definition full_set_world : world :=
  {| mem := {| set_bits := 0; associativity := 2; block_bits := 0;
               num_sets := 0; num_blocks := 0;
               miss_count := 2; hit_count := 0; evict_count := 0;
               flag_v_set := 0; instr_count := 3;
               set_arry := [full_set] |};
     stdout := [] |}.

(** The cache of one two-way set as the references 0 and 1 leave it: both
    lines valid, two misses counted. *)
Definition filled_world : world :=
  {| mem := {| set_bits := 0; associativity := 2; block_bits := 0;
               num_sets := 0; num_blocks := 0;
               miss_count := 2; hit_count := 0; evict_count := 0;
               flag_v_set := 0; instr_count := 2;
               set_arry := [full_set] |};
     stdout := [] |}.

(** The number of [lookup] calls [read_file] makes: two for a modify record,
    one for any other. *)
Definition sub_references (records : list (ascii * Z)) : Z :=
  fold_right
    (fun r n => (if Ascii.eqb (fst r) "M" then 2 else 1) + n) 0 records.

(** * Vocabulary of the further properties *)

(** The block of [address] is in the cache: a valid line of its set holds
    its tag. *)
Definition cached (c : cache_t) (address : Z) : Prop :=
  exists j l,
    line_at c (set_for address c) j = Some l /\
    line_matches (tag_for address c) l.

(** No two valid lines of one set hold the same tag. *)
Definition no_duplicate_tags (c : cache_t) : Prop :=
  forall i j1 j2 l1 l2,
    line_at c i j1 = Some l1 -> line_at c i j2 = Some l2 ->
    valid l1 <> 0 -> valid l2 <> 0 -> tag l1 = tag l2 -> j1 = j2.

(** A cache with its verbose flag replaced. *)
Definition set_flag_v_set (v : Z) (c : cache_t) : cache_t :=
  mk_cache (set_bits c) (associativity c) (block_bits c) (num_sets c)
    (num_blocks c) (miss_count c) (hit_count c) (evict_count c) v
    (instr_count c) (set_arry c).

(** The same state in a run without the verbose flag: the flag is off and
    nothing has been printed. *)
Definition quiet (w : world) : world :=
  {| mem := set_flag_v_set 0 (mem w); stdout := [] |}.

Definition quietly {A : Type} (r : option (A * world)) : option (A * world) :=
  match r with
  | Some (a, w') => Some (a, quiet w')
  | None => None
  end.

(** [m] does in the quiet state what it does in any state, output and flag
    apart. *)
Definition erasable {A : Type} (m : M A) : Prop :=
  forall w : world, m (quiet w) = quietly (m w).

(** How often [s] was printed. *)
Definition printed (s : string) (out : list string) : Z :=
  Z.of_nat (count_occ string_dec out s).

(** The number of valid lines of a set, and of the whole cache. *)
Fixpoint valid_count (ls : list cache_line_t) : Z :=
  match ls with
  | [] => 0
  | l :: rest => (if valid l =? 0 then 0 else 1) + valid_count rest
  end.

Definition valid_lines (c : cache_t) : Z :=
  fold_right (fun set n => valid_count (lines set) + n) 0 (set_arry c).

(** The tag of [address] as a line stores it. *)
Definition block_tag (c0 : cache_t) (address : Z) : Z :=
  ull_of_int (tag_for address c0).

(** The time of the last reference to tag [t] in set [i]: with the run
    given latest reference first, the count of references up to that one;
    0 when there is none. *)
Fixpoint last_use_rev (c0 : cache_t) (r : list Z) (i t : Z) : Z :=
  match r with
  | [] => 0
  | a :: r' =>
      if (set_for a c0 =? i) && (block_tag c0 a =? t)
      then Z.of_nat (length r)
      else last_use_rev c0 r' i t
  end.

Definition last_use (c0 : cache_t) (h : list Z) (i t : Z) : Z :=
  last_use_rev c0 (rev h) i t.

(** What the lines of the cache say about the run [h] that led to them from
    the fresh cache [c0]: a valid line carries the time of the last
    reference to its tag, and a tag that was referenced and is gone left a
    set full of lines referenced since. *)
Record lru_inv (c0 : cache_t) (h : list Z) (w : world) : Prop := mk_lru_inv {
  lru_geometry : same_geometry c0 (mem w);
  lru_time : instr_count (mem w) = Z.of_nat (length h);
  lru_nodup : no_duplicate_tags (mem w);
  lru_age :
    forall i j l,
      line_at (mem w) i j = Some l -> valid l <> 0 ->
      age l = last_use c0 h i (tag l) /\ 1 <= age l;
  lru_gone :
    forall i t,
      last_use c0 h i t <> 0 ->
      (exists j l, line_at (mem w) i j = Some l /\ valid l <> 0 /\ tag l = t)
      \/
      (forall j l, line_at (mem w) i j = Some l ->
                   valid l <> 0 /\ last_use c0 h i t < age l)
}.

(** The tags the run [h] referenced in set [i], in order, with repeats. *)
Definition tags_used (c0 : cache_t) (h : list Z) (i : Z) : list Z :=
  map (block_tag c0) (List.filter (fun a => set_for a c0 =? i) h).

(** The number of different values in a list. *)
Definition distinct {A : Type} `{EqDecision A} (l : list A) : Z :=
  Z.of_nat (length (remove_dups l)).

(** The blocks the run [h] referenced, each as its set and stored tag. *)
Definition blocks_used (c0 : cache_t) (h : list Z) : list (Z * Z) :=
  map (fun a => (set_for a c0, block_tag c0 a)) h.

(** No set is asked to hold more different blocks than it has lines. *)
Definition working_set_fits (c0 : cache_t) (E : Z) (h : list Z) : Prop :=
  Forall (fun a => distinct (tags_used c0 h (set_for a c0)) <= E) h.

(** * Properties *)

(** ** Machine integers *)

Lemma int_wrap_small (z : Z) : int_min <= z <= int_max -> int_wrap z = z.
Proof.
  unfold int_wrap, int_min, int_max. intros Hz.
  rewrite Z.mod_small; lia.
Qed.

Lemma uint_of_int_small (z : Z) : 0 <= z <= int_max -> uint_of_int z = z.
Proof.
  unfold uint_of_int, int_max. intros Hz. apply Z.mod_small. lia.
Qed.

Lemma ull_of_int_small (z : Z) : 0 <= z <= int_max -> ull_of_int z = z.
Proof.
  unfold ull_of_int, int_max. intros Hz. apply Z.mod_small. lia.
Qed.

Lemma pow2_minus_1_ones (bits : Z) :
  0 <= bits <= 31 -> pow2_minus_1 bits = Z.ones bits.
Proof.
  intros Hb. unfold pow2_minus_1.
  destruct (Z.ltb_spec bits (-53)); [lia|].
  destruct (Z.ltb_spec bits 0); [lia|].
  destruct (Z.leb_spec bits 31); [|lia].
  rewrite Z.ones_equiv. lia.
Qed.

(** ** Address decomposition *)

Section Decomposition.
Variables s b : Z.
Hypothesis Hs : 0 <= s.
Hypothesis Hb : 0 <= b.
Hypothesis Hsb : s + b <= 31.

(** The shifted mask fits an [int]: nothing is lost to the wrap-around. *)
Lemma set_mask_no_overflow :
  int_wrap (Z.shiftl (Z.ones s) b) = Z.shiftl (Z.ones s) b.
Proof using Hs Hb Hsb.
  apply int_wrap_small.
  rewrite Z.shiftl_mul_pow2, Z.ones_equiv by lia.
  unfold int_min, int_max.
  assert (H1 : 0 < 2 ^ b) by (apply Z.pow_pos_nonneg; lia).
  assert (H2 : 0 < 2 ^ s) by (apply Z.pow_pos_nonneg; lia).
  assert (H3 : 2 ^ s * 2 ^ b <= 2 ^ 31).
  { rewrite <- Z.pow_add_r by lia. apply Z.pow_le_mono_r; lia. }
  nia.
Qed.

Lemma set_index_bits (a : Z) :
  Z.shiftr (Z.land (Z.shiftl (Z.ones s) b) a) b
  = Z.land (Z.shiftr a b) (Z.ones s).
Proof using Hb.
  apply Z.bits_inj'. intros n Hn.
  rewrite Z.shiftr_spec, !Z.land_spec, Z.shiftl_spec, Z.shiftr_spec by lia.
  replace (n + b - b) with n by lia.
  apply andb_comm.
Qed.

Lemma tag_bits (a : Z) :
  Z.shiftr
    (Z.land (Z.lnot (Z.lor (Z.ones b) (Z.shiftl (Z.ones s) b))) a) (s + b)
  = Z.shiftr a (s + b).
Proof using Hs Hb.
  apply Z.bits_inj'. intros n Hn.
  rewrite !Z.shiftr_spec, Z.land_spec, Z.lnot_spec, Z.lor_spec by lia.
  rewrite Z.shiftl_spec by lia.
  rewrite !Z.ones_spec_high by lia.
  reflexivity.
Qed.
End Decomposition.

Lemma set_for_eq (address : Z) (c : cache_t) :
  geometry_fields_ok c ->
  set_for address c
  = Z.land (Z.shiftr address (block_bits c)) (Z.ones (set_bits c)).
Proof.
  intros (Hs & Hb & Hsb & Hns & Hnb). unfold set_for.
  rewrite Hns, pow2_minus_1_ones by lia.
  rewrite set_mask_no_overflow by lia.
  apply set_index_bits; lia.
Qed.

Lemma tag_for_eq (address : Z) (c : cache_t) :
  geometry_fields_ok c ->
  tag_for address c = Z.shiftr address (set_bits c + block_bits c).
Proof.
  intros (Hs & Hb & Hsb & Hns & Hnb). unfold tag_for.
  rewrite Hns, Hnb, !pow2_minus_1_ones by lia.
  rewrite set_mask_no_overflow by lia.
  rewrite (int_wrap_small (set_bits c + block_bits c))
    by (unfold int_min, int_max; lia).
  apply tag_bits; lia.
Qed.

Lemma set_for_range (address : Z) (c : cache_t) :
  geometry_fields_ok c ->
  0 <= set_for address c < 2 ^ set_bits c.
Proof.
  intros Hg. rewrite set_for_eq by exact Hg.
  destruct Hg as (Hs & _).
  rewrite Z.land_ones by lia.
  apply Z.mod_pos_bound. apply Z.pow_pos_nonneg; lia.
Qed.

(** ** Arrays and pointers *)

Lemma index_Some {A : Type} (l : list A) (i : Z) (x : A) :
  index l i = Some x <-> 0 <= i /\ l !! Z.to_nat i = Some x.
Proof.
  unfold index. destruct (Z.ltb_spec i 0); split.
  - discriminate.
  - intros [Hi _]. lia.
  - auto.
  - intros [_ Hx]. exact Hx.
Qed.

Lemma index_range {A : Type} (l : list A) (i : Z) (x : A) :
  index l i = Some x -> 0 <= i < Z.of_nat (length l).
Proof.
  intros [Hi Hx]%index_Some. apply lookup_lt_Some in Hx. lia.
Qed.

Lemma index_in_range {A : Type} (l : list A) (i : Z) :
  0 <= i < Z.of_nat (length l) -> exists x, index l i = Some x.
Proof.
  intros Hi.
  destruct (lookup_lt_is_Some_2 l (Z.to_nat i)) as [x Hx]; [lia|].
  exists x. apply index_Some. split; [lia|exact Hx].
Qed.

Lemma index_insert_eq {A : Type} (l : list A) (i : Z) (x y : A) :
  index l i = Some x -> index (<[Z.to_nat i := y]> l) i = Some y.
Proof.
  intros [Hi Hx]%index_Some. apply index_Some. split; [exact Hi|].
  apply list_lookup_insert_eq. eapply lookup_lt_Some, Hx.
Qed.

Lemma index_insert_ne {A : Type} (l : list A) (i j : Z) (y : A) :
  0 <= i -> i <> j -> index (<[Z.to_nat i := y]> l) j = index l j.
Proof.
  intros Hi Hij. unfold index. destruct (Z.ltb_spec j 0); [reflexivity|].
  apply list_lookup_insert_ne. lia.
Qed.

Lemma load_line_Some (w : world) (i j : Z) (l : cache_line_t) :
  line_at (mem w) i j = Some l -> load_line i j w = Some (l, w).
Proof.
  unfold line_at, load_line. destruct (index (set_arry (mem w)) i); [|discriminate].
  intros ->. reflexivity.
Qed.

Lemma update_line_Some (w : world) (i j : Z) (l : cache_line_t)
    (f : cache_line_t -> cache_line_t) :
  line_at (mem w) i j = Some l ->
  update_line i j f w
  = Some (tt, {| mem := write_line i j (f l) (mem w); stdout := stdout w |}).
Proof.
  unfold line_at, update_line, write_line.
  destruct (index (set_arry (mem w)) i); [|discriminate].
  intros ->. reflexivity.
Qed.

Lemma line_at_write_eq (c : cache_t) (i j : Z) (l l' : cache_line_t) :
  line_at c i j = Some l -> line_at (write_line i j l' c) i j = Some l'.
Proof.
  unfold line_at, write_line.
  destruct (index (set_arry c) i) as [set|] eqn:Hset; [|discriminate].
  intros Hl. cbn. erewrite index_insert_eq by exact Hset.
  cbn. eapply index_insert_eq, Hl.
Qed.

Lemma line_at_write_ne (c : cache_t) (i j i' j' : Z) (l l' : cache_line_t) :
  line_at c i j = Some l -> (i', j') <> (i, j) ->
  line_at (write_line i j l' c) i' j' = line_at c i' j'.
Proof.
  unfold line_at, write_line.
  destruct (index (set_arry c) i) as [set|] eqn:Hset; [|discriminate].
  intros Hl Hne. cbn.
  destruct (Z.eq_dec i i') as [<-|Hi].
  - erewrite index_insert_eq by exact Hset. rewrite Hset. cbn.
    apply index_insert_ne.
    + apply index_range in Hl. lia.
    + intros <-. apply Hne. reflexivity.
  - rewrite index_insert_ne; [reflexivity| |exact Hi].
    apply index_range in Hset. lia.
Qed.

Lemma write_line_scalars (c : cache_t) (i j : Z) (l : cache_line_t) :
  let c' := write_line i j l c in
  set_bits c' = set_bits c /\ associativity c' = associativity c /\
  block_bits c' = block_bits c /\ num_sets c' = num_sets c /\
  num_blocks c' = num_blocks c /\ miss_count c' = miss_count c /\
  hit_count c' = hit_count c /\ evict_count c' = evict_count c /\
  flag_v_set c' = flag_v_set c /\ instr_count c' = instr_count c.
Proof.
  unfold write_line. destruct (index (set_arry c) i); cbn; repeat split.
Qed.

Lemma write_line_ok (c : cache_t) (i j : Z) (l : cache_line_t) :
  cache_ok c -> cache_ok (write_line i j l c).
Proof.
  intros [Hg Hns Hnb Hlen Hlines]. unfold write_line.
  destruct (index (set_arry c) i) as [set|] eqn:Hset.
  - constructor; cbn; try assumption.
    + rewrite length_insert. exact Hlen.
    + apply Forall_insert; [exact Hlines|]. cbn. rewrite length_insert.
      apply index_Some in Hset as [_ Hset].
      exact (proj1 (Forall_lookup _ _) Hlines _ _ Hset).
  - constructor; assumption.
Qed.

(** ** The loop of [check_for_hit] *)

#[local] Arguments int_wrap : simpl never.
#[local] Arguments uint_of_int : simpl never.
#[local] Arguments ull_of_int : simpl never.

Lemma miss_count_write_line i j l c :
  miss_count (write_line i j l c) = miss_count c.
Proof. apply write_line_scalars. Qed.
Lemma hit_count_write_line i j l c :
  hit_count (write_line i j l c) = hit_count c.
Proof. apply write_line_scalars. Qed.
Lemma evict_count_write_line i j l c :
  evict_count (write_line i j l c) = evict_count c.
Proof. apply write_line_scalars. Qed.
Lemma instr_count_write_line i j l c :
  instr_count (write_line i j l c) = instr_count c.
Proof. apply write_line_scalars. Qed.
Lemma flag_v_set_write_line i j l c :
  flag_v_set (write_line i j l c) = flag_v_set c.
Proof. apply write_line_scalars. Qed.
Lemma associativity_write_line i j l c :
  associativity (write_line i j l c) = associativity c.
Proof. apply write_line_scalars. Qed.

Lemma set_bits_write_line i j l c :
  set_bits (write_line i j l c) = set_bits c.
Proof. apply write_line_scalars. Qed.
Lemma block_bits_write_line i j l c :
  block_bits (write_line i j l c) = block_bits c.
Proof. apply write_line_scalars. Qed.
Lemma num_sets_write_line i j l c :
  num_sets (write_line i j l c) = num_sets c.
Proof. apply write_line_scalars. Qed.
Lemma num_blocks_write_line i j l c :
  num_blocks (write_line i j l c) = num_blocks c.
Proof. apply write_line_scalars. Qed.

Create Rewrite HintDb cache_rw.
#[local] Hint Rewrite miss_count_write_line hit_count_write_line
  evict_count_write_line instr_count_write_line flag_v_set_write_line
  associativity_write_line set_bits_write_line block_bits_write_line
  num_sets_write_line num_blocks_write_line : cache_rw.

(** Reads of scalar fields after the program's own writes. *)
Ltac simpl_cache :=
  unfold verbose;
  repeat first
    [ progress cbn [mem stdout set_miss_count set_hit_count set_evict_count
                    set_instr_count set_set_arry set_bits associativity
                    block_bits num_sets num_blocks miss_count hit_count
                    evict_count flag_v_set instr_count set_arry]
    | progress autorewrite with cache_rw ].

Lemma line_matches_test (my_tag : Z) (l : cache_line_t) :
  (tag l =? ull_of_int my_tag) && negb (valid l =? 0) = true
  <-> line_matches my_tag l.
Proof.
  unfold line_matches.
  rewrite andb_true_iff, negb_true_iff, Z.eqb_eq, Z.eqb_neq. reflexivity.
Qed.

Lemma print_verbose (s : string) (w : world) :
  printf_if_verbose s w
  = Some (tt, {| mem := mem w; stdout := stdout w ++ verbose (mem w) s |}).
Proof.
  unfold printf_if_verbose, verbose, bind, get_cache, ret, printf.
  destruct (flag_v_set (mem w) =? 0); [|reflexivity].
  rewrite app_nil_r. destruct w; reflexivity.
Qed.

Lemma check_for_hit_from_hit (n : nat) :
  forall (k : Z) (w : world) (i my_tag : Z) (set : cache_set_t) (j : Z)
         (l : cache_line_t),
    index (set_arry (mem w)) i = Some set ->
    first_at (line_matches my_tag) (lines set) j l ->
    0 <= k <= j -> j < k + Z.of_nat n ->
    check_for_hit_from n k i my_tag w = Some (1, hit_world i j l w).
Proof.
  induction n as [|n IH]; intros k w i my_tag set j l Hset Hfirst Hk Hj; [lia|].
  pose proof Hfirst as (Hl & Hm & Hbefore).
  destruct (index_in_range (lines set) k) as [lk Hlk].
  { apply index_range in Hl. lia. }
  assert (Hat : line_at (mem w) i k = Some lk).
  { unfold line_at. rewrite Hset. exact Hlk. }
  cbn [check_for_hit_from]. unfold bind at 1.
  rewrite (load_line_Some _ _ _ _ Hat).
  destruct (Z.eq_dec k j) as [->|Hne].
  - assert (lk = l) by congruence. subst lk.
    rewrite (proj2 (line_matches_test my_tag l) Hm).
    unfold bind, get_cache, modify_cache, ret.
    rewrite (update_line_Some _ _ _ _ _ Hat). cbn [mem stdout].
    rewrite print_verbose. unfold hit_world. simpl_cache. reflexivity.
  - destruct ((tag lk =? ull_of_int my_tag) && negb (valid lk =? 0)) eqn:Htest.
    + apply line_matches_test in Htest.
      exfalso. apply (Hbefore k lk); [lia|exact Hlk|exact Htest].
    + apply (IH (k + 1) w i my_tag set j l Hset Hfirst); lia.
Qed.

Lemma check_for_hit_from_none (n : nat) :
  forall (k : Z) (w : world) (i my_tag : Z) (set : cache_set_t),
    index (set_arry (mem w)) i = Some set ->
    Forall (fun l => ~ line_matches my_tag l) (lines set) ->
    0 <= k -> k + Z.of_nat n <= Z.of_nat (length (lines set)) ->
    check_for_hit_from n k i my_tag w = Some (0, w).
Proof.
  induction n as [|n IH]; intros k w i my_tag set Hset Hnone Hk Hn;
    [reflexivity|].
  destruct (index_in_range (lines set) k) as [lk Hlk]; [lia|].
  assert (Hat : line_at (mem w) i k = Some lk).
  { unfold line_at. rewrite Hset. exact Hlk. }
  cbn [check_for_hit_from]. unfold bind at 1.
  rewrite (load_line_Some _ _ _ _ Hat).
  destruct ((tag lk =? ull_of_int my_tag) && negb (valid lk =? 0)) eqn:Htest.
  - apply line_matches_test in Htest. exfalso.
    apply index_Some in Hlk as [_ Hlk].
    exact (proj1 (Forall_lookup _ _) Hnone _ _ Hlk Htest).
  - apply (IH (k + 1) w i my_tag set Hset Hnone); lia.
Qed.

(** Either some line of the set passes the test of [check_for_hit], and
    then there is a first one, or none does. *)
Lemma first_at_or_none {A : Type} (P : A -> Prop) (ls : list A) :
  (forall x, Decision (P x)) ->
  (exists j l, first_at P ls j l) \/ Forall (fun l => ~ P l) ls.
Proof.
  intros Hdec.
  induction ls as [|x ls IH] using rev_ind.
  - right. constructor.
  - destruct IH as [(j & l & Hl & HP & Hbefore)|Hnone].
    + left. exists j, l. split; [|split].
      * apply index_Some in Hl as [Hj Hl]. apply index_Some. split; [exact Hj|].
        apply lookup_app_l_Some, Hl.
      * exact HP.
      * intros j' l' Hj' Hl'. apply (Hbefore j' l' Hj').
        apply index_Some in Hl' as [Hj0 Hl']. apply index_Some.
        split; [exact Hj0|].
        apply index_range in Hl.
        rewrite lookup_app_l in Hl' by lia. exact Hl'.
    + destruct (Hdec x) as [HP|HP].
      * left. exists (Z.of_nat (length ls)), x. split; [|split].
        -- apply index_Some. split; [lia|]. rewrite Nat2Z.id.
           apply list_lookup_middle. reflexivity.
        -- exact HP.
        -- intros j' l' Hj' Hl'.
           apply index_Some in Hl' as [Hj0 Hl'].
           rewrite lookup_app_l in Hl' by lia.
           exact (proj1 (Forall_lookup _ _) Hnone _ _ Hl').
      * right. apply Forall_app. split; [exact Hnone|].
        constructor; [exact HP|constructor].
Qed.

(** ** The loop of [miss] *)

Lemma evict_Some (w : world) (i j my_tag : Z) (l : cache_line_t) :
  line_at (mem w) i j = Some l ->
  evict i j my_tag w
  = Some (tt,
          {| mem := write_line i j
                      {| valid := valid l; dirty := dirty l;
                         tag := ull_of_int my_tag;
                         age := uint_of_int (instr_count (mem w)) |}
                      (set_evict_count (int_wrap (evict_count (mem w) + 1))
                         (mem w));
             stdout := stdout w ++ verbose (mem w) "eviction " |}).
Proof.
  intros Hat. unfold evict, bind, modify_cache, get_cache.
  rewrite print_verbose. cbn [mem stdout].
  erewrite update_line_Some by exact Hat.
  simpl_cache. reflexivity.
Qed.

Lemma miss_from_install (n : nat) :
  forall (k o : Z) (w : world) (i my_tag : Z) (set : cache_set_t) (j : Z)
         (l : cache_line_t),
    index (set_arry (mem w)) i = Some set ->
    first_at line_invalid (lines set) j l ->
    0 <= k <= j -> j < k + Z.of_nat n ->
    0 <= o < Z.of_nat (length (lines set)) ->
    miss_from n k o i my_tag w
    = Some (tt,
            {| mem := write_line i j
                        {| valid := 1; dirty := dirty l;
                           tag := ull_of_int my_tag;
                           age := uint_of_int (instr_count (mem w)) |}
                        (mem w);
               stdout := stdout w |}).
Proof.
  induction n as [|n IH];
    intros k o w i my_tag set j l Hset Hfirst Hk Hj Ho; [lia|].
  pose proof Hfirst as (Hl & Hinv & Hbefore).
  destruct (index_in_range (lines set) k) as [lk Hlk].
  { apply index_range in Hl. lia. }
  destruct (index_in_range (lines set) o Ho) as [lo Hlo].
  assert (Hatk : line_at (mem w) i k = Some lk).
  { unfold line_at. rewrite Hset. exact Hlk. }
  assert (Hato : line_at (mem w) i o = Some lo).
  { unfold line_at. rewrite Hset. exact Hlo. }
  cbn [miss_from]. unfold bind at 1.
  rewrite (load_line_Some _ _ _ _ Hatk). unfold bind at 1.
  rewrite (load_line_Some _ _ _ _ Hato).
  destruct (Z.eq_dec k j) as [->|Hne].
  - assert (lk = l) by congruence. subst lk.
    unfold line_invalid in Hinv. rewrite Hinv. cbn [Z.eqb].
    unfold bind, get_cache.
    rewrite (update_line_Some _ _ _ _ _ Hatk). reflexivity.
  - destruct (Z.eqb_spec (valid lk) 0) as [Hv|Hv].
    + exfalso. apply (Hbefore k lk); [lia|exact Hlk|exact Hv].
    + apply (IH (k + 1) _ w i my_tag set j l Hset Hfirst); [lia|lia|].
      destruct (age lk <? age lo); [|exact Ho].
      apply index_range in Hlk. lia.
Qed.

Lemma miss_from_evict (n : nat) :
  forall (k o : Z) (w : world) (i my_tag : Z) (set : cache_set_t)
         (lo : cache_line_t),
    index (set_arry (mem w)) i = Some set ->
    Forall (fun l => ~ line_invalid l) (lines set) ->
    0 <= k -> k + Z.of_nat n = Z.of_nat (length (lines set)) ->
    index (lines set) o = Some lo -> o <= k ->
    (forall j' l', 0 <= j' < k -> index (lines set) j' = Some l' ->
                   age lo <= age l' /\ (j' < o -> age lo < age l')) ->
    exists j l,
      oldest_at (lines set) j l /\
      miss_from n k o i my_tag w = evict i j my_tag w.
Proof.
  induction n as [|n IH];
    intros k o w i my_tag set lo Hset Hvalid Hk Hn Hlo Hok Hmin.
  - exists o, lo. split; [|reflexivity].
    split; [exact Hlo|]. split.
    + intros j' l' Hl'. apply (Hmin j' l'); [|exact Hl'].
      apply index_range in Hl'. lia.
    + intros j' l' Hj' Hl'. apply (Hmin j' l'); [|exact Hl'|lia].
      apply index_range in Hlo. lia.
  - destruct (index_in_range (lines set) k) as [lk Hlk]; [lia|].
    assert (Hatk : line_at (mem w) i k = Some lk).
    { unfold line_at. rewrite Hset. exact Hlk. }
    assert (Hato : line_at (mem w) i o = Some lo).
    { unfold line_at. rewrite Hset. exact Hlo. }
    cbn [miss_from]. unfold bind at 1.
    rewrite (load_line_Some _ _ _ _ Hatk). unfold bind at 1.
    rewrite (load_line_Some _ _ _ _ Hato).
    destruct (Z.eqb_spec (valid lk) 0) as [Hv|Hv].
    { exfalso. pose proof Hlk as [_ Hlk']%index_Some.
      exact (proj1 (Forall_lookup _ _) Hvalid _ _ Hlk' Hv). }
    destruct (Z.ltb_spec (age lk) (age lo)) as [Hlt|Hge].
    + apply (IH (k + 1) k w i my_tag set lk Hset Hvalid); try lia;
        [exact Hlk|].
      intros j' l' Hj' Hl'.
      destruct (Z.eq_dec j' k) as [->|Hjk].
      * assert (l' = lk) by congruence. subst l'. lia.
      * destruct (Hmin j' l') as [Hle _]; [lia|exact Hl'|]. lia.
    + apply (IH (k + 1) o w i my_tag set lo Hset Hvalid); try lia;
        [exact Hlo|].
      intros j' l' Hj' Hl'.
      destruct (Z.eq_dec j' k) as [->|Hjk].
      * assert (l' = lk) by congruence. subst l'. lia.
      * apply (Hmin j' l'); [lia|exact Hl'].
Qed.

(** ** [check_for_hit] and [miss] as state transformers *)

Section OneSet.
Variables (w : world) (i my_tag : Z) (set : cache_set_t).
Hypothesis Hset : index (set_arry (mem w)) i = Some set.
Hypothesis Hlen : length (lines set) = Z.to_nat (associativity (mem w)).

Lemma check_for_hit_hit (j : Z) (l : cache_line_t) :
  first_at (line_matches my_tag) (lines set) j l ->
  check_for_hit i my_tag w = Some (1, hit_world i j l w).
Proof using Hset Hlen.
  intros Hfirst. unfold check_for_hit, bind, get_cache.
  apply (check_for_hit_from_hit _ 0 w i my_tag set j l Hset Hfirst).
  - destruct Hfirst as [Hl%index_range _]. lia.
  - destruct Hfirst as [Hl%index_range _]. lia.
Qed.

Lemma check_for_hit_none :
  Forall (fun l => ~ line_matches my_tag l) (lines set) ->
  check_for_hit i my_tag w = Some (0, w).
Proof using Hset Hlen.
  intros Hnone. unfold check_for_hit, bind, get_cache.
  apply (check_for_hit_from_none _ 0 w i my_tag set Hset Hnone); lia.
Qed.

Lemma miss_install (j : Z) (l : cache_line_t) :
  first_at line_invalid (lines set) j l ->
  miss i my_tag w = Some (tt, install_world i j my_tag l w).
Proof using Hset Hlen.
  intros Hfirst. unfold miss, bind, modify_cache, get_cache.
  rewrite print_verbose. cbn [mem stdout].
  pose proof Hfirst as [Hl%index_range _].
  erewrite (miss_from_install _ 0 0 _ i my_tag set j l);
    [reflexivity|exact Hset|exact Hfirst|lia| |lia].
  simpl_cache. lia.
Qed.

Lemma miss_evict :
  1 <= associativity (mem w) ->
  Forall (fun l => ~ line_invalid l) (lines set) ->
  exists j l,
    oldest_at (lines set) j l /\
    miss i my_tag w = Some (tt, evict_world i j my_tag l w).
Proof using Hset Hlen.
  intros HE Hvalid.
  destruct (index_in_range (lines set) 0) as [l0 Hl0]; [lia|].
  set (w1 := {| mem := set_miss_count (int_wrap (miss_count (mem w) + 1))
                         (mem w);
                stdout := stdout w ++ verbose (mem w) "miss " |}).
  destruct (miss_from_evict (Z.to_nat (associativity (mem w))) 0 0 w1 i
              my_tag set l0) as (j & l & Hold & Hrun);
    [exact Hset|exact Hvalid|lia|lia|exact Hl0|lia|intros; lia|].
  exists j, l. split; [exact Hold|].
  unfold miss, bind, modify_cache, get_cache.
  rewrite print_verbose. cbn [mem stdout].
  simpl_cache. fold (verbose (mem w) "miss "). fold w1. rewrite Hrun.
  erewrite evict_Some.
  - unfold evict_world, w1. simpl_cache.
    fold (verbose (mem w) "miss "). fold (verbose (mem w) "eviction ").
    rewrite <- app_assoc. reflexivity.
  - unfold line_at, w1. simpl_cache. rewrite Hset. apply Hold.
Qed.
End OneSet.

(** ** [lookup] as a state transformer *)

Lemma cache_ok_fields (c : cache_t) : cache_ok c -> geometry_fields_ok c.
Proof.
  intros [(Hs & Hb & Hsb & HE) Hns Hnb _ _].
  unfold geometry_fields_ok. repeat split; try assumption; lia.
Qed.

Lemma cache_ok_set (c : cache_t) (address : Z) :
  cache_ok c ->
  exists set,
    index (set_arry c) (set_for address c) = Some set /\
    length (lines set) = Z.to_nat (associativity c).
Proof.
  intros Hok.
  pose proof (set_for_range address c (cache_ok_fields c Hok)) as Hi.
  destruct (index_in_range (set_arry c) (set_for address c)) as [set Hset].
  { rewrite (ok_set_arry c Hok). exact Hi. }
  exists set. split; [exact Hset|].
  apply index_Some in Hset as [_ Hset].
  exact (proj1 (Forall_lookup _ _) (ok_lines c Hok) _ _ Hset).
Qed.

Lemma lookup_total (address : Z) (w : world) :
  cache_ok (mem w) ->
  exists w', lookup address w = Some (tt, w') /\ lookup_step address w w'.
Proof.
  intros Hok.
  destruct (cache_ok_set (mem w) address Hok) as (set & Hset & Hlen).
  assert (HE : 1 <= associativity (mem w)) by apply Hok.
  unfold lookup, bind at 1, modify_cache. fold (count_instr w).
  unfold bind at 1, get_cache.
  change (tag_for address (mem (count_instr w)))
    with (tag_for address (mem w)).
  change (set_for address (mem (count_instr w)))
    with (set_for address (mem w)).
  set (i := set_for address (mem w)) in *.
  set (t := tag_for address (mem w)) in *.
  assert (Hset1 : index (set_arry (mem (count_instr w))) i = Some set)
    by exact Hset.
  assert (Hlen1 : length (lines set)
                  = Z.to_nat (associativity (mem (count_instr w))))
    by exact Hlen.
  destruct (first_at_or_none (line_matches t) (lines set))
    as [(j & l & Hfirst)|Hnone].
  { intros x. unfold line_matches. apply _. }
  - eexists. split; [|exact (lookup_hit address w set j l Hset Hfirst)].
    unfold bind.
    rewrite (check_for_hit_hit _ i t set Hset1 Hlen1 j l Hfirst).
    reflexivity.
  - unfold bind.
    rewrite (check_for_hit_none _ i t set Hset1 Hlen1 Hnone). cbn [Z.eqb].
    destruct (first_at_or_none line_invalid (lines set))
      as [(j & l & Hfirst)|Hvalid].
    { intros x. unfold line_invalid. apply _. }
    + eexists. split;
        [|exact (lookup_install address w set j l Hset Hnone Hfirst)].
      apply (miss_install _ i t set Hset1 Hlen1 j l Hfirst).
    + destruct (miss_evict _ i t set Hset1 Hlen1 HE Hvalid)
        as (j & l & Hold & Hrun).
      eexists. split;
        [|exact (lookup_evict address w set j l Hset Hnone Hvalid Hold)].
      exact Hrun.
Qed.

(** ** What the three outcomes leave in the heap *)

Lemma cache_ok_same_shape (c c' : cache_t) :
  set_bits c' = set_bits c -> associativity c' = associativity c ->
  block_bits c' = block_bits c -> num_sets c' = num_sets c ->
  num_blocks c' = num_blocks c -> set_arry c' = set_arry c ->
  cache_ok c -> cache_ok c'.
Proof.
  intros Hs HE Hb Hns Hnb Harr [Hg H1 H2 H3 H4].
  constructor; rewrite ?Hs, ?HE, ?Hb, ?Hns, ?Hnb, ?Harr; assumption.
Qed.

Section Outcomes.
Variables (w : world) (i j my_tag : Z) (l : cache_line_t).
Hypothesis Hat : line_at (mem w) i j = Some l.

Lemma hit_world_line :
  line_at (mem (hit_world i j l w)) i j
  = Some (set_age (uint_of_int (instr_count (mem w))) l).
Proof using Hat. exact (line_at_write_eq _ _ _ _ _ Hat). Qed.

Lemma hit_world_frame (i' j' : Z) :
  (i', j') <> (i, j) ->
  line_at (mem (hit_world i j l w)) i' j' = line_at (mem w) i' j'.
Proof using Hat. exact (line_at_write_ne _ _ _ _ _ _ _ Hat). Qed.

Lemma install_world_line :
  line_at (mem (install_world i j my_tag l w)) i j
  = Some {| valid := 1; dirty := dirty l; tag := ull_of_int my_tag;
            age := uint_of_int (instr_count (mem w)) |}.
Proof using Hat.
  unfold install_world. cbn [mem]. apply (line_at_write_eq _ _ _ l).
  exact Hat.
Qed.

Lemma install_world_frame (i' j' : Z) :
  (i', j') <> (i, j) ->
  line_at (mem (install_world i j my_tag l w)) i' j'
  = line_at (mem w) i' j'.
Proof using Hat.
  intros Hne. unfold install_world. cbn [mem].
  rewrite (line_at_write_ne _ i j i' j' l); [reflexivity|exact Hat|exact Hne].
Qed.

Lemma evict_world_line :
  line_at (mem (evict_world i j my_tag l w)) i j
  = Some {| valid := valid l; dirty := dirty l; tag := ull_of_int my_tag;
            age := uint_of_int (instr_count (mem w)) |}.
Proof using Hat.
  unfold evict_world. cbn [mem]. apply (line_at_write_eq _ _ _ l).
  exact Hat.
Qed.

Lemma evict_world_frame (i' j' : Z) :
  (i', j') <> (i, j) ->
  line_at (mem (evict_world i j my_tag l w)) i' j'
  = line_at (mem w) i' j'.
Proof using Hat.
  intros Hne. unfold evict_world. cbn [mem].
  rewrite (line_at_write_ne _ i j i' j' l); [reflexivity|exact Hat|exact Hne].
Qed.
End Outcomes.

Lemma hit_world_ok (w : world) (i j : Z) (l : cache_line_t) :
  cache_ok (mem w) -> cache_ok (mem (hit_world i j l w)).
Proof.
  intros Hok. unfold hit_world. cbn [mem].
  eapply cache_ok_same_shape; [..|apply write_line_ok, Hok]; reflexivity.
Qed.

Lemma install_world_ok (w : world) (i j t : Z) (l : cache_line_t) :
  cache_ok (mem w) -> cache_ok (mem (install_world i j t l w)).
Proof.
  intros Hok. unfold install_world. cbn [mem].
  apply write_line_ok.
  eapply cache_ok_same_shape; [..|exact Hok]; reflexivity.
Qed.

Lemma evict_world_ok (w : world) (i j t : Z) (l : cache_line_t) :
  cache_ok (mem w) -> cache_ok (mem (evict_world i j t l w)).
Proof.
  intros Hok. unfold evict_world. cbn [mem].
  apply write_line_ok.
  eapply cache_ok_same_shape; [..|exact Hok]; reflexivity.
Qed.

Lemma count_instr_ok (w : world) :
  cache_ok (mem w) -> cache_ok (mem (count_instr w)).
Proof.
  intros Hok. eapply cache_ok_same_shape; [..|exact Hok]; reflexivity.
Qed.

Lemma lookup_step_ok (address : Z) (w w' : world) :
  cache_ok (mem w) -> lookup_step address w w' -> cache_ok (mem w').
Proof.
  intros Hok%count_instr_ok Hstep.
  destruct Hstep;
    [apply hit_world_ok|apply install_world_ok|apply evict_world_ok];
    exact Hok.
Qed.

Lemma lookup_step_geometry (address : Z) (w w' : world) :
  lookup_step address w w' -> same_geometry (mem w) (mem w').
Proof.
  intros Hstep. unfold same_geometry.
  destruct Hstep; unfold hit_world, install_world, evict_world, count_instr;
    simpl_cache; repeat split.
Qed.

(** The line a step touches, seen through [line_at]. *)
Lemma first_at_line_at {P : cache_line_t -> Prop} (c : cache_t) (i j : Z)
    (set : cache_set_t) (l : cache_line_t) :
  index (set_arry c) i = Some set -> first_at P (lines set) j l ->
  line_at c i j = Some l.
Proof.
  intros Hset [Hl _]. unfold line_at. rewrite Hset. exact Hl.
Qed.

Lemma oldest_at_line_at (c : cache_t) (i j : Z) (set : cache_set_t)
    (l : cache_line_t) :
  index (set_arry c) i = Some set -> oldest_at (lines set) j l ->
  line_at c i j = Some l.
Proof.
  intros Hset [Hl _]. unfold line_at. rewrite Hset. exact Hl.
Qed.

(** ** Counters along a run *)

Lemma lookup_step_counters (address : Z) (w w' : world) :
  counters_ok (mem w) -> instr_count (mem w) < int_max ->
  lookup_step address w w' ->
  counters_ok (mem w') /\
  instr_count (mem w') = instr_count (mem w) + 1 /\
  (hit_count (mem w') = hit_count (mem w) + 1 /\
   miss_count (mem w') = miss_count (mem w) /\
   evict_count (mem w') = evict_count (mem w)
   \/
   hit_count (mem w') = hit_count (mem w) /\
   miss_count (mem w') = miss_count (mem w) + 1 /\
   evict_count (mem w) <= evict_count (mem w') <= evict_count (mem w) + 1).
Proof.
  intros [He Hh Hsum Hi] Hlt Hstep.
  assert (Hw : forall z, 0 <= z <= instr_count (mem w) ->
                         int_wrap (z + 1) = z + 1).
  { intros z Hz. apply int_wrap_small. unfold int_min, int_max in *. lia. }
  destruct Hstep; unfold hit_world, install_world, evict_world, count_instr;
    simpl_cache; rewrite ?Hw by lia;
    (split; [constructor; simpl_cache; rewrite ?Hw by lia; lia|]);
    (split; [reflexivity|]); lia.
Qed.

(** ** Construction *)

Lemma make_cache_set_count (s : Z) :
  0 <= s <= 30 ->
  Z.of_nat (Z.to_nat (int_wrap (pow2_minus_1 s + 1))) = 2 ^ s.
Proof.
  intros Hs. rewrite pow2_minus_1_ones, Z.ones_equiv by lia.
  replace (Z.pred (2 ^ s) + 1) with (2 ^ s) by lia.
  assert (H1 : 0 < 2 ^ s) by (apply Z.pow_pos_nonneg; lia).
  assert (H2 : 2 ^ s <= 2 ^ 30) by (apply Z.pow_le_mono_r; lia).
  rewrite int_wrap_small by (unfold int_min, int_max; lia).
  lia.
Qed.

Lemma make_cache_ok (s E b v : Z) :
  geometry_ok s E b -> cache_ok (make_cache s E b v).
Proof.
  intros Hg. pose proof Hg as (Hs & Hb & Hsb & HE).
  constructor; cbn; try reflexivity.
  - exact Hg.
  - rewrite length_replicate. apply make_cache_set_count, Hs.
  - apply Forall_replicate. cbn. apply length_replicate.
Qed.

Lemma make_cache_counters (s E b v : Z) : counters_ok (make_cache s E b v).
Proof. constructor; cbn; unfold int_max; lia. Qed.

(** ** Runs of [lookup] *)

Lemma lookups_run (addresses : list Z) :
  forall w : world,
    cache_ok (mem w) -> counters_ok (mem w) ->
    instr_count (mem w) + Z.of_nat (length addresses) <= int_max ->
    exists w',
      lookups addresses w = Some (tt, w') /\
      cache_ok (mem w') /\ counters_ok (mem w') /\
      instr_count (mem w')
      = instr_count (mem w) + Z.of_nat (length addresses).
Proof.
  induction addresses as [|a rest IH]; intros w Hok Hc Hn.
  - exists w. split; [reflexivity|]. split; [exact Hok|].
    split; [exact Hc|]. cbn [length]. lia.
  - cbn [length] in Hn.
    destruct (lookup_total a w Hok) as (w1 & Hrun & Hstep).
    destruct (lookup_step_counters a w w1 Hc) as (Hc1 & Hi1 & _);
      [lia|exact Hstep|].
    destruct (IH w1) as (w' & Hrest & Hok' & Hc' & Hi');
      [exact (lookup_step_ok a w w1 Hok Hstep)|exact Hc1|lia|].
    exists w'. cbn [lookups]. unfold bind. rewrite Hrun.
    split; [exact Hrest|]. split; [exact Hok'|]. split; [exact Hc'|].
    cbn [length]. lia.
Qed.

Lemma sub_references_nonneg (records : list (ascii * Z)) :
  0 <= sub_references records.
Proof.
  induction records as [|[op a] rest IH]; cbn; [lia|].
  fold (sub_references rest). destruct (Ascii.eqb op "M"); lia.
Qed.

Lemma call_lookup_run (a : Z) (op : ascii) (w : world) :
  cache_ok (mem w) -> counters_ok (mem w) ->
  instr_count (mem w) + (if Ascii.eqb op "M" then 2 else 1) <= int_max ->
  exists w',
    call_lookup a op w = Some (tt, w') /\
    cache_ok (mem w') /\ counters_ok (mem w') /\
    instr_count (mem w')
    = instr_count (mem w) + (if Ascii.eqb op "M" then 2 else 1).
Proof.
  intros Hok Hc Hn. unfold call_lookup.
  destruct (Ascii.eqb op "M").
  - destruct (lookups_run [a; a] w Hok Hc) as (w' & Hrun & Hok' & Hc' & Hi').
    { cbn [length]. lia. }
    cbn [lookups] in Hrun. unfold bind in Hrun. unfold bind.
    destruct (lookup a w) as [[[] w1]|]; [|discriminate].
    destruct (lookup a w1) as [[[] w2]|]; [|discriminate].
    cbn in Hrun. injection Hrun as ->.
    rewrite print_verbose. eexists. split; [reflexivity|].
    cbn [mem]. split; [exact Hok'|]. split; [exact Hc'|].
    cbn [length] in Hi'. lia.
  - destruct (lookups_run [a] w Hok Hc) as (w' & Hrun & Hok' & Hc' & Hi').
    { cbn [length]. lia. }
    cbn [lookups] in Hrun. unfold bind in Hrun. unfold bind.
    destruct (lookup a w) as [[[] w1]|]; [|discriminate].
    cbn in Hrun. injection Hrun as ->.
    unfold ret. rewrite print_verbose.
    eexists. split; [reflexivity|].
    cbn [mem]. split; [exact Hok'|]. split; [exact Hc'|].
    cbn [length] in Hi'. lia.
Qed.

Lemma read_file_run (records : list (ascii * Z)) :
  forall w : world,
    cache_ok (mem w) -> counters_ok (mem w) ->
    instr_count (mem w) + sub_references records <= int_max ->
    exists w',
      read_file records w = Some (tt, w') /\
      cache_ok (mem w') /\ counters_ok (mem w') /\
      instr_count (mem w') = instr_count (mem w) + sub_references records.
Proof.
  induction records as [|[op a] rest IH]; intros w Hok Hc Hn.
  - exists w. split; [reflexivity|]. split; [exact Hok|].
    split; [exact Hc|]. cbn. lia.
  - cbn [sub_references fold_right fst] in Hn |- *.
    fold (sub_references rest) in Hn |- *.
    pose proof (sub_references_nonneg rest) as Hrest.
    destruct (call_lookup_run a op w Hok Hc) as (w1 & Hrun & Hok1 & Hc1 & Hi1);
      [destruct (Ascii.eqb op "M"); lia|].
    destruct (IH w1 Hok1 Hc1) as (w' & Hrun' & Hok' & Hc' & Hi'); [lia|].
    exists w'. cbn [read_file]. unfold bind. rewrite Hrun.
    split; [exact Hrun'|]. split; [exact Hok'|]. split; [exact Hc'|]. lia.
Qed.

(** ** Validity of lines *)

Lemma Exists_first_at {A : Type} (P : A -> Prop) (ls : list A) :
  (forall x, Decision (P x)) -> Exists P ls ->
  exists j l, first_at P ls j l.
Proof.
  intros Hdec Hex.
  destruct (first_at_or_none P ls Hdec) as [Hfirst|Hnone]; [exact Hfirst|].
  exfalso. revert Hex. apply Forall_Exists_neg, Hnone.
Qed.

Lemma lookup_step_valid (address : Z) (w w' : world) :
  lookup_step address w w' ->
  forall i j l,
    line_at (mem w) i j = Some l -> valid l <> 0 ->
    exists l', line_at (mem w') i j = Some l' /\ valid l' <> 0.
Proof.
  intros Hstep i j l Hl Hv.
  destruct Hstep as [set j0 l0 Hset Hfirst|set j0 l0 Hset _ Hfirst
                    |set j0 l0 Hset _ Hvalid Hold].
  - pose proof (first_at_line_at (mem (count_instr w)) _ _ _ _ Hset Hfirst)
      as Hat.
    destruct (decide ((i, j) = (set_for address (mem w), j0))) as [Heq|Hne].
    + injection Heq as -> ->. eexists. split; [apply hit_world_line, Hat|].
      cbn. assert (l0 = l) by (change (line_at (mem w) (set_for address (mem w)) j0 = Some l0) in Hat; congruence).
      subst l0. exact Hv.
    + exists l. split; [|exact Hv].
      rewrite (hit_world_frame _ _ _ _ Hat _ _ Hne). exact Hl.
  - pose proof (first_at_line_at (mem (count_instr w)) _ _ _ _ Hset Hfirst)
      as Hat.
    destruct (decide ((i, j) = (set_for address (mem w), j0))) as [Heq|Hne].
    + injection Heq as -> ->. eexists.
      split; [apply install_world_line, Hat|]. cbn. lia.
    + exists l. split; [|exact Hv].
      rewrite (install_world_frame _ _ _ _ _ Hat _ _ Hne). exact Hl.
  - pose proof (oldest_at_line_at (mem (count_instr w)) _ _ _ _ Hset Hold)
      as Hat.
    destruct (decide ((i, j) = (set_for address (mem w), j0))) as [Heq|Hne].
    + injection Heq as -> ->. eexists.
      split; [apply evict_world_line, Hat|]. cbn.
      assert (l0 = l) by (change (line_at (mem w) (set_for address (mem w)) j0 = Some l0) in Hat; congruence).
      subst l0. exact Hv.
    + exists l. split; [|exact Hv].
      rewrite (evict_world_frame _ _ _ _ _ Hat _ _ Hne). exact Hl.
Qed.

Lemma lookups_valid (addresses : list Z) :
  forall w : world,
    cache_ok (mem w) ->
    exists w',
      lookups addresses w = Some (tt, w') /\
      cache_ok (mem w') /\
      forall i j l,
        line_at (mem w) i j = Some l -> valid l <> 0 ->
        exists l', line_at (mem w') i j = Some l' /\ valid l' <> 0.
Proof.
  induction addresses as [|a rest IH]; intros w Hok.
  - exists w. split; [reflexivity|]. split; [exact Hok|].
    intros i j l Hl Hv. exists l. auto.
  - destruct (lookup_total a w Hok) as (w1 & Hrun & Hstep).
    destruct (IH w1 (lookup_step_ok a w w1 Hok Hstep))
      as (w' & Hrest & Hok' & Hmono).
    exists w'. cbn [lookups]. unfold bind. rewrite Hrun.
    split; [exact Hrest|]. split; [exact Hok'|].
    intros i j l Hl Hv.
    destruct (lookup_step_valid a w w1 Hstep i j l Hl Hv) as (l1 & Hl1 & Hv1).
    exact (Hmono i j l1 Hl1 Hv1).
Qed.

Lemma write_line_all_valid (c : cache_t) (i j : Z) (l : cache_line_t) :
  all_lines_valid c -> valid l <> 0 -> all_lines_valid (write_line i j l c).
Proof.
  intros Hall Hv. unfold write_line, all_lines_valid in *.
  destruct (index (set_arry c) i) as [set|] eqn:Hset; [|exact Hall].
  cbn. apply Forall_insert; [exact Hall|]. cbn.
  apply Forall_insert; [|exact Hv].
  apply index_Some in Hset as [_ Hset].
  exact (proj1 (Forall_lookup _ _) Hall _ _ Hset).
Qed.

Lemma all_valid_set (c : cache_t) (i : Z) (set : cache_set_t) :
  all_lines_valid c -> index (set_arry c) i = Some set ->
  Forall (fun l => ~ line_invalid l) (lines set).
Proof.
  intros Hall [_ Hset]%index_Some.
  exact (proj1 (Forall_lookup _ _) Hall _ _ Hset).
Qed.

Lemma all_valid_line (c : cache_t) (i j : Z) (set : cache_set_t)
    (l : cache_line_t) :
  all_lines_valid c -> index (set_arry c) i = Some set ->
  index (lines set) j = Some l -> valid l <> 0.
Proof.
  intros Hall Hset [_ Hl]%index_Some.
  exact (proj1 (Forall_lookup _ _) (all_valid_set c i set Hall Hset) _ _ Hl).
Qed.

(** On a full cache a step is a hit or an eviction, and the cache stays
    full. *)
Lemma lookup_step_full (address : Z) (w w' : world) :
  counters_ok (mem w) -> instr_count (mem w) < int_max ->
  all_lines_valid (mem w) -> lookup_step address w w' ->
  all_lines_valid (mem w') /\
  (hit_count (mem w') = hit_count (mem w) + 1 /\
   miss_count (mem w') = miss_count (mem w) /\
   evict_count (mem w') = evict_count (mem w)
   \/
   hit_count (mem w') = hit_count (mem w) /\
   miss_count (mem w') = miss_count (mem w) + 1 /\
   evict_count (mem w') = evict_count (mem w) + 1).
Proof.
  intros [He Hh Hsum Hi] Hlt Hall Hstep.
  assert (Hw : forall z, 0 <= z <= instr_count (mem w) ->
                         int_wrap (z + 1) = z + 1).
  { intros z Hz. apply int_wrap_small. unfold int_min, int_max in *. lia. }
  destruct Hstep as [set j l Hset Hfirst|set j l Hset _ Hfirst
                    |set j l Hset _ Hvalid Hold].
  - split.
    + unfold hit_world. cbn [mem]. unfold all_lines_valid. cbn [set_arry].
      apply write_line_all_valid; [exact Hall|]. cbn.
      destruct Hfirst as (Hl & _). exact (all_valid_line _ _ _ _ _ Hall Hset Hl).
    + left. unfold hit_world, count_instr. simpl_cache.
      rewrite Hw by lia. auto.
  - exfalso. destruct Hfirst as (Hl & Hinv & _).
    exact (all_valid_line _ _ _ _ _ Hall Hset Hl Hinv).
  - split.
    + unfold evict_world. cbn [mem].
      apply write_line_all_valid; [exact Hall|]. cbn.
      destruct Hold as (Hl & _). exact (all_valid_line _ _ _ _ _ Hall Hset Hl).
    + right. unfold evict_world, count_instr. simpl_cache.
      rewrite !Hw by lia. auto.
Qed.

Lemma lookups_full (addresses : list Z) :
  forall w : world,
    cache_ok (mem w) -> counters_ok (mem w) -> all_lines_valid (mem w) ->
    instr_count (mem w) + Z.of_nat (length addresses) <= int_max ->
    exists w',
      lookups addresses w = Some (tt, w') /\
      all_lines_valid (mem w') /\
      evict_count (mem w') - evict_count (mem w)
      = miss_count (mem w') - miss_count (mem w).
Proof.
  induction addresses as [|a rest IH]; intros w Hok Hc Hall Hn.
  - exists w. split; [reflexivity|]. split; [exact Hall|lia].
  - cbn [length] in Hn.
    destruct (lookup_total a w Hok) as (w1 & Hrun & Hstep).
    destruct (lookup_step_counters a w w1 Hc) as (Hc1 & Hi1 & _);
      [lia|exact Hstep|].
    destruct (lookup_step_full a w w1 Hc) as (Hall1 & Hcase);
      [lia|exact Hall|exact Hstep|].
    destruct (IH w1) as (w' & Hrest & Hall' & Hdiff);
      [exact (lookup_step_ok a w w1 Hok Hstep)|exact Hc1|exact Hall1|lia|].
    exists w'. cbn [lookups]. unfold bind. rewrite Hrun.
    split; [exact Hrest|]. split; [exact Hall'|]. lia.
Qed.

(** ** The model on small inputs *)

(** Two loads of one address: a miss that fills a line, then a hit. *)
Example load_twice :
  exists w',
    lookups [0; 0] {| mem := make_cache 0 2 0 0; stdout := [] |}
    = Some (tt, w') /\
    counters (mem w') = (1, 1, 0).
Proof. eexists. split; vm_compute; reflexivity. Qed.

(** A modify record is looked up twice: the load misses, the store hits. *)
Example modify_record :
  main 1 4 1 4 (Some [("M"%char, 1040)])
  = Some (0, Some {| hits := 1; misses := 1; evictions := 0 |}).
Proof. vm_compute. reflexivity. Qed.

(** Addresses 0x10 and 0x30 share set 1 of a direct-mapped cache with two
    sets of 16 bytes and evict each other; 0x20 lives in set 0. *)
Example direct_mapped_conflict :
  main 0 1 1 4 (Some [("L"%char, 16); ("L"%char, 32); ("L"%char, 48);
                      ("L"%char, 16); ("S"%char, 32)])
  = Some (0, Some {| hits := 1; misses := 4; evictions := 2 |}).
Proof. vm_compute. reflexivity. Qed.

(** An address with bit 31 set is a negative [int]: its tag is negative and
    is stored converted to [unsigned long long]. *)
Example high_address_tag :
  tag_for (-16) (make_cache 1 1 2 0) = -2 /\
  set_for (-16) (make_cache 1 1 2 0) = 0 /\
  ull_of_int (-2) = 18446744073709551614.
Proof. repeat split. Qed.

(** * The claims *)

(** Address decomposition while the masks fit an [int], that is for
    [set_bits + block_bits <= 31].  With [set_count = 2 ^ set_bits],
    [set_for] returns [(address >> block_bits) & (set_count - 1)] and
    [tag_for] returns [address >> (set_bits + block_bits)].  Both read the
    cache and return an [int]; the result is a function of the address and
    of the geometry fields alone, the same on any two caches that agree on
    these fields, whatever their lines and counters. *)
Theorem address_decomposition (address : Z) (c : cache_t) :
  geometry_fields_ok c ->
  let set_count := 2 ^ set_bits c in
  set_for address c
    = Z.land (Z.shiftr address (block_bits c)) (set_count - 1) /\
  tag_for address c = Z.shiftr address (set_bits c + block_bits c) /\
  forall c' : cache_t,
    same_geometry c c' ->
    set_for address c' = set_for address c /\
    tag_for address c' = tag_for address c.
Proof.
  intros Hg set_count. split; [|split].
  - rewrite set_for_eq by exact Hg. unfold set_count.
    rewrite Z.ones_equiv. reflexivity.
  - apply tag_for_eq, Hg.
  - intros c' (Hs & _ & Hb & Hns & Hnb). unfold set_for, tag_for.
    rewrite Hs, Hb, Hns, Hnb. split; reflexivity.
Qed.

Lemma address_decomposition_witness :
  set_for 74565 (make_cache 4 2 3 0) = 8 /\
  tag_for 74565 (make_cache 4 2 3 0) = 582.
Proof.
  destruct (address_decomposition 74565 (make_cache 4 2 3 0))
    as (Hset & Htag & _).
  - unfold geometry_fields_ok. cbn. repeat split; lia.
  - split; [exact Hset|exact Htag].
Defined.

(** C4.  The specification gives the set index and the tag by the same two
    formulas for every geometry.  The code builds its masks in [int]s.  With
    [set_bits = 16] and [block_bits = 16] the mask [num_sets << block_bits]
    has the sign bit set, and for the address [0xffffffff], the [int] -1,
    the arithmetic [>>] brings the sign down into the result: [set_for]
    returns -1 where the formula gives [0xffff], and [tag_for] returns 0
    where the formula gives -1.  The index -1 is outside the 65536 sets of
    [set_arry], so the [lookup] of that address is undefined. *)
Theorem address_decomposition_overflow :
  set_for (-1) (make_cache 16 1 16 0) = -1 /\
  Z.land (Z.shiftr (-1) 16) (2 ^ 16 - 1) = 65535 /\
  tag_for (-1) (make_cache 16 1 16 0) = 0 /\
  Z.shiftr (-1) (16 + 16) = -1 /\
  Z.of_nat (length (set_arry (make_cache 16 1 16 0))) = 65536 /\
  lookup (-1) {| mem := make_cache 16 1 16 0; stdout := [] |} = None.
Proof.
  split; [vm_compute; reflexivity|].
  split; [vm_compute; reflexivity|].
  split; [vm_compute; reflexivity|].
  split; [vm_compute; reflexivity|].
  split; vm_compute; reflexivity.
Qed.

(** C8.  For [0 <= s] (up to 30, so that the count of sets is an [int]) and
    [A >= 1], [make_cache] allocates exactly [2 ^ s] sets, no set beyond
    them; each set has exactly [A] lines, every line with [valid = 0],
    [tag = 0] and [age = 0]; the hit, miss and eviction counts and
    [instr_count] start at zero. *)
Theorem make_cache_allocates (s A b v : Z) :
  0 <= s <= 30 -> 1 <= A ->
  let c := make_cache s A b v in
  Z.of_nat (length (set_arry c)) = 2 ^ s /\
  Forall (fun set =>
            Z.of_nat (length (lines set)) = A /\
            Forall (fun l => valid l = 0 /\ tag l = 0 /\ age l = 0)
                   (lines set))
         (set_arry c) /\
  hit_count c = 0 /\ miss_count c = 0 /\ evict_count c = 0 /\
  instr_count c = 0.
Proof.
  intros Hs HA c. unfold c, make_cache. cbn [set_arry hit_count miss_count
    evict_count instr_count].
  split; [|split; [|repeat split]].
  - rewrite length_replicate. apply make_cache_set_count, Hs.
  - apply Forall_replicate. unfold make_cache_set. cbn [lines]. split.
    + rewrite length_replicate. lia.
    + apply Forall_replicate. cbn. auto.
Qed.

Lemma make_cache_allocates_witness :
  Z.of_nat (length (set_arry (make_cache 3 2 4 0))) = 8 /\
  Forall (fun set =>
            Z.of_nat (length (lines set)) = 2 /\
            Forall (fun l => valid l = 0 /\ tag l = 0 /\ age l = 0)
                   (lines set))
         (set_arry (make_cache 3 2 4 0)) /\
  hit_count (make_cache 3 2 4 0) = 0 /\
  miss_count (make_cache 3 2 4 0) = 0 /\
  evict_count (make_cache 3 2 4 0) = 0 /\
  instr_count (make_cache 3 2 4 0) = 0.
Proof.
  apply (make_cache_allocates 3 2 4 0); lia.
Defined.

(** C5.  After [read_file] has processed all the records of a trace on a
    freshly made cache, [hit_count + miss_count] is the number of
    sub-references (two for a record whose operation is [M], one for any
    other), and so is [instr_count]; each [lookup] call adds exactly one to
    [instr_count] and to [hit_count + miss_count].  The run is one in which
    no counter leaves the range of [int]. *)
Theorem references_counted (s E b v : Z) (records : list (ascii * Z)) :
  geometry_ok s E b -> sub_references records <= int_max ->
  (exists w',
      read_file records {| mem := make_cache s E b v; stdout := [] |}
      = Some (tt, w') /\
      hit_count (mem w') + miss_count (mem w') = sub_references records /\
      instr_count (mem w') = sub_references records) /\
  (forall (w : world) (address : Z),
      cache_ok (mem w) -> counters_ok (mem w) ->
      instr_count (mem w) < int_max ->
      exists w',
        lookup address w = Some (tt, w') /\
        instr_count (mem w') = instr_count (mem w) + 1 /\
        hit_count (mem w') + miss_count (mem w')
        = hit_count (mem w) + miss_count (mem w) + 1).
Proof.
  intros Hg Hn. split.
  - destruct (read_file_run records
                {| mem := make_cache s E b v; stdout := [] |})
      as (w' & Hrun & _ & Hc & Hi).
    + apply make_cache_ok, Hg.
    + apply make_cache_counters.
    + cbn. exact Hn.
    + exists w'. split; [exact Hrun|]. cbn in Hi.
      split; [|exact Hi]. rewrite (ok_sum _ Hc). exact Hi.
  - intros w address Hok Hc Hlt.
    destruct (lookup_total address w Hok) as (w' & Hrun & Hstep).
    destruct (lookup_step_counters address w w' Hc Hlt Hstep)
      as (Hc' & Hi' & _).
    exists w'. split; [exact Hrun|]. split; [exact Hi'|].
    rewrite (ok_sum _ Hc'), (ok_sum _ Hc). exact Hi'.
Qed.

Lemma references_counted_witness :
  sub_references [("L"%char, 16); ("M"%char, 32); ("S"%char, 16)] = 4 /\
  exists w',
    read_file [("L"%char, 16); ("M"%char, 32); ("S"%char, 16)]
      {| mem := make_cache 1 2 2 0; stdout := [] |}
    = Some (tt, w') /\
    hit_count (mem w') + miss_count (mem w')
    = sub_references [("L"%char, 16); ("M"%char, 32); ("S"%char, 16)] /\
    instr_count (mem w')
    = sub_references [("L"%char, 16); ("M"%char, 32); ("S"%char, 16)].
Proof.
  split; [reflexivity|].
  refine (proj1 (references_counted 1 2 2 0
                   [("L"%char, 16); ("M"%char, 32); ("S"%char, 16)] _ _)).
  - unfold geometry_ok. lia.
  - vm_compute. discriminate.
Defined.

(** C9.  Validity is monotone.  Take a freshly made cache and any sequence
    of [lookup] calls, cut anywhere: a line that is valid after the first
    part is still there and valid after the second part.  No call sets a
    [valid] flag back to zero. *)
Theorem validity_monotone (s E b v : Z) (before after : list Z) :
  geometry_ok s E b ->
  exists w1 w2,
    lookups before {| mem := make_cache s E b v; stdout := [] |}
    = Some (tt, w1) /\
    lookups after w1 = Some (tt, w2) /\
    forall i j l,
      line_at (mem w1) i j = Some l -> valid l <> 0 ->
      exists l', line_at (mem w2) i j = Some l' /\ valid l' <> 0.
Proof.
  intros Hg.
  pose proof (make_cache_ok s E b v Hg) as Hok0.
  destruct (lookups_valid before
              {| mem := make_cache s E b v; stdout := [] |} Hok0)
    as (w1 & Hrun1 & Hok1 & _).
  destruct (lookups_valid after w1 Hok1) as (w2 & Hrun2 & _ & Hmono).
  exists w1, w2. auto.
Qed.

Lemma validity_monotone_witness :
  exists w1 w2,
    lookups [0; 1] {| mem := make_cache 0 2 0 0; stdout := [] |}
    = Some (tt, w1) /\
    lookups [2; 0] w1 = Some (tt, w2) /\
    forall i j l,
      line_at (mem w1) i j = Some l -> valid l <> 0 ->
      exists l', line_at (mem w2) i j = Some l' /\ valid l' <> 0.
Proof.
  apply (validity_monotone 0 2 0 0 [0; 1] [2; 0]).
  unfold geometry_ok. lia.
Defined.

(** C10.  A [lookup] call on a well-shaped cache changes at most one line,
    line [j] of the set the address maps to; every other line of every set
    reads as before, and so do the geometry fields.  On a hit [j] is the
    first matching line and only its [age] changes; on a miss [j] is the
    first invalid line in scan order, or, when the set has none, the first
    line of smallest [age]. *)
Theorem lookup_touches_one_line (address : Z) (w : world) :
  cache_ok (mem w) ->
  exists (w' : world) (set : cache_set_t) (j : Z) (l l' : cache_line_t),
    let i := set_for address (mem w) in
    let t := tag_for address (mem w) in
    lookup address w = Some (tt, w') /\
    index (set_arry (mem w)) i = Some set /\
    index (lines set) j = Some l /\
    line_at (mem w') i j = Some l' /\
    (forall i' j', (i', j') <> (i, j) ->
                   line_at (mem w') i' j' = line_at (mem w) i' j') /\
    same_geometry (mem w) (mem w') /\
    dirty l' = dirty l /\
    (first_at (line_matches t) (lines set) j l /\
     valid l' = valid l /\ tag l' = tag l
     \/
     Forall (fun x => ~ line_matches t x) (lines set) /\
     first_at line_invalid (lines set) j l
     \/
     Forall (fun x => ~ line_matches t x) (lines set) /\
     Forall (fun x => ~ line_invalid x) (lines set) /\
     oldest_at (lines set) j l).
Proof.
  intros Hok.
  destruct (lookup_total address w Hok) as (w' & Hrun & Hstep).
  pose proof (lookup_step_geometry address w w' Hstep) as Hgeo.
  destruct Hstep as [set j l Hset Hfirst|set j l Hset Hnone Hfirst
                    |set j l Hset Hnone Hvalid Hold].
  - pose proof (first_at_line_at (mem (count_instr w)) _ _ _ _ Hset Hfirst)
      as Hat.
    eexists _, set, j, l, _. cbn zeta.
    split; [exact Hrun|]. split; [exact Hset|]. split; [apply Hfirst|].
    split; [apply hit_world_line, Hat|].
    split; [intros i' j' Hne; apply (hit_world_frame _ _ _ _ Hat _ _ Hne)|].
    split; [exact Hgeo|]. split; [reflexivity|].
    left. split; [exact Hfirst|]. split; reflexivity.
  - pose proof (first_at_line_at (mem (count_instr w)) _ _ _ _ Hset Hfirst)
      as Hat.
    eexists _, set, j, l, _. cbn zeta.
    split; [exact Hrun|]. split; [exact Hset|]. split; [apply Hfirst|].
    split; [apply install_world_line, Hat|].
    split; [intros i' j' Hne;
            apply (install_world_frame _ _ _ _ _ Hat _ _ Hne)|].
    split; [exact Hgeo|]. split; [reflexivity|].
    right. left. split; [exact Hnone|exact Hfirst].
  - pose proof (oldest_at_line_at (mem (count_instr w)) _ _ _ _ Hset Hold)
      as Hat.
    eexists _, set, j, l, _. cbn zeta.
    split; [exact Hrun|]. split; [exact Hset|]. split; [apply Hold|].
    split; [apply evict_world_line, Hat|].
    split; [intros i' j' Hne;
            apply (evict_world_frame _ _ _ _ _ Hat _ _ Hne)|].
    split; [exact Hgeo|]. split; [reflexivity|].
    right. right. split; [exact Hnone|]. split; [exact Hvalid|exact Hold].
Qed.

Lemma lookup_touches_one_line_witness :
  exists (w' : world) (set : cache_set_t) (j : Z) (l l' : cache_line_t),
    let w := {| mem := make_cache 1 2 2 0; stdout := [] |} in
    let i := set_for 20 (mem w) in
    let t := tag_for 20 (mem w) in
    lookup 20 w = Some (tt, w') /\
    index (set_arry (mem w)) i = Some set /\
    index (lines set) j = Some l /\
    line_at (mem w') i j = Some l' /\
    (forall i' j', (i', j') <> (i, j) ->
                   line_at (mem w') i' j' = line_at (mem w) i' j') /\
    same_geometry (mem w) (mem w') /\
    dirty l' = dirty l /\
    (first_at (line_matches t) (lines set) j l /\
     valid l' = valid l /\ tag l' = tag l
     \/
     Forall (fun x => ~ line_matches t x) (lines set) /\
     first_at line_invalid (lines set) j l
     \/
     Forall (fun x => ~ line_matches t x) (lines set) /\
     Forall (fun x => ~ line_invalid x) (lines set) /\
     oldest_at (lines set) j l).
Proof.
  apply (lookup_touches_one_line 20
           {| mem := make_cache 1 2 2 0; stdout := [] |}).
  constructor; cbn.
  - unfold geometry_ok. lia.
  - reflexivity.
  - reflexivity.
  - reflexivity.
  - repeat constructor.
Defined.

(** C3.  [check_for_hit] scans the lines of the set in order.  If some line
    has [valid] set and its [tag] equal to the tag looked for (the [int]
    compared as an [unsigned long long]), the first such line gets
    [age = instr_count], [hit_count] grows by one, nothing else changes and
    the function returns 1.  If no line does, it returns 0 and changes
    nothing.  The counters are within the range of [int]. *)
Theorem check_for_hit_correct (w : world) (correct_set my_tag : Z)
    (set : cache_set_t) :
  index (set_arry (mem w)) correct_set = Some set ->
  length (lines set) = Z.to_nat (associativity (mem w)) ->
  0 <= hit_count (mem w) < int_max ->
  0 <= instr_count (mem w) <= int_max ->
  (Exists (line_matches my_tag) (lines set) ->
   exists j l w',
     first_at (line_matches my_tag) (lines set) j l /\
     check_for_hit correct_set my_tag w = Some (1, w') /\
     line_at (mem w') correct_set j
     = Some {| valid := valid l; dirty := dirty l; tag := tag l;
               age := instr_count (mem w) |} /\
     (forall i' j', (i', j') <> (correct_set, j) ->
                    line_at (mem w') i' j' = line_at (mem w) i' j') /\
     hit_count (mem w') = hit_count (mem w) + 1 /\
     miss_count (mem w') = miss_count (mem w) /\
     evict_count (mem w') = evict_count (mem w) /\
     instr_count (mem w') = instr_count (mem w)) /\
  (Forall (fun l => ~ line_matches my_tag l) (lines set) ->
   check_for_hit correct_set my_tag w = Some (0, w)).
Proof.
  intros Hset Hlen Hh Hi. split.
  - intros Hex.
    destruct (Exists_first_at (line_matches my_tag) (lines set))
      as (j & l & Hfirst); [intros x; unfold line_matches; apply _|exact Hex|].
    pose proof (first_at_line_at (mem w) _ _ _ _ Hset Hfirst) as Hat.
    exists j, l, (hit_world correct_set j l w).
    split; [exact Hfirst|].
    split; [exact (check_for_hit_hit w _ _ set Hset Hlen j l Hfirst)|].
    split.
    { rewrite (hit_world_line _ _ _ _ Hat). unfold set_age.
      rewrite uint_of_int_small by exact Hi. reflexivity. }
    split; [intros i' j' Hne; apply (hit_world_frame _ _ _ _ Hat _ _ Hne)|].
    unfold hit_world. simpl_cache.
    rewrite int_wrap_small by (unfold int_min, int_max in *; lia).
    repeat split.
  - exact (check_for_hit_none w _ _ set Hset Hlen).
Qed.

(** C1.  [miss] adds one to [miss_count].  If some line of the set has
    [valid = 0], the first such line in scan order becomes valid with the
    new tag (the [int] stored as an [unsigned long long]) and
    [age = instr_count], and [evict_count] stays.  Otherwise [evict_count]
    grows by one and the line overwritten, in [tag] and [age], is the one of
    smallest [age] in the set, the first in scan order among equals.  No
    other line changes.  The set has at least one line and the counters are
    within the range of [int]. *)
Theorem miss_correct (w : world) (correct_set my_tag : Z)
    (set : cache_set_t) :
  index (set_arry (mem w)) correct_set = Some set ->
  length (lines set) = Z.to_nat (associativity (mem w)) ->
  1 <= associativity (mem w) ->
  0 <= miss_count (mem w) < int_max ->
  0 <= evict_count (mem w) < int_max ->
  0 <= instr_count (mem w) <= int_max ->
  (Exists line_invalid (lines set) ->
   exists j l w',
     first_at line_invalid (lines set) j l /\
     miss correct_set my_tag w = Some (tt, w') /\
     miss_count (mem w') = miss_count (mem w) + 1 /\
     evict_count (mem w') = evict_count (mem w) /\
     line_at (mem w') correct_set j
     = Some {| valid := 1; dirty := dirty l; tag := ull_of_int my_tag;
               age := instr_count (mem w) |} /\
     (forall i' j', (i', j') <> (correct_set, j) ->
                    line_at (mem w') i' j' = line_at (mem w) i' j')) /\
  (Forall (fun l => ~ line_invalid l) (lines set) ->
   exists j l w',
     oldest_at (lines set) j l /\
     miss correct_set my_tag w = Some (tt, w') /\
     miss_count (mem w') = miss_count (mem w) + 1 /\
     evict_count (mem w') = evict_count (mem w) + 1 /\
     line_at (mem w') correct_set j
     = Some {| valid := valid l; dirty := dirty l; tag := ull_of_int my_tag;
               age := instr_count (mem w) |} /\
     (forall i' j', (i', j') <> (correct_set, j) ->
                    line_at (mem w') i' j' = line_at (mem w) i' j')).
Proof.
  intros Hset Hlen HE Hm He Hi. split.
  - intros Hex.
    destruct (Exists_first_at line_invalid (lines set))
      as (j & l & Hfirst); [intros x; unfold line_invalid; apply _|exact Hex|].
    pose proof (first_at_line_at (mem w) _ _ _ _ Hset Hfirst) as Hat.
    exists j, l, (install_world correct_set j my_tag l w).
    split; [exact Hfirst|].
    split; [exact (miss_install w _ _ set Hset Hlen j l Hfirst)|].
    split; [|split; [|split]].
    + unfold install_world. simpl_cache.
      apply int_wrap_small. unfold int_min, int_max in *. lia.
    + unfold install_world. simpl_cache. reflexivity.
    + rewrite (install_world_line _ _ _ _ _ Hat).
      rewrite uint_of_int_small by exact Hi. reflexivity.
    + intros i' j' Hne. apply (install_world_frame _ _ _ _ _ Hat _ _ Hne).
  - intros Hvalid.
    destruct (miss_evict w _ my_tag set Hset Hlen HE Hvalid)
      as (j & l & Hold & Hrun).
    pose proof (oldest_at_line_at (mem w) _ _ _ _ Hset Hold) as Hat.
    exists j, l, (evict_world correct_set j my_tag l w).
    split; [exact Hold|]. split; [exact Hrun|].
    split; [|split; [|split]].
    + unfold evict_world. simpl_cache.
      apply int_wrap_small. unfold int_min, int_max in *. lia.
    + unfold evict_world. simpl_cache.
      apply int_wrap_small. unfold int_min, int_max in *. lia.
    + rewrite (evict_world_line _ _ _ _ _ Hat).
      rewrite uint_of_int_small by exact Hi. reflexivity.
    + intros i' j' Hne. apply (evict_world_frame _ _ _ _ _ Hat _ _ Hne).
Qed.

Lemma check_for_hit_correct_witness :
  exists j l w',
    first_at (line_matches 1) (lines full_set) j l /\
    check_for_hit 0 1 full_set_world = Some (1, w') /\
    line_at (mem w') 0 j
    = Some {| valid := valid l; dirty := dirty l; tag := tag l; age := 3 |} /\
    (forall i' j', (i', j') <> (0, j) ->
                   line_at (mem w') i' j' = line_at (mem full_set_world) i' j') /\
    hit_count (mem w') = 1 /\ miss_count (mem w') = 2 /\
    evict_count (mem w') = 0 /\ instr_count (mem w') = 3.
Proof.
  destruct (check_for_hit_correct full_set_world 0 1 full_set) as [Hhit _].
  - reflexivity.
  - reflexivity.
  - cbn. unfold int_max. lia.
  - cbn. unfold int_max. lia.
  - apply Hhit. right. left. unfold line_matches. cbn. split; [reflexivity|lia].
Defined.

Lemma miss_correct_witness :
  exists j l w',
    oldest_at (lines full_set) j l /\
    miss 0 2 full_set_world = Some (tt, w') /\
    miss_count (mem w') = 3 /\ evict_count (mem w') = 1 /\
    line_at (mem w') 0 j
    = Some {| valid := valid l; dirty := dirty l; tag := ull_of_int 2;
              age := 3 |} /\
    (forall i' j', (i', j') <> (0, j) ->
                   line_at (mem w') i' j' = line_at (mem full_set_world) i' j').
Proof.
  destruct (miss_correct full_set_world 0 2 full_set) as [_ Hevict].
  - reflexivity.
  - reflexivity.
  - cbn. lia.
  - cbn. unfold int_max. lia.
  - cbn. unfold int_max. lia.
  - cbn. unfold int_max. lia.
  - apply Hevict. repeat constructor; unfold line_invalid; cbn; lia.
Defined.

(** C2 as the specification has it: the four references leave
    [hit_count = 0], [miss_count = 4] and [evict_count = 1].  The run ends
    with two evictions, so the statement fails. *)
Lemma scenario_one_eviction_counterexample :
  ~ (exists w',
        lookups [0; 1; 2; 0] {| mem := make_cache 0 2 0 0; stdout := [] |}
        = Some (tt, w') /\
        hit_count (mem w') = 0 /\ miss_count (mem w') = 4 /\
        evict_count (mem w') = 1).
Proof.
  intros (w' & Hrun & _ & _ & He).
  vm_compute in Hrun. injection Hrun as <-. discriminate He.
Qed.

(** C2, amended.  On the cache made with [set_bits = 0], [associativity = 2]
    and [block_bits = 0], with or without the verbose flag, the references
    0x0, 0x1, 0x2, 0x0 go as follows: the first and the second are misses
    that fill the two lines; the third is a miss that evicts the line holding
    0x0; the fourth is a miss too, and since the set is full it evicts the
    line holding 0x1.  The final counts are 0 hits, 4 misses and 2
    evictions. *)
Theorem scenario_two_evictions (verbose_flag : bool) :
  let w0 := {| mem := make_cache 0 2 0 (Z.b2z verbose_flag); stdout := [] |} in
  exists w1 w2 w3 w4,
    lookup 0 w0 = Some (tt, w1) /\
    lookup 1 w1 = Some (tt, w2) /\
    lookup 2 w2 = Some (tt, w3) /\
    lookup 0 w3 = Some (tt, w4) /\
    counters (mem w1) = (0, 1, 0) /\
    set_arry (mem w1)
    = [ {| lines := [ {| valid := 1; dirty := 0; tag := 0; age := 1 |};
                      {| valid := 0; dirty := 0; tag := 0; age := 0 |} ] |} ] /\
    counters (mem w2) = (0, 2, 0) /\
    set_arry (mem w2)
    = [ {| lines := [ {| valid := 1; dirty := 0; tag := 0; age := 1 |};
                      {| valid := 1; dirty := 0; tag := 1; age := 2 |} ] |} ] /\
    counters (mem w3) = (0, 3, 1) /\
    set_arry (mem w3)
    = [ {| lines := [ {| valid := 1; dirty := 0; tag := 2; age := 3 |};
                      {| valid := 1; dirty := 0; tag := 1; age := 2 |} ] |} ] /\
    counters (mem w4) = (0, 4, 2) /\
    set_arry (mem w4)
    = [ {| lines := [ {| valid := 1; dirty := 0; tag := 2; age := 3 |};
                      {| valid := 1; dirty := 0; tag := 0; age := 4 |} ] |} ] /\
    stdout w4
    = if verbose_flag
      then ["miss "; "miss "; "miss "; "eviction "; "miss "; "eviction "]%string
      else [].
Proof.
  destruct verbose_flag; cbn zeta; do 4 eexists.
  all: do 4 (split; [vm_compute; reflexivity|]).
  all: repeat (split; [vm_compute; reflexivity|]).
  all: vm_compute; reflexivity.
Qed.

(** A cache whose sets were built without a line: [check_for_hit] finds
    nothing, and [miss] hands [evict] the pointer [&lines[0]] to a line that
    is not there. *)
Lemma check_for_hit_no_lines (i my_tag : Z) (w : world) :
  associativity (mem w) <= 0 -> check_for_hit i my_tag w = Some (0, w).
Proof.
  intros HE. unfold check_for_hit, bind, get_cache.
  replace (Z.to_nat (associativity (mem w))) with 0%nat by lia.
  reflexivity.
Qed.

Lemma miss_no_lines (i my_tag : Z) (w : world) :
  associativity (mem w) <= 0 ->
  Forall (fun set => lines set = []) (set_arry (mem w)) ->
  miss i my_tag w = None.
Proof.
  intros HE Hempty. unfold miss, bind, modify_cache, get_cache.
  rewrite print_verbose. simpl_cache.
  replace (Z.to_nat (associativity (mem w))) with 0%nat by lia.
  cbn [miss_from]. unfold evict, bind, modify_cache, get_cache.
  rewrite print_verbose. simpl_cache.
  unfold update_line. simpl_cache.
  destruct (index (set_arry (mem w)) i) as [set|] eqn:Hset; [|reflexivity].
  apply index_Some in Hset as [_ Hset].
  rewrite (proj1 (Forall_lookup _ _) Hempty _ _ Hset). reflexivity.
Qed.

Lemma lookup_no_lines (address : Z) (w : world) :
  associativity (mem w) <= 0 ->
  Forall (fun set => lines set = []) (set_arry (mem w)) ->
  lookup address w = None.
Proof.
  intros HE Hempty.
  unfold lookup, bind at 1, modify_cache. fold (count_instr w).
  unfold bind at 1, get_cache. unfold bind.
  rewrite check_for_hit_no_lines by exact HE. cbn [Z.eqb].
  apply miss_no_lines; assumption.
Qed.

(** C7.  The specification has construction fail with a configuration error
    when the associativity is not positive or a bit count is negative, and
    no [lookup] run on such a cache.  [make_cache] and [main] hold no check
    of the geometry.  With [set_bits = -1] the process builds a cache of one
    set, passes the reference of the trace to [lookup], which counts a
    miss, and ends with status 0.  With associativity 0, the value [main]
    uses when [-E] is not given, the sets are built without a line, the
    reference is passed to [lookup] all the same, and the write of [evict]
    through [&lines[0]] is outside the array: the run is undefined. *)
Theorem bad_geometry_accepted :
  main 0 (-1) 1 1 (Some [("L"%char, 16)])
  = Some (0, Some {| hits := 0; misses := 1; evictions := 0 |}) /\
  set_arry (make_cache 1 0 1 0) = [ {| lines := [] |}; {| lines := [] |} ] /\
  lookup 16 {| mem := make_cache 1 0 1 0; stdout := [] |} = None /\
  main 0 1 0 1 (Some [("L"%char, 16)]) = None.
Proof.
  split; [vm_compute; reflexivity|].
  split; [vm_compute; reflexivity|].
  split; [|vm_compute; reflexivity].
  apply lookup_no_lines; cbn; [lia|].
  repeat constructor.
Qed.

(** * Further properties *)

(** ** One call of [lookup], seen from outside *)

(** What a [lookup] call does to the line it touches and to the counters,
    while the counters are within the range of [int]. *)
Lemma lookup_step_view (address : Z) (w w' : world) :
  counters_ok (mem w) -> instr_count (mem w) < int_max ->
  lookup_step address w w' ->
  exists (set : cache_set_t) (j : Z) (l l' : cache_line_t),
    index (set_arry (mem w)) (set_for address (mem w)) = Some set /\
    index (lines set) j = Some l /\
    line_at (mem w') (set_for address (mem w)) j = Some l' /\
    (forall i' j', (i', j') <> (set_for address (mem w), j) ->
                   line_at (mem w') i' j' = line_at (mem w) i' j') /\
    tag l' = ull_of_int (tag_for address (mem w)) /\
    valid l' <> 0 /\
    age l' = instr_count (mem w) + 1 /\
    instr_count (mem w') = instr_count (mem w) + 1 /\
    (line_matches (tag_for address (mem w)) l /\
     hit_count (mem w') = hit_count (mem w) + 1 /\
     miss_count (mem w') = miss_count (mem w) /\
     evict_count (mem w') = evict_count (mem w)
     \/
     Forall (fun x => ~ line_matches (tag_for address (mem w)) x)
            (lines set) /\
     line_invalid l /\
     hit_count (mem w') = hit_count (mem w) /\
     miss_count (mem w') = miss_count (mem w) + 1 /\
     evict_count (mem w') = evict_count (mem w)
     \/
     Forall (fun x => ~ line_matches (tag_for address (mem w)) x)
            (lines set) /\
     Forall (fun x => ~ line_invalid x) (lines set) /\
     oldest_at (lines set) j l /\
     hit_count (mem w') = hit_count (mem w) /\
     miss_count (mem w') = miss_count (mem w) + 1 /\
     evict_count (mem w') = evict_count (mem w) + 1).
Proof.
  intros [He Hh Hsum Hi] Hlt Hstep.
  assert (Hw : forall z, 0 <= z <= instr_count (mem w) ->
                         int_wrap (z + 1) = z + 1).
  { intros z Hz. apply int_wrap_small. unfold int_min, int_max in *. lia. }
  assert (Hu : uint_of_int (instr_count (mem w) + 1)
               = instr_count (mem w) + 1).
  { apply uint_of_int_small. lia. }
  destruct Hstep as [set j l Hset Hfirst|set j l Hset Hnone Hfirst
                    |set j l Hset Hnone Hvalid Hold].
  - pose proof (first_at_line_at (mem (count_instr w)) _ _ _ _ Hset Hfirst)
      as Hat.
    destruct Hfirst as (Hl & Hm & _).
    exists set, j, l, (set_age (uint_of_int (instr_count (mem (count_instr w)))) l).
    split; [exact Hset|]. split; [exact Hl|].
    split; [apply hit_world_line, Hat|].
    split; [intros i' j' Hne; apply (hit_world_frame _ _ _ _ Hat _ _ Hne)|].
    split; [apply Hm|]. split; [apply Hm|].
    unfold hit_world, count_instr. simpl_cache. cbn [age set_age].
    rewrite !Hw by lia.
    split; [exact Hu|]. split; [reflexivity|].
    left. auto.
  - pose proof (first_at_line_at (mem (count_instr w)) _ _ _ _ Hset Hfirst)
      as Hat.
    destruct Hfirst as (Hl & Hinv & _).
    eexists set, j, l, _.
    split; [exact Hset|]. split; [exact Hl|].
    split; [apply install_world_line, Hat|].
    split; [intros i' j' Hne;
            apply (install_world_frame _ _ _ _ _ Hat _ _ Hne)|].
    split; [reflexivity|]. split; [cbn; lia|].
    unfold install_world, count_instr. simpl_cache. cbn [age].
    rewrite !Hw by lia.
    split; [exact Hu|]. split; [reflexivity|].
    right. left. auto.
  - pose proof (oldest_at_line_at (mem (count_instr w)) _ _ _ _ Hset Hold)
      as Hat.
    pose proof Hold as (Hl & _).
    eexists set, j, l, _.
    split; [exact Hset|]. split; [exact Hl|].
    split; [apply evict_world_line, Hat|].
    split; [intros i' j' Hne;
            apply (evict_world_frame _ _ _ _ _ Hat _ _ Hne)|].
    split; [reflexivity|].
    split.
    { cbn. apply index_Some in Hl as [_ Hl].
      exact (proj1 (Forall_lookup _ _) Hvalid _ _ Hl). }
    unfold evict_world, count_instr. simpl_cache. cbn [age].
    rewrite !Hw by lia.
    split; [exact Hu|]. split; [reflexivity|].
    right. right. auto 10.
Qed.

(** The same, for the lines alone: it holds whatever the counters are. *)
Lemma lookup_step_lines (address : Z) (w w' : world) :
  lookup_step address w w' ->
  exists (set : cache_set_t) (j : Z) (l l' : cache_line_t),
    index (set_arry (mem w)) (set_for address (mem w)) = Some set /\
    index (lines set) j = Some l /\
    line_at (mem w') (set_for address (mem w)) j = Some l' /\
    (forall i' j', (i', j') <> (set_for address (mem w), j) ->
                   line_at (mem w') i' j' = line_at (mem w) i' j') /\
    line_matches (tag_for address (mem w)) l' /\
    (line_matches (tag_for address (mem w)) l
     \/
     Forall (fun x => ~ line_matches (tag_for address (mem w)) x)
            (lines set)).
Proof.
  intros Hstep.
  destruct Hstep as [set j l Hset Hfirst|set j l Hset Hnone Hfirst
                    |set j l Hset Hnone Hvalid Hold].
  - pose proof (first_at_line_at (mem (count_instr w)) _ _ _ _ Hset Hfirst)
      as Hat.
    destruct Hfirst as (Hl & Hm & _).
    eexists set, j, l, _.
    split; [exact Hset|]. split; [exact Hl|].
    split; [apply hit_world_line, Hat|].
    split; [intros i' j' Hne; apply (hit_world_frame _ _ _ _ Hat _ _ Hne)|].
    split; [exact Hm|]. left. exact Hm.
  - pose proof (first_at_line_at (mem (count_instr w)) _ _ _ _ Hset Hfirst)
      as Hat.
    destruct Hfirst as (Hl & Hinv & _).
    eexists set, j, l, _.
    split; [exact Hset|]. split; [exact Hl|].
    split; [apply install_world_line, Hat|].
    split; [intros i' j' Hne;
            apply (install_world_frame _ _ _ _ _ Hat _ _ Hne)|].
    split; [split; cbn; [reflexivity|lia]|]. right. exact Hnone.
  - pose proof (oldest_at_line_at (mem (count_instr w)) _ _ _ _ Hset Hold)
      as Hat.
    pose proof Hold as (Hl & _).
    eexists set, j, l, _.
    split; [exact Hset|]. split; [exact Hl|].
    split; [apply evict_world_line, Hat|].
    split; [intros i' j' Hne;
            apply (evict_world_frame _ _ _ _ _ Hat _ _ Hne)|].
    split; [|right; exact Hnone].
    split; cbn; [reflexivity|].
    apply index_Some in Hl as [_ Hl].
    exact (proj1 (Forall_lookup _ _) Hvalid _ _ Hl).
Qed.

Lemma decomposition_same_geometry (address : Z) (c c' : cache_t) :
  same_geometry c c' ->
  set_for address c' = set_for address c /\
  tag_for address c' = tag_for address c.
Proof.
  intros (Hs & _ & Hb & Hns & Hnb). unfold set_for, tag_for.
  rewrite Hs, Hb, Hns, Hnb. split; reflexivity.
Qed.

Lemma line_at_index (c : cache_t) (i j : Z) (set : cache_set_t)
    (l : cache_line_t) :
  index (set_arry c) i = Some set ->
  line_at c i j = Some l <-> index (lines set) j = Some l.
Proof. intros Hset. unfold line_at. rewrite Hset. reflexivity. Qed.

(** ** Invariants along a run *)

(** An invariant of the lines: kept by every call, it holds after any run. *)
Lemma lookups_invariant (P : list Z -> world -> Prop) :
  (forall h a w w',
      cache_ok (mem w) -> P h w -> lookup_step a w w' -> P (h ++ [a]) w') ->
  forall (addresses h : list Z) (w : world),
    cache_ok (mem w) -> P h w ->
    exists w',
      lookups addresses w = Some (tt, w') /\
      cache_ok (mem w') /\ P (h ++ addresses) w'.
Proof.
  intros Hkeep addresses.
  induction addresses as [|a rest IH]; intros h w Hok HP.
  - exists w. rewrite app_nil_r. auto.
  - destruct (lookup_total a w Hok) as (w1 & Hrun & Hstep).
    destruct (IH (h ++ [a]) w1) as (w' & Hrest & Hok' & HP').
    + exact (lookup_step_ok a w w1 Hok Hstep).
    + exact (Hkeep h a w w1 Hok HP Hstep).
    + exists w'. cbn [lookups]. unfold bind. rewrite Hrun.
      rewrite <- app_assoc in HP'. auto.
Qed.

(** An invariant that needs the counters: it holds after any run in which
    no counter leaves the range of [int]. *)
Lemma lookups_counted_invariant (P : list Z -> world -> Prop) :
  (forall h a w w',
      cache_ok (mem w) -> counters_ok (mem w) ->
      instr_count (mem w) < int_max ->
      P h w -> lookup_step a w w' -> P (h ++ [a]) w') ->
  forall (addresses h : list Z) (w : world),
    cache_ok (mem w) -> counters_ok (mem w) -> P h w ->
    instr_count (mem w) + Z.of_nat (length addresses) <= int_max ->
    exists w',
      lookups addresses w = Some (tt, w') /\
      cache_ok (mem w') /\ counters_ok (mem w') /\
      instr_count (mem w')
      = instr_count (mem w) + Z.of_nat (length addresses) /\
      P (h ++ addresses) w'.
Proof.
  intros Hkeep addresses.
  induction addresses as [|a rest IH]; intros h w Hok Hc HP Hn.
  - exists w. rewrite app_nil_r. cbn [length]. repeat split; auto; try apply Hok; try apply Hc. lia.
  - cbn [length] in Hn.
    destruct (lookup_total a w Hok) as (w1 & Hrun & Hstep).
    destruct (lookup_step_counters a w w1 Hc) as (Hc1 & Hi1 & _);
      [lia|exact Hstep|].
    destruct (IH (h ++ [a]) w1) as (w' & Hrest & Hok' & Hc' & Hi' & HP').
    + exact (lookup_step_ok a w w1 Hok Hstep).
    + exact Hc1.
    + apply (Hkeep h a w w1 Hok Hc); [lia|exact HP|exact Hstep].
    + lia.
    + exists w'. cbn [lookups]. unfold bind. rewrite Hrun.
      rewrite <- app_assoc in HP'.
      split; [exact Hrest|]. split; [exact Hok'|]. split; [exact Hc'|].
      split; [|exact HP']. cbn [length]. lia.
Qed.

Lemma same_geometry_refl (c : cache_t) : same_geometry c c.
Proof. unfold same_geometry. auto. Qed.

Lemma same_geometry_trans (c1 c2 c3 : cache_t) :
  same_geometry c1 c2 -> same_geometry c2 c3 -> same_geometry c1 c3.
Proof. unfold same_geometry. intuition congruence. Qed.

Lemma call_lookup_shape (a : Z) (op : ascii) (w : world) :
  cache_ok (mem w) ->
  exists w',
    call_lookup a op w = Some (tt, w') /\
    cache_ok (mem w') /\ same_geometry (mem w) (mem w').
Proof.
  intros Hok. unfold call_lookup, bind.
  destruct (lookup_total a w Hok) as (w1 & Hrun1 & Hstep1).
  pose proof (lookup_step_ok a w w1 Hok Hstep1) as Hok1.
  pose proof (lookup_step_geometry a w w1 Hstep1) as Hg1.
  rewrite Hrun1. destruct (Ascii.eqb op "M").
  - destruct (lookup_total a w1 Hok1) as (w2 & Hrun2 & Hstep2).
    rewrite Hrun2, print_verbose. eexists. split; [reflexivity|].
    split; [exact (lookup_step_ok a w1 w2 Hok1 Hstep2)|].
    exact (same_geometry_trans _ _ _ Hg1
             (lookup_step_geometry a w1 w2 Hstep2)).
  - unfold ret. rewrite print_verbose. eexists. split; [reflexivity|].
    split; [exact Hok1|exact Hg1].
Qed.

Lemma read_file_shape (records : list (ascii * Z)) :
  forall w : world,
    cache_ok (mem w) ->
    exists w',
      read_file records w = Some (tt, w') /\
      cache_ok (mem w') /\ same_geometry (mem w) (mem w').
Proof.
  induction records as [|[op a] rest IH]; intros w Hok.
  - exists w. split; [reflexivity|]. split; [exact Hok|].
    apply same_geometry_refl.
  - destruct (call_lookup_shape a op w Hok) as (w1 & Hrun & Hok1 & Hg1).
    destruct (IH w1 Hok1) as (w' & Hrest & Hok' & Hg').
    exists w'. cbn [read_file]. unfold bind. rewrite Hrun.
    split; [exact Hrest|]. split; [exact Hok'|].
    exact (same_geometry_trans _ _ _ Hg1 Hg').
Qed.

(** X1.  Memory safety.  On a cache made by [make_cache] from a geometry it
    can serve, [read_file] never reads or writes outside the array of sets
    or a set's array of lines, whatever the trace and however long: the run
    is defined, the arrays keep their sizes, and [set_for] maps every
    address, negative ones included, to an index inside [set_arry]. *)
Theorem read_file_stays_in_bounds (s E b v : Z)
    (records : list (ascii * Z)) :
  geometry_ok s E b ->
  exists w',
    read_file records {| mem := make_cache s E b v; stdout := [] |}
    = Some (tt, w') /\
    Z.of_nat (length (set_arry (mem w'))) = 2 ^ s /\
    Forall (fun set => Z.of_nat (length (lines set)) = E)
           (set_arry (mem w')) /\
    forall address : Z,
      0 <= set_for address (mem w')
        < Z.of_nat (length (set_arry (mem w'))).
Proof.
  intros Hg.
  destruct (read_file_shape records
              {| mem := make_cache s E b v; stdout := [] |}
              (make_cache_ok s E b v Hg)) as (w' & Hrun & Hok & Hgeo).
  exists w'. split; [exact Hrun|].
  destruct Hgeo as (Hs & HE & Hb & _). cbn in Hs, HE, Hb.
  split; [rewrite (ok_set_arry _ Hok), Hs; reflexivity|].
  split.
  - eapply Forall_impl; [exact (ok_lines _ Hok)|].
    intros set Hlen. cbn beta in Hlen. rewrite Hlen, HE.
    destruct Hg as (_ & _ & _ & HE1). lia.
  - intros address. rewrite (ok_set_arry _ Hok).
    apply set_for_range, cache_ok_fields, Hok.
Qed.

Lemma read_file_stays_in_bounds_witness :
  exists w',
    read_file [("L"%char, -16); ("M"%char, 1040)]
      {| mem := make_cache 2 2 4 0; stdout := [] |}
    = Some (tt, w') /\
    Z.of_nat (length (set_arry (mem w'))) = 2 ^ 2 /\
    Forall (fun set => Z.of_nat (length (lines set)) = 2)
           (set_arry (mem w')) /\
    forall address : Z,
      0 <= set_for address (mem w')
        < Z.of_nat (length (set_arry (mem w'))).
Proof.
  apply (read_file_stays_in_bounds 2 2 4 0
           [("L"%char, -16); ("M"%char, 1040)]).
  unfold geometry_ok. lia.
Defined.

(** X2.  Decomposition loses nothing of the block number.  With the masks
    fitting an [int], the block number [address >> block_bits] is
    [tag * 2 ^ set_bits + set], with the set index below [2 ^ set_bits]; so
    two addresses get the same set and the same tag exactly when they lie in
    the same block, and addresses of different blocks never share both. *)
Theorem block_number_recovered (address : Z) (c : cache_t) :
  geometry_fields_ok c ->
  Z.shiftr address (block_bits c)
  = tag_for address c * 2 ^ set_bits c + set_for address c /\
  0 <= set_for address c < 2 ^ set_bits c /\
  forall address' : Z,
    set_for address' c = set_for address c /\
    tag_for address' c = tag_for address c
    <-> Z.shiftr address' (block_bits c) = Z.shiftr address (block_bits c).
Proof.
  intros Hg. pose proof Hg as (Hs & Hb & Hsb & _).
  assert (Hpos : 0 < 2 ^ set_bits c) by (apply Z.pow_pos_nonneg; lia).
  assert (Hdec : forall a,
             Z.shiftr a (block_bits c)
             = tag_for a c * 2 ^ set_bits c + set_for a c).
  { intros a. rewrite set_for_eq, tag_for_eq by exact Hg.
    rewrite Z.land_ones by lia.
    rewrite (Z.add_comm (set_bits c)), <- Z.shiftr_shiftr by lia.
    rewrite (Z.shiftr_div_pow2 _ (set_bits c)) by lia.
    rewrite Z.mul_comm. apply Z.div_mod. lia. }
  split; [apply Hdec|]. split; [apply set_for_range, Hg|].
  intros a'. split.
  - intros [Hset Htag]. rewrite (Hdec a'), (Hdec address), Hset, Htag.
    reflexivity.
  - intros Hblock.
    rewrite !set_for_eq, !tag_for_eq by exact Hg.
    rewrite !(Z.add_comm (set_bits c)), <- !Z.shiftr_shiftr by lia.
    rewrite Hblock. split; reflexivity.
Qed.

Lemma block_number_recovered_witness :
  Z.shiftr 74565 3 = 582 * 2 ^ 4 + 8 /\
  (set_for 74567 (make_cache 4 2 3 0) = set_for 74565 (make_cache 4 2 3 0) /\
   tag_for 74567 (make_cache 4 2 3 0) = tag_for 74565 (make_cache 4 2 3 0)
   <-> Z.shiftr 74567 3 = Z.shiftr 74565 3).
Proof.
  destruct (block_number_recovered 74565 (make_cache 4 2 3 0))
    as (Hblock & _ & Hsame).
  - unfold geometry_fields_ok. cbn. repeat split; lia.
  - split; [exact Hblock|exact (Hsame 74567)].
Defined.

(** ** Tags held by a set *)

Lemma lookup_step_no_duplicates (address : Z) (w w' : world) :
  no_duplicate_tags (mem w) -> lookup_step address w w' ->
  no_duplicate_tags (mem w').
Proof.
  intros Hnodup Hstep.
  destruct (lookup_step_lines address w w' Hstep)
    as (set & j & l & l' & Hset & Hl & Hl' & Hframe & Hm' & Hold).
  set (i0 := set_for address (mem w)) in *.
  assert (Hclash : forall j2 l2,
             j2 <> j -> line_at (mem w) i0 j2 = Some l2 ->
             valid l2 <> 0 -> tag l2 = tag l' -> False).
  { intros j2 l2 Hne Hl2 Hv2 Ht2.
    assert (Hm2 : line_matches (tag_for address (mem w)) l2).
    { split; [|exact Hv2]. rewrite Ht2. apply Hm'. }
    destruct Hold as [Hm|Hnone].
    - apply Hne. symmetry.
      apply (Hnodup i0 j j2 l l2);
        [apply (line_at_index _ _ _ _ _ Hset), Hl|exact Hl2|apply Hm
        |exact Hv2|].
      destruct Hm as [Ht _]. destruct Hm2 as [Ht2' _]. congruence.
    - apply (line_at_index _ _ _ _ _ Hset) in Hl2.
      apply index_Some in Hl2 as [_ Hl2].
      exact (proj1 (Forall_lookup _ _) Hnone _ _ Hl2 Hm2). }
  intros i j1 j2 l1 l2 Hl1 Hl2 Hv1 Hv2 Ht.
  destruct (decide ((i, j1) = (i0, j))) as [H1|H1];
    destruct (decide ((i, j2) = (i0, j))) as [H2|H2].
  - congruence.
  - injection H1 as -> ->.
    rewrite Hframe in Hl2 by exact H2.
    assert (l1 = l') by congruence. subst l1.
    exfalso. apply (Hclash j2 l2); [congruence|exact Hl2|exact Hv2|].
    symmetry. exact Ht.
  - injection H2 as -> ->.
    rewrite Hframe in Hl1 by exact H1.
    assert (l2 = l') by congruence. subst l2.
    exfalso. apply (Hclash j1 l1); [congruence|exact Hl1|exact Hv1|exact Ht].
  - rewrite Hframe in Hl1 by exact H1. rewrite Hframe in Hl2 by exact H2.
    exact (Hnodup i j1 j2 l1 l2 Hl1 Hl2 Hv1 Hv2 Ht).
Qed.

Lemma make_cache_line_at (s E b v i j : Z) (l : cache_line_t) :
  line_at (make_cache s E b v) i j = Some l -> l = make_cache_line.
Proof.
  unfold line_at, make_cache. cbn [set_arry].
  destruct (index _ i) as [set|] eqn:Hset; [|discriminate].
  apply index_Some in Hset as [_ Hset].
  apply lookup_replicate in Hset as [-> _].
  intros [_ Hl]%index_Some. cbn in Hl.
  apply lookup_replicate in Hl as [-> _]. reflexivity.
Qed.

(** X3.  After any run of [lookup] calls on a freshly made cache, no set
    holds a tag twice: two valid lines of one set with the same tag are the
    same line.  So the scan of [check_for_hit] can find at most one line,
    and stopping at the first match loses nothing. *)
Theorem tags_never_duplicated (s E b v : Z) (addresses : list Z) :
  geometry_ok s E b ->
  exists w',
    lookups addresses {| mem := make_cache s E b v; stdout := [] |}
    = Some (tt, w') /\
    no_duplicate_tags (mem w').
Proof.
  intros Hg.
  destruct (lookups_invariant (fun _ w => no_duplicate_tags (mem w)))
    with (addresses := addresses) (h := @nil Z)
         (w := {| mem := make_cache s E b v; stdout := [] |})
    as (w' & Hrun & _ & Hnodup).
  - intros h a w w' _ Hnodup Hstep.
    exact (lookup_step_no_duplicates a w w' Hnodup Hstep).
  - apply make_cache_ok, Hg.
  - intros i j1 j2 l1 l2 Hl1 _ Hv1 _ _. exfalso.
    apply make_cache_line_at in Hl1. subst l1. apply Hv1. reflexivity.
  - exists w'. auto.
Qed.

Lemma tags_never_duplicated_witness :
  exists w',
    lookups [0; 16; 32; 0; 48; 16]
      {| mem := make_cache 1 2 3 0; stdout := [] |}
    = Some (tt, w') /\
    no_duplicate_tags (mem w').
Proof.
  apply (tags_never_duplicated 1 2 3 0 [0; 16; 32; 0; 48; 16]).
  unfold geometry_ok. lia.
Defined.

(** ** A reference right after itself *)

Lemma lookup_step_cached (address : Z) (w w' : world) :
  lookup_step address w w' -> cached (mem w') address.
Proof.
  intros Hstep.
  destruct (lookup_step_lines address w w' Hstep)
    as (set & j & l & l' & Hset & Hl & Hl' & Hframe & Hm' & Hold).
  unfold cached.
  destruct (decomposition_same_geometry address (mem w) (mem w')
              (lookup_step_geometry address w w' Hstep)) as [-> ->].
  exists j, l'. auto.
Qed.

(** A [lookup] of a cached address is a hit. *)
Lemma lookup_cached_hits (address : Z) (w : world) :
  cache_ok (mem w) -> counters_ok (mem w) ->
  instr_count (mem w) < int_max ->
  cached (mem w) address ->
  exists w',
    lookup address w = Some (tt, w') /\
    lookup_step address w w' /\
    hit_count (mem w') = hit_count (mem w) + 1 /\
    miss_count (mem w') = miss_count (mem w) /\
    evict_count (mem w') = evict_count (mem w).
Proof.
  intros Hok Hc Hlt (j0 & l0 & Hl0 & Hm0).
  destruct (lookup_total address w Hok) as (w' & Hrun & Hstep).
  exists w'. split; [exact Hrun|]. split; [exact Hstep|].
  destruct (lookup_step_view address w w' Hc Hlt Hstep)
    as (set & j & l & l' & Hset & _ & _ & _ & _ & _ & _ & _ & Hkind).
  assert (Hnot : ~ Forall (fun x => ~ line_matches (tag_for address (mem w)) x)
                     (lines set)).
  { intros Hnone.
    apply (line_at_index _ _ _ _ _ Hset) in Hl0.
    apply index_Some in Hl0 as [_ Hl0].
    exact (proj1 (Forall_lookup _ _) Hnone _ _ Hl0 Hm0). }
  destruct Hkind as [(_ & Hh)|[(Hnone & _)|(Hnone & _)]];
    [exact Hh|contradiction|contradiction].
Qed.

(** X4.  Whatever a [lookup] of an address finds, afterwards the block is
    cached, in a valid line of its set, and a [lookup] of the same address
    right after it is a hit: [hit_count] grows by one, [miss_count] and
    [evict_count] stay.  The counters are within the range of [int]. *)
Theorem lookup_again_hits (address : Z) (w : world) :
  cache_ok (mem w) -> counters_ok (mem w) ->
  instr_count (mem w) + 2 <= int_max ->
  exists w1 w2,
    lookup address w = Some (tt, w1) /\
    cached (mem w1) address /\
    lookup address w1 = Some (tt, w2) /\
    hit_count (mem w2) = hit_count (mem w1) + 1 /\
    miss_count (mem w2) = miss_count (mem w1) /\
    evict_count (mem w2) = evict_count (mem w1).
Proof.
  intros Hok Hc Hn.
  destruct (lookup_total address w Hok) as (w1 & Hrun1 & Hstep1).
  destruct (lookup_step_counters address w w1 Hc) as (Hc1 & Hi1 & _);
    [lia|exact Hstep1|].
  pose proof (lookup_step_cached address w w1 Hstep1) as Hcached.
  destruct (lookup_cached_hits address w1) as (w2 & Hrun2 & _ & Hcounts);
    [exact (lookup_step_ok address w w1 Hok Hstep1)|exact Hc1|lia
    |exact Hcached|].
  exists w1, w2. auto.
Qed.

Lemma lookup_again_hits_witness :
  exists w1 w2,
    lookup 40 {| mem := make_cache 1 2 3 0; stdout := [] |} = Some (tt, w1) /\
    cached (mem w1) 40 /\
    lookup 40 w1 = Some (tt, w2) /\
    hit_count (mem w2) = hit_count (mem w1) + 1 /\
    miss_count (mem w2) = miss_count (mem w1) /\
    evict_count (mem w2) = evict_count (mem w1).
Proof.
  apply (lookup_again_hits 40 {| mem := make_cache 1 2 3 0; stdout := [] |}).
  - constructor; cbn.
    + unfold geometry_ok. lia.
    + reflexivity.
    + reflexivity.
    + reflexivity.
    + repeat constructor.
  - constructor; cbn; unfold int_max; lia.
  - cbn. unfold int_max. lia.
Defined.

(** X5.  A modify record is looked up twice and its second [lookup] always
    hits: [call_lookup] with operation [M] counts at least one hit and at
    most one miss, two references in all, and leaves the block cached.  The
    counters are within the range of [int]. *)
Theorem modify_record_hits (address : Z) (w : world) :
  cache_ok (mem w) -> counters_ok (mem w) ->
  instr_count (mem w) + 2 <= int_max ->
  exists w',
    call_lookup address "M" w = Some (tt, w') /\
    instr_count (mem w') = instr_count (mem w) + 2 /\
    hit_count (mem w) + 1 <= hit_count (mem w') /\
    miss_count (mem w') <= miss_count (mem w) + 1 /\
    hit_count (mem w') + miss_count (mem w')
    = hit_count (mem w) + miss_count (mem w) + 2 /\
    cached (mem w') address.
Proof.
  intros Hok Hc Hn.
  destruct (lookup_total address w Hok) as (w1 & Hrun1 & Hstep1).
  destruct (lookup_step_counters address w w1 Hc) as (Hc1 & Hi1 & Hd1);
    [lia|exact Hstep1|].
  pose proof (lookup_step_cached address w w1 Hstep1) as Hcached.
  destruct (lookup_cached_hits address w1)
    as (w2 & Hrun2 & Hstep2 & Hh2 & Hm2 & He2);
    [exact (lookup_step_ok address w w1 Hok Hstep1)|exact Hc1|lia
    |exact Hcached|].
  destruct (lookup_step_counters address w1 w2 Hc1) as (Hc2 & Hi2 & _);
    [lia|exact Hstep2|].
  eexists. unfold call_lookup, bind. rewrite Hrun1, Ascii.eqb_refl.
  rewrite Hrun2, print_verbose. split; [reflexivity|]. cbn [mem].
  split; [lia|]. split; [lia|]. split; [lia|]. split; [lia|].
  exact (lookup_step_cached address w1 w2 Hstep2).
Qed.

Lemma modify_record_hits_witness :
  exists w',
    call_lookup 40 "M" {| mem := make_cache 1 2 3 0; stdout := [] |}
    = Some (tt, w') /\
    instr_count (mem w') = 0 + 2 /\
    0 + 1 <= hit_count (mem w') /\
    miss_count (mem w') <= 0 + 1 /\
    hit_count (mem w') + miss_count (mem w') = 0 + 0 + 2 /\
    cached (mem w') 40.
Proof.
  apply (modify_record_hits 40 {| mem := make_cache 1 2 3 0; stdout := [] |}).
  - constructor; cbn.
    + unfold geometry_ok. lia.
    + reflexivity.
    + reflexivity.
    + reflexivity.
    + repeat constructor.
  - constructor; cbn; unfold int_max; lia.
  - cbn. unfold int_max. lia.
Defined.

(** ** Evictions *)

(** C6.  After every sequence of [lookup] calls on a freshly made cache,
    [evict_count <= miss_count], and the cache is well shaped with its
    counters in step.  In any well-shaped cache in which every line of every
    set is valid, those reached by such sequences among them, a [lookup]
    leaves every line valid; it is a hit when the block is cached, and
    otherwise a miss that evicts: [miss_count] and [evict_count] both grow
    by one.  So over any further calls the two counts grow by the same
    amount, and every call is counted as a hit or as a miss.  The runs are
    ones in which no counter leaves the range of [int]. *)
Theorem evictions_at_most_misses (s E b v : Z) (addresses : list Z)
    (w : world) (address : Z) (more : list Z) :
  (geometry_ok s E b -> Z.of_nat (length addresses) <= int_max ->
   exists w',
     lookups addresses {| mem := make_cache s E b v; stdout := [] |}
     = Some (tt, w') /\
     cache_ok (mem w') /\ counters_ok (mem w') /\
     evict_count (mem w') <= miss_count (mem w'))
  /\
  (cache_ok (mem w) -> counters_ok (mem w) -> all_lines_valid (mem w) ->
   instr_count (mem w) + Z.of_nat (length (address :: more)) <= int_max ->
   exists w1 w2,
     lookup address w = Some (tt, w1) /\
     lookups more w1 = Some (tt, w2) /\
     all_lines_valid (mem w1) /\ all_lines_valid (mem w2) /\
     (cached (mem w) address ->
      hit_count (mem w1) = hit_count (mem w) + 1 /\
      miss_count (mem w1) = miss_count (mem w) /\
      evict_count (mem w1) = evict_count (mem w)) /\
     (~ cached (mem w) address ->
      hit_count (mem w1) = hit_count (mem w) /\
      miss_count (mem w1) = miss_count (mem w) + 1 /\
      evict_count (mem w1) = evict_count (mem w) + 1) /\
     evict_count (mem w2) - evict_count (mem w)
     = miss_count (mem w2) - miss_count (mem w) /\
     (hit_count (mem w2) - hit_count (mem w))
     + (miss_count (mem w2) - miss_count (mem w))
     = Z.of_nat (length (address :: more)) /\
     evict_count (mem w2) <= miss_count (mem w2)).
Proof.
  split.
  - intros Hg Hn.
    destruct (lookups_run addresses
                {| mem := make_cache s E b v; stdout := [] |})
      as (w' & Hrun & Hok & Hc & _).
    + apply make_cache_ok, Hg.
    + apply make_cache_counters.
    + cbn. exact Hn.
    + exists w'. split; [exact Hrun|]. split; [exact Hok|].
      split; [exact Hc|]. apply Hc.
  - intros Hok Hc Hall Hn.
    rewrite length_cons, Nat2Z.inj_succ in Hn.
    assert (Hlt : instr_count (mem w) < int_max) by lia.
    destruct (lookup_total address w Hok) as (w1 & H1 & Hstep).
    destruct (lookup_step_full address w w1 Hc Hlt Hall Hstep)
      as [Hall1 _].
    destruct (lookup_step_counters address w w1 Hc Hlt Hstep)
      as (Hc1 & Hi1 & _).
    pose proof (lookup_step_ok address w w1 Hok Hstep) as Hok1.
    destruct (lookups_full more w1 Hok1 Hc1 Hall1) as (w2 & H2 & Hall2 & Hd);
      [lia|].
    destruct (lookups_run more w1 Hok1 Hc1) as (w2' & H2' & _ & Hc2 & Hi2);
      [lia|].
    assert (w2' = w2) as -> by congruence.
    destruct (lookup_step_view address w w1 Hc Hlt Hstep)
      as (set & j & l & l' & Hset & Hl & _ & _ & _ & _ & _ & _ & Hcases).
    assert (Hmiss : ~ cached (mem w) address ->
                    hit_count (mem w1) = hit_count (mem w) /\
                    miss_count (mem w1) = miss_count (mem w) + 1 /\
                    evict_count (mem w1) = evict_count (mem w) + 1).
    { intros Hnot.
      destruct Hcases as [(Hm & _)|[(_ & Hinv & _)|(_ & _ & _ & Hcount)]].
      - exfalso. apply Hnot. exists j, l. split; [|exact Hm].
        apply (line_at_index _ _ _ set); assumption.
      - exfalso.
        exact (all_valid_line _ _ _ _ _ Hall Hset Hl Hinv).
      - exact Hcount. }
    assert (Hhit : cached (mem w) address ->
                   hit_count (mem w1) = hit_count (mem w) + 1 /\
                   miss_count (mem w1) = miss_count (mem w) /\
                   evict_count (mem w1) = evict_count (mem w)).
    { intros Hin.
      destruct (lookup_cached_hits address w Hok Hc Hlt Hin)
        as (w1' & H1' & _ & Hcount).
      assert (w1' = w1) as -> by congruence. exact Hcount. }
    exists w1, w2.
    split; [exact H1|]. split; [exact H2|].
    split; [exact Hall1|]. split; [exact Hall2|].
    split; [exact Hhit|]. split; [exact Hmiss|].
    destruct Hc as [He _ Hsum _], Hc1 as [He1 _ Hsum1 _],
             Hc2 as [He2 _ Hsum2 _].
    assert (Hone : evict_count (mem w1) - evict_count (mem w)
                   = miss_count (mem w1) - miss_count (mem w)).
    { destruct Hcases as [(Hm & ? & ? & ?)|[(_ & Hinv & _)|(_ & _ & _ & Hcount)]].
      - lia.
      - exfalso.
        exact (all_valid_line _ _ _ _ _ Hall Hset Hl Hinv).
      - lia. }
    rewrite length_cons, Nat2Z.inj_succ.
    split; [lia|]. split; [lia|]. lia.
Qed.

Lemma evictions_at_most_misses_witness :
  (exists w',
     lookups [0; 1; 2; 0] {| mem := make_cache 0 2 0 0; stdout := [] |}
     = Some (tt, w') /\
     evict_count (mem w') <= miss_count (mem w')) /\
  lookups [0; 1] {| mem := make_cache 0 2 0 0; stdout := [] |}
  = Some (tt, filled_world) /\
  all_lines_valid (mem filled_world) /\
  exists w1 w2,
    lookup 2 filled_world = Some (tt, w1) /\
    lookups [0] w1 = Some (tt, w2) /\
    miss_count (mem w1) = 3 /\ evict_count (mem w1) = 1 /\
    evict_count (mem w2) + 2 = miss_count (mem w2).
Proof.
  destruct (evictions_at_most_misses 0 2 0 0 [0; 1; 2; 0] filled_world 2 [0])
    as [Hrun Hfilled].
  assert (Hall : all_lines_valid (mem filled_world)).
  { repeat constructor; unfold line_invalid; cbn; discriminate. }
  split.
  { destruct Hrun as (w' & Hw' & _ & _ & Hle).
    - unfold geometry_ok. lia.
    - vm_compute. discriminate.
    - exists w'. split; [exact Hw'|exact Hle]. }
  split; [vm_compute; reflexivity|].
  split; [exact Hall|].
  destruct Hfilled
    as (w1 & w2 & H1 & H2 & _ & _ & _ & Hmiss & Hd & _).
  - constructor; cbn.
    + unfold geometry_ok. lia.
    + reflexivity.
    + reflexivity.
    + reflexivity.
    + repeat constructor.
  - constructor; cbn; unfold int_max; lia.
  - exact Hall.
  - vm_compute. discriminate.
  - exists w1, w2. split; [exact H1|]. split; [exact H2|].
    destruct Hmiss as (_ & Hm & He).
    { intros (j & l & Hat & Htag & _).
      assert (Hset : index (set_arry (mem filled_world))
                           (set_for 2 (mem filled_world)) = Some full_set)
        by (vm_compute; reflexivity).
      apply (proj1 (line_at_index _ _ j _ l Hset)) in Hat.
      apply index_Some in Hat as [_ Hat].
      apply list_elem_of_lookup_2 in Hat.
      vm_compute in Htag.
      cbn in Hat.
      apply elem_of_cons in Hat as [->|Hat]; [discriminate|].
      apply elem_of_cons in Hat as [->|Hat]; [discriminate|].
      inversion Hat. }
    cbn in Hm, He, Hd. lia.
Defined.

(** ** The verbose flag *)

Lemma erasable_ret {A : Type} (a : A) : erasable (ret a).
Proof. intros w. reflexivity. Qed.

Lemma erasable_bind {A B : Type} (m : M A) (k : A -> M B) :
  erasable m -> (forall a, erasable (k a)) -> erasable (bind m k).
Proof.
  intros Hm Hk w. unfold bind. rewrite Hm.
  destruct (m w) as [[a w']|]; [apply Hk|reflexivity].
Qed.

(** Reading the cache: what follows may use any field but the flag. *)
Lemma erasable_get_cache {A : Type} (k : cache_t -> M A) :
  (forall c, k (set_flag_v_set 0 c) = k c) ->
  (forall c, erasable (k c)) ->
  erasable (bind get_cache k).
Proof.
  intros Hflag Hk w. unfold bind, get_cache.
  change (mem (quiet w)) with (set_flag_v_set 0 (mem w)).
  rewrite Hflag. apply Hk.
Qed.

Lemma erasable_printf_if_verbose (s : string) :
  erasable (printf_if_verbose s).
Proof. intros w. rewrite !print_verbose. reflexivity. Qed.

Lemma erasable_load_line (i j : Z) : erasable (load_line i j).
Proof.
  intros w. unfold load_line. cbn [quiet mem set_flag_v_set set_arry].
  destruct (index (set_arry (mem w)) i) as [set|]; [|reflexivity].
  destruct (index (lines set) j); reflexivity.
Qed.

Lemma erasable_update_line (i j : Z) (f : cache_line_t -> cache_line_t) :
  erasable (update_line i j f).
Proof.
  intros w. unfold update_line. cbn [quiet mem set_flag_v_set set_arry].
  destruct (index (set_arry (mem w)) i) as [set|]; [|reflexivity].
  destruct (index (lines set) j); reflexivity.
Qed.

Lemma erasable_modify_cache (f : cache_t -> cache_t) :
  (forall c, f (set_flag_v_set 0 c) = set_flag_v_set 0 (f c)) ->
  erasable (modify_cache f).
Proof.
  intros Hf w. unfold modify_cache, quietly, quiet. cbn [mem stdout].
  rewrite Hf. reflexivity.
Qed.

Lemma erasable_check_for_hit_from (n : nat) :
  forall k i my_tag, erasable (check_for_hit_from n k i my_tag).
Proof.
  induction n as [|n IH]; intros k i my_tag; cbn [check_for_hit_from].
  - apply erasable_ret.
  - apply erasable_bind; [apply erasable_load_line|]. intros l.
    destruct ((tag l =? ull_of_int my_tag) && negb (valid l =? 0));
      [|apply IH].
    apply erasable_get_cache; [reflexivity|]. intros c.
    apply erasable_bind; [apply erasable_update_line|]. intros _.
    apply erasable_bind; [apply erasable_modify_cache; reflexivity|].
    intros _.
    apply erasable_bind; [apply erasable_printf_if_verbose|]. intros _.
    apply erasable_ret.
Qed.

Lemma erasable_evict (i o my_tag : Z) : erasable (evict i o my_tag).
Proof.
  unfold evict.
  apply erasable_bind; [apply erasable_modify_cache; reflexivity|].
  intros _.
  apply erasable_bind; [apply erasable_printf_if_verbose|]. intros _.
  apply erasable_get_cache; [reflexivity|]. intros c.
  apply erasable_update_line.
Qed.

Lemma erasable_miss_from (n : nat) :
  forall k o i my_tag, erasable (miss_from n k o i my_tag).
Proof.
  induction n as [|n IH]; intros k o i my_tag; cbn [miss_from].
  - apply erasable_evict.
  - apply erasable_bind; [apply erasable_load_line|]. intros l.
    apply erasable_bind; [apply erasable_load_line|]. intros lo.
    destruct (valid l =? 0); [|apply IH].
    apply erasable_get_cache; [reflexivity|]. intros c.
    apply erasable_update_line.
Qed.

Lemma erasable_lookup (address : Z) : erasable (lookup address).
Proof.
  unfold lookup.
  apply erasable_bind; [apply erasable_modify_cache; reflexivity|].
  intros _.
  apply erasable_get_cache; [reflexivity|]. intros c.
  apply erasable_bind.
  - unfold check_for_hit.
    apply erasable_get_cache; [reflexivity|]. intros c'.
    apply erasable_check_for_hit_from.
  - intros is_hit. destruct (is_hit =? 0); [|apply erasable_ret].
    unfold miss.
    apply erasable_bind; [apply erasable_modify_cache; reflexivity|].
    intros _.
    apply erasable_bind; [apply erasable_printf_if_verbose|]. intros _.
    apply erasable_get_cache; [reflexivity|]. intros c'.
    apply erasable_miss_from.
Qed.

Lemma erasable_call_lookup (a : Z) (op : ascii) : erasable (call_lookup a op).
Proof.
  unfold call_lookup.
  apply erasable_bind; [apply erasable_lookup|]. intros _.
  apply erasable_bind; [|intros _; apply erasable_printf_if_verbose].
  destruct (Ascii.eqb op "M"); [apply erasable_lookup|apply erasable_ret].
Qed.

Lemma erasable_read_file (records : list (ascii * Z)) :
  erasable (read_file records).
Proof.
  induction records as [|[op a] rest IH]; cbn [read_file].
  - apply erasable_ret.
  - apply erasable_bind; [apply erasable_call_lookup|]. intros _. exact IH.
Qed.

Lemma erasable_free_lines (set_n : Z) : erasable (free_lines set_n).
Proof.
  intros w. unfold free_lines. cbn [quiet mem set_flag_v_set set_arry].
  destruct (index (set_arry (mem w)) set_n); reflexivity.
Qed.

Lemma erasable_free_cache_from (n : nat) :
  forall set_n : Z, erasable (free_cache_from n set_n).
Proof.
  induction n as [|n IH]; intros set_n; cbn [free_cache_from];
    (apply erasable_get_cache; [intros c; reflexivity|]); intros c;
    destruct (set_n <=? num_sets c); try apply erasable_ret.
  - intros w. reflexivity.
  - apply erasable_bind; [apply erasable_free_lines|]. intros _. apply IH.
Qed.

Lemma erasable_free_cache : erasable free_cache.
Proof.
  unfold free_cache.
  apply erasable_get_cache; [intros c; reflexivity|]. intros c.
  apply erasable_bind; [apply erasable_free_cache_from|]. intros _.
  apply erasable_modify_cache. intros c'. reflexivity.
Qed.

(** The value an erasable computation returns is the one it returns in the
    quiet state. *)
Lemma erasable_value {A : Type} (m : M A) (w : world) :
  erasable m -> option_map fst (m (quiet w)) = option_map fst (m w).
Proof.
  intros Hm. rewrite Hm. destruct (m w) as [[a w']|]; reflexivity.
Qed.

(** X6.  The verbose flag changes what is printed and nothing else.  From
    any state, [read_file] in the quiet state (flag off, nothing printed)
    is defined exactly when it is in the given state and ends in the same
    heap, flag apart; so [main] ends with the same status and reports the
    same summary, or is undefined alike, with and without the flag,
    whether or not the trace file can be opened. *)
Theorem verbose_flag_is_inert (v s E b : Z) (records : list (ascii * Z)) :
  (forall w : world,
      read_file records (quiet w) = quietly (read_file records w)) /\
  (forall trace : option (list (ascii * Z)),
      main v s E b trace = main 0 s E b trace).
Proof.
  split; [exact (erasable_read_file records)|].
  intros trace.
  assert (Hfst : forall (m : M (Z * option summary)) (w : world),
             match m w with Some (r, _) => Some r | None => None end
             = option_map fst (m w)).
  { intros m w. destruct (m w) as [[r w']|]; reflexivity. }
  unfold main. cbn zeta. rewrite !Hfst.
  change {| mem := make_cache s E b 0; stdout := [] |}
    with (quiet {| mem := make_cache s E b v; stdout := [] |}).
  set (w0 := {| mem := make_cache s E b v; stdout := [] |}).
  destruct trace as [recs|]; cbn [open_file].
  - symmetry.
    apply (erasable_value
             (file <- ret (inr recs) ;;
              match file with
              | inl status => ret (status, None)
              | inr records0 =>
                  read_file records0 ;;
                  cache <- get_cache ;;
                  free_cache ;;
                  ret (0, Some {| hits := hit_count cache;
                                  misses := miss_count cache;
                                  evictions := evict_count cache |})
              end)).
    apply erasable_bind; [apply erasable_ret|]. intros [status|records0].
    + apply erasable_ret.
    + apply erasable_bind; [apply erasable_read_file|]. intros _.
      apply erasable_get_cache; [intros c; reflexivity|]. intros c.
      apply erasable_bind; [apply erasable_free_cache|]. intros _.
      apply erasable_ret.
  - unfold bind at 1 3. unfold bind at 1 3. unfold printf. cbn [mem stdout].
    unfold bind.
    pose proof (erasable_free_cache
                  {| mem := mem w0; stdout := stdout w0 ++ ["File can't be opened " ++ newline]%string |})
      as H1.
    pose proof (erasable_free_cache
                  {| mem := mem (quiet w0);
                     stdout := stdout (quiet w0) ++ ["File can't be opened " ++ newline]%string |})
      as H2.
    change (quiet {| mem := mem (quiet w0);
                     stdout := stdout (quiet w0) ++ ["File can't be opened " ++ newline]%string |})
      with (quiet {| mem := mem w0; stdout := stdout w0 ++ ["File can't be opened " ++ newline]%string |})
      in H2.
    rewrite H1 in H2.
    destruct (free_cache {| mem := mem w0; stdout := stdout w0 ++ ["File can't be opened " ++ newline]%string |})
      as [[[] w1]|];
      destruct (free_cache
                  {| mem := mem (quiet w0);
                     stdout := stdout (quiet w0) ++ ["File can't be opened " ++ newline]%string |})
        as [[[] w2]|]; cbn in H2; try discriminate; reflexivity.
Qed.

(** What one [lookup] prints, with what it counts. *)
Lemma lookup_step_output (address : Z) (w w' : world) :
  counters_ok (mem w) -> instr_count (mem w) < int_max ->
  lookup_step address w w' ->
  flag_v_set (mem w') = flag_v_set (mem w) /\
  (stdout w' = stdout w ++ verbose (mem w) "hit " /\
   hit_count (mem w') = hit_count (mem w) + 1 /\
   miss_count (mem w') = miss_count (mem w) /\
   evict_count (mem w') = evict_count (mem w)
   \/
   stdout w' = stdout w ++ verbose (mem w) "miss " /\
   hit_count (mem w') = hit_count (mem w) /\
   miss_count (mem w') = miss_count (mem w) + 1 /\
   evict_count (mem w') = evict_count (mem w)
   \/
   stdout w'
   = stdout w ++ verbose (mem w) "miss " ++ verbose (mem w) "eviction " /\
   hit_count (mem w') = hit_count (mem w) /\
   miss_count (mem w') = miss_count (mem w) + 1 /\
   evict_count (mem w') = evict_count (mem w) + 1).
Proof.
  intros [He Hh Hsum Hi] Hlt Hstep.
  assert (Hw : forall z, 0 <= z <= instr_count (mem w) ->
                         int_wrap (z + 1) = z + 1).
  { intros z Hz. apply int_wrap_small. unfold int_min, int_max in *. lia. }
  destruct Hstep; unfold hit_world, install_world, evict_world, count_instr;
    simpl_cache; rewrite ?Hw by lia; (split; [reflexivity|]).
  - left. auto.
  - right. left. auto.
  - right. right. auto.
Qed.

(** An invariant of the run of [read_file]: kept by every [lookup] and by
    the end of every record, it holds after the trace.  [n] counts the
    records that are done. *)
Lemma read_file_invariant (P : nat -> world -> Prop) :
  (forall n a w w',
      cache_ok (mem w) -> counters_ok (mem w) ->
      instr_count (mem w) < int_max ->
      P n w -> lookup_step a w w' -> P n w') ->
  (forall n w,
      P n w ->
      P (S n) {| mem := mem w;
                 stdout := stdout w ++ verbose (mem w) newline |}) ->
  forall (records : list (ascii * Z)) (n : nat) (w : world),
    cache_ok (mem w) -> counters_ok (mem w) -> P n w ->
    instr_count (mem w) + sub_references records <= int_max ->
    exists w',
      read_file records w = Some (tt, w') /\
      cache_ok (mem w') /\ counters_ok (mem w') /\
      P (n + length records)%nat w'.
Proof.
  intros Hlookup Hdone records.
  induction records as [|[op a] rest IH]; intros n w Hok Hc HP Hn.
  - exists w. rewrite Nat.add_0_r. split; [reflexivity|]. auto.
  - cbn [sub_references fold_right fst] in Hn.
    fold (sub_references rest) in Hn.
    pose proof (sub_references_nonneg rest) as Hrest.
    assert (Hone : forall w0, cache_ok (mem w0) -> counters_ok (mem w0) ->
               instr_count (mem w0) < int_max -> P n w0 ->
               exists w1, lookup a w0 = Some (tt, w1) /\
                          cache_ok (mem w1) /\ counters_ok (mem w1) /\
                          instr_count (mem w1) = instr_count (mem w0) + 1 /\
                          P n w1).
    { intros w0 Hok0 Hc0 Hlt0 HP0.
      destruct (lookup_total a w0 Hok0) as (w1 & Hrun1 & Hstep1).
      destruct (lookup_step_counters a w0 w1 Hc0 Hlt0 Hstep1)
        as (Hc1 & Hi1 & _).
      exists w1. split; [exact Hrun1|].
      split; [exact (lookup_step_ok a w0 w1 Hok0 Hstep1)|].
      split; [exact Hc1|]. split; [exact Hi1|].
      exact (Hlookup n a w0 w1 Hok0 Hc0 Hlt0 HP0 Hstep1). }
    assert (Hcall : exists w2,
               call_lookup a op w = Some (tt, w2) /\
               cache_ok (mem w2) /\ counters_ok (mem w2) /\
               instr_count (mem w2)
               = instr_count (mem w) + (if Ascii.eqb op "M" then 2 else 1) /\
               P (S n) w2).
    { unfold call_lookup, bind.
      destruct (Ascii.eqb op "M").
      - destruct (Hone w Hok Hc) as (w1 & Hrun1 & Hok1 & Hc1 & Hi1 & HP1);
          [lia|exact HP|].
        destruct (Hone w1 Hok1 Hc1) as (w2 & Hrun2 & Hok2 & Hc2 & Hi2 & HP2);
          [lia|exact HP1|].
        rewrite Hrun1, Hrun2, print_verbose.
        eexists. split; [reflexivity|]. cbn [mem].
        split; [exact Hok2|]. split; [exact Hc2|]. split; [lia|].
        apply Hdone, HP2.
      - destruct (Hone w Hok Hc) as (w1 & Hrun1 & Hok1 & Hc1 & Hi1 & HP1);
          [lia|exact HP|].
        rewrite Hrun1. unfold ret. rewrite print_verbose.
        eexists. split; [reflexivity|]. cbn [mem].
        split; [exact Hok1|]. split; [exact Hc1|]. split; [lia|].
        apply Hdone, HP1. }
    destruct Hcall as (w2 & Hrun2 & Hok2 & Hc2 & Hi2 & HP2).
    destruct (IH (S n) w2 Hok2 Hc2 HP2) as (w' & Hrun' & Hok' & Hc' & HP');
      [destruct (Ascii.eqb op "M"); lia|].
    exists w'. cbn [read_file]. unfold bind. rewrite Hrun2.
    split; [exact Hrun'|]. split; [exact Hok'|]. split; [exact Hc'|].
    cbn [length]. rewrite Nat.add_succ_r. exact HP'.
Qed.

Lemma printed_app (s : string) (out1 out2 : list string) :
  printed s (out1 ++ out2) = printed s out1 + printed s out2.
Proof. unfold printed. rewrite count_occ_app. lia. Qed.

(** X7.  The verbose output tells the counts.  After [read_file] on a
    freshly made cache with the verbose flag set, what [check_for_hit],
    [miss], [evict] and [call_lookup] have printed holds the string "hit "
    as often as [hit_count], "miss " as often as [miss_count], "eviction "
    as often as [evict_count], and one newline for each record; without
    the flag they print nothing.  The echo of each record by [read_file]
    is not part of the model.  The run is one in which no counter leaves
    the range of [int]. *)
Theorem verbose_output_counts (s E b v : Z) (records : list (ascii * Z)) :
  geometry_ok s E b -> sub_references records <= int_max ->
  exists w',
    read_file records {| mem := make_cache s E b v; stdout := [] |}
    = Some (tt, w') /\
    (v = 0 -> stdout w' = []) /\
    (v <> 0 ->
     printed "hit " (stdout w') = hit_count (mem w') /\
     printed "miss " (stdout w') = miss_count (mem w') /\
     printed "eviction " (stdout w') = evict_count (mem w') /\
     printed newline (stdout w') = Z.of_nat (length records)).
Proof.
  intros Hg Hn.
  set (P := fun (n : nat) (w : world) =>
              flag_v_set (mem w) = v /\
              (v = 0 -> stdout w = []) /\
              (v <> 0 ->
               printed "hit " (stdout w) = hit_count (mem w) /\
               printed "miss " (stdout w) = miss_count (mem w) /\
               printed "eviction " (stdout w) = evict_count (mem w) /\
               printed newline (stdout w) = Z.of_nat n)).
  destruct (read_file_invariant P) with (records := records) (n := 0%nat)
    (w := {| mem := make_cache s E b v; stdout := [] |})
    as (w' & Hrun & _ & _ & _ & Hquiet & Hloud).
  - intros n a w w' _ Hc Hlt (Hflag & Hquiet & Hloud) Hstep.
    destruct (lookup_step_output a w w' Hc Hlt Hstep) as (Hflag' & Hout).
    unfold P. split; [congruence|]. unfold verbose in Hout. split.
    + intros Hv. specialize (Hquiet Hv).
      assert (Hz : (flag_v_set (mem w) =? 0) = true)
        by (apply Z.eqb_eq; congruence).
      rewrite Hz, Hquiet in Hout.
      destruct Hout as [(-> & _)|[(-> & _)|(-> & _)]]; reflexivity.
    + intros Hv. destruct (Hloud Hv) as (H1 & H2 & H3 & H4).
      assert (Hz : (flag_v_set (mem w) =? 0) = false)
        by (apply Z.eqb_neq; congruence).
      rewrite Hz in Hout.
      destruct Hout as [(-> & -> & -> & ->)|[(-> & -> & -> & ->)
                       |(-> & -> & -> & ->)]];
        rewrite !printed_app, H1, H2, H3, H4;
        repeat split; vm_compute (printed _ [_]); lia.
  - intros n w (Hflag & Hquiet & Hloud). unfold P. cbn [mem stdout].
    split; [exact Hflag|]. unfold verbose. split.
    + intros Hv. rewrite (Hquiet Hv).
      assert (Hz : (flag_v_set (mem w) =? 0) = true)
        by (apply Z.eqb_eq; congruence).
      rewrite Hz. reflexivity.
    + intros Hv. destruct (Hloud Hv) as (H1 & H2 & H3 & H4).
      assert (Hz : (flag_v_set (mem w) =? 0) = false)
        by (apply Z.eqb_neq; congruence).
      rewrite Hz, !printed_app, H1, H2, H3, H4.
      repeat split; vm_compute (printed _ [_]); lia.
  - apply make_cache_ok, Hg.
  - apply make_cache_counters.
  - unfold P. cbn. repeat split; reflexivity.
  - cbn. exact Hn.
  - exists w'. auto.
Qed.

Lemma verbose_output_counts_witness :
  exists w',
    read_file [("L"%char, 16); ("M"%char, 32); ("S"%char, 16)]
      {| mem := make_cache 1 2 2 1; stdout := [] |}
    = Some (tt, w') /\
    (1 = 0 -> stdout w' = []) /\
    (1 <> 0 ->
     printed "hit " (stdout w') = hit_count (mem w') /\
     printed "miss " (stdout w') = miss_count (mem w') /\
     printed "eviction " (stdout w') = evict_count (mem w') /\
     printed newline (stdout w')
     = Z.of_nat (length [("L"%char, 16); ("M"%char, 32); ("S"%char, 16)])).
Proof.
  apply (verbose_output_counts 1 2 2 1
           [("L"%char, 16); ("M"%char, 32); ("S"%char, 16)]).
  - unfold geometry_ok. lia.
  - vm_compute. discriminate.
Defined.

(** ** Valid lines *)

Lemma valid_count_insert (ls : list cache_line_t) :
  forall (j : nat) (l l' : cache_line_t),
    ls !! j = Some l ->
    valid_count (<[j := l']> ls)
    = valid_count ls - (if valid l =? 0 then 0 else 1)
      + (if valid l' =? 0 then 0 else 1).
Proof.
  induction ls as [|x ls IH]; intros j l l' Hl; [discriminate|].
  destruct j as [|j].
  - cbn in Hl. injection Hl as ->.
    change (<[0%nat := l']> (l :: ls)) with (l' :: ls).
    cbn [valid_count]. lia.
  - cbn in Hl.
    change (<[S j := l']> (x :: ls)) with (x :: <[j := l']> ls).
    cbn [valid_count]. rewrite (IH j l l' Hl). lia.
Qed.

Lemma valid_sum_insert (sets : list cache_set_t) :
  forall (i : nat) (set set' : cache_set_t),
    sets !! i = Some set ->
    fold_right (fun s n => valid_count (lines s) + n) 0 (<[i := set']> sets)
    = fold_right (fun s n => valid_count (lines s) + n) 0 sets
      - valid_count (lines set) + valid_count (lines set').
Proof.
  induction sets as [|x sets IH]; intros i set set' Hset; [discriminate|].
  destruct i as [|i].
  - cbn in Hset. injection Hset as ->.
    change (<[0%nat := set']> (set :: sets)) with (set' :: sets).
    cbn [fold_right]. lia.
  - cbn in Hset.
    change (<[S i := set']> (x :: sets)) with (x :: <[i := set']> sets).
    cbn [fold_right]. rewrite (IH i set set' Hset). lia.
Qed.

Lemma valid_lines_write_line (c : cache_t) (i j : Z) (l l' : cache_line_t) :
  line_at c i j = Some l ->
  valid_lines (write_line i j l' c)
  = valid_lines c - (if valid l =? 0 then 0 else 1)
    + (if valid l' =? 0 then 0 else 1).
Proof.
  unfold line_at, write_line, valid_lines.
  destruct (index (set_arry c) i) as [set|] eqn:Hset; [|discriminate].
  intros Hl. cbn [set_arry set_set_arry].
  apply index_Some in Hset as [_ Hset]. apply index_Some in Hl as [_ Hl].
  rewrite (valid_sum_insert _ _ set _ Hset). cbn [lines].
  rewrite (valid_count_insert _ _ l l' Hl). lia.
Qed.

Lemma valid_count_bound (ls : list cache_line_t) :
  0 <= valid_count ls <= Z.of_nat (length ls).
Proof.
  induction ls as [|l ls IH]; cbn [valid_count length]; [lia|].
  destruct (valid l =? 0); lia.
Qed.

Lemma valid_sum_bound (E : Z) (sets : list cache_set_t) :
  0 <= E ->
  Forall (fun set => length (lines set) = Z.to_nat E) sets ->
  0 <= fold_right (fun s n => valid_count (lines s) + n) 0 sets
    <= E * Z.of_nat (length sets).
Proof.
  intros HE Hall. induction Hall as [|set sets Hlen _ IH];
    cbn [fold_right length]; [lia|].
  pose proof (valid_count_bound (lines set)) as Hb. rewrite Hlen in Hb.
  lia.
Qed.

Lemma lookup_step_valid_lines (address : Z) (w w' : world) :
  counters_ok (mem w) -> instr_count (mem w) < int_max ->
  miss_count (mem w) = evict_count (mem w) + valid_lines (mem w) ->
  lookup_step address w w' ->
  miss_count (mem w') = evict_count (mem w') + valid_lines (mem w').
Proof.
  intros [He Hh Hsum Hi] Hlt Hinv Hstep.
  assert (Hw : forall z, 0 <= z <= instr_count (mem w) ->
                         int_wrap (z + 1) = z + 1).
  { intros z Hz. apply int_wrap_small. unfold int_min, int_max in *. lia. }
  destruct Hstep as [set j l Hset Hfirst|set j l Hset Hnone Hfirst
                    |set j l Hset Hnone Hvalid Hold].
  - pose proof (first_at_line_at (mem (count_instr w)) _ _ _ _ Hset Hfirst)
      as Hat.
    unfold hit_world. cbn [mem].
    change (valid_lines (set_hit_count ?v ?c)) with (valid_lines c).
    rewrite (valid_lines_write_line _ _ _ l _ Hat).
    unfold count_instr. simpl_cache.
    change (valid_lines (set_instr_count ?v ?c)) with (valid_lines c).
    cbn [valid set_age]. lia.
  - pose proof (first_at_line_at (mem (count_instr w)) _ _ _ _ Hset Hfirst)
      as Hat.
    destruct Hfirst as (_ & Hinv0 & _). unfold line_invalid in Hinv0.
    unfold install_world. cbn [mem].
    rewrite (valid_lines_write_line _ _ _ l) by exact Hat.
    unfold count_instr. simpl_cache.
    change (valid_lines (set_miss_count ?v1 (set_instr_count ?v2 ?c)))
      with (valid_lines c).
    cbn [valid]. rewrite Hinv0, Hw by lia. cbn [Z.eqb]. lia.
  - pose proof (oldest_at_line_at (mem (count_instr w)) _ _ _ _ Hset Hold)
      as Hat.
    unfold evict_world. cbn [mem].
    rewrite (valid_lines_write_line _ _ _ l) by exact Hat.
    unfold count_instr. simpl_cache.
    change (valid_lines
              (set_evict_count ?v1
                 (set_miss_count ?v2 (set_instr_count ?v3 ?c))))
      with (valid_lines c).
    cbn [valid]. rewrite !Hw by lia. lia.
Qed.

Lemma valid_lines_make_cache (s E b v : Z) :
  valid_lines (make_cache s E b v) = 0.
Proof.
  unfold valid_lines, make_cache. cbn [set_arry].
  assert (Hset : valid_count (lines (make_cache_set E)) = 0).
  { unfold make_cache_set. cbn [lines].
    induction (Z.to_nat E) as [|m IH]; [reflexivity|].
    cbn [replicate valid_count]. rewrite IH. reflexivity. }
  induction (Z.to_nat (int_wrap (pow2_minus_1 s + 1))) as [|n IH];
    [reflexivity|].
  cbn [replicate fold_right]. rewrite IH, Hset. reflexivity.
Qed.

Lemma valid_lines_run (s E b v : Z) (addresses : list Z) :
  geometry_ok s E b -> Z.of_nat (length addresses) <= int_max ->
  exists w',
    lookups addresses {| mem := make_cache s E b v; stdout := [] |}
    = Some (tt, w') /\
    counters_ok (mem w') /\
    instr_count (mem w') = Z.of_nat (length addresses) /\
    miss_count (mem w') = evict_count (mem w') + valid_lines (mem w') /\
    0 <= valid_lines (mem w') <= E * 2 ^ s.
Proof.
  intros Hg Hn.
  destruct (lookups_counted_invariant
              (fun _ w =>
                 miss_count (mem w) = evict_count (mem w) + valid_lines (mem w)
                 /\ same_geometry (make_cache s E b v) (mem w)))
    with (addresses := addresses) (h := @nil Z)
         (w := {| mem := make_cache s E b v; stdout := [] |})
    as (w' & Hrun & Hok & Hc & Hi & Hinv & Hgeo).
  - intros h a w w' _ Hc Hlt [Hinv Hgeo] Hstep. split.
    + exact (lookup_step_valid_lines a w w' Hc Hlt Hinv Hstep).
    + exact (same_geometry_trans _ _ _ Hgeo
               (lookup_step_geometry a w w' Hstep)).
  - apply make_cache_ok, Hg.
  - apply make_cache_counters.
  - split; [|apply same_geometry_refl].
    cbn [mem]. rewrite valid_lines_make_cache. reflexivity.
  - cbn. exact Hn.
  - exists w'. split; [exact Hrun|]. split; [exact Hc|].
    split; [exact Hi|]. split; [exact Hinv|].
    destruct Hgeo as (Hs & HE & _). cbn in Hs, HE.
    rewrite <- HE, <- Hs, <- (ok_set_arry _ Hok).
    apply valid_sum_bound; [|exact (ok_lines _ Hok)].
    destruct (ok_geometry _ Hok) as (_ & _ & _ & HE1). lia.
Qed.

(** X8.  Every miss fills an empty line or evicts a block.  After any run
    of [lookup] calls on a freshly made cache, [miss_count] is
    [evict_count] plus the number of valid lines in the cache; as the cache
    has [associativity * 2 ^ set_bits] lines, no more than that many misses
    go without an eviction.  The run is one in which no counter leaves the
    range of [int]. *)
Theorem misses_fill_or_evict (s E b v : Z) (addresses : list Z) :
  geometry_ok s E b -> Z.of_nat (length addresses) <= int_max ->
  exists w',
    lookups addresses {| mem := make_cache s E b v; stdout := [] |}
    = Some (tt, w') /\
    miss_count (mem w') = evict_count (mem w') + valid_lines (mem w') /\
    0 <= valid_lines (mem w') <= E * 2 ^ s /\
    miss_count (mem w') - E * 2 ^ s <= evict_count (mem w').
Proof.
  intros Hg Hn.
  destruct (valid_lines_run s E b v addresses Hg Hn)
    as (w' & Hrun & _ & _ & Hinv & Hbound).
  exists w'. split; [exact Hrun|]. split; [exact Hinv|].
  split; [exact Hbound|]. lia.
Qed.

Lemma misses_fill_or_evict_witness :
  exists w',
    lookups [0; 16; 32; 0; 48; 16]
      {| mem := make_cache 1 2 3 0; stdout := [] |}
    = Some (tt, w') /\
    miss_count (mem w') = evict_count (mem w') + valid_lines (mem w') /\
    0 <= valid_lines (mem w') <= 2 * 2 ^ 1 /\
    miss_count (mem w') - 2 * 2 ^ 1 <= evict_count (mem w').
Proof.
  apply (misses_fill_or_evict 1 2 3 0 [0; 16; 32; 0; 48; 16]).
  - unfold geometry_ok. lia.
  - vm_compute. discriminate.
Defined.

(** ** Least recently used *)

Section LastUse.
Variable c0 : cache_t.

Lemma last_use_snoc (h : list Z) (a i t : Z) :
  last_use c0 (h ++ [a]) i t
  = if (set_for a c0 =? i) && (block_tag c0 a =? t)
    then Z.of_nat (length h) + 1
    else last_use c0 h i t.
Proof.
  unfold last_use. rewrite rev_unit. cbn [last_use_rev length].
  rewrite length_rev. destruct (_ && _); [lia|reflexivity].
Qed.

Lemma last_use_bound (h : list Z) (i t : Z) :
  0 <= last_use c0 h i t <= Z.of_nat (length h).
Proof.
  induction h as [|a h IH] using rev_ind; [cbn; lia|].
  rewrite last_use_snoc, length_app. cbn [length].
  destruct (_ && _); lia.
Qed.

(** A last use is a reference of the run. *)
Lemma last_use_lookup (h : list Z) (i t : Z) :
  last_use c0 h i t <> 0 ->
  exists a,
    h !! Z.to_nat (last_use c0 h i t - 1) = Some a /\
    set_for a c0 = i /\ block_tag c0 a = t.
Proof.
  induction h as [|a h IH] using rev_ind; [cbn; lia|].
  rewrite last_use_snoc.
  destruct ((set_for a c0 =? i) && (block_tag c0 a =? t)) eqn:Hm.
  - intros _. exists a.
    apply andb_true_iff in Hm as [Hi%Z.eqb_eq Ht%Z.eqb_eq].
    split; [|auto].
    replace (Z.to_nat (Z.of_nat (length h) + 1 - 1)) with (length h) by lia.
    apply list_lookup_middle. reflexivity.
  - intros Hne. destruct (IH Hne) as (a' & Ha' & Hi & Ht).
    exists a'. split; [|auto].
    apply lookup_app_l_Some. exact Ha'.
Qed.

(** No reference of the run to the tag comes after its last use. *)
Lemma last_use_latest (h : list Z) (i t : Z) (k : nat) (a : Z) :
  h !! k = Some a -> set_for a c0 = i -> block_tag c0 a = t ->
  Z.of_nat k + 1 <= last_use c0 h i t.
Proof.
  revert k. induction h as [|x h IH] using rev_ind; intros k Hk Hi Ht;
    [discriminate|].
  rewrite last_use_snoc.
  pose proof (lookup_lt_Some _ _ _ Hk) as Hlt.
  rewrite length_app in Hlt. cbn [length] in Hlt.
  destruct ((set_for x c0 =? i) && (block_tag c0 x =? t)) eqn:Hm; [lia|].
  destruct (decide (k = length h)) as [->|Hne].
  - rewrite list_lookup_middle in Hk by reflexivity. injection Hk as ->.
    rewrite Hi, Ht, !Z.eqb_refl in Hm. discriminate.
  - rewrite lookup_app_l in Hk by lia. exact (IH k Hk Hi Ht).
Qed.

(** Two tags of one set are not last used at the same time. *)
Lemma last_use_inj (h : list Z) (i t1 t2 : Z) :
  last_use c0 h i t1 <> 0 ->
  last_use c0 h i t1 = last_use c0 h i t2 -> t1 = t2.
Proof.
  intros Hne Heq.
  destruct (last_use_lookup h i t1 Hne) as (a1 & Ha1 & _ & Ht1).
  destruct (last_use_lookup h i t2) as (a2 & Ha2 & _ & Ht2); [congruence|].
  rewrite Heq in Ha1. congruence.
Qed.
End LastUse.

Lemma lru_inv_step (c0 : cache_t) (h : list Z) (a : Z) (w w' : world) :
  counters_ok (mem w) -> instr_count (mem w) < int_max ->
  lru_inv c0 h w -> lookup_step a w w' -> lru_inv c0 (h ++ [a]) w'.
Proof.
  intros Hc Hlt [Hgeo Htime Hnodup Hage Hgone] Hstep.
  destruct (lookup_step_view a w w' Hc Hlt Hstep)
    as (set & j0 & l0 & l' & Hset & Hl0 & Hl' & Hframe & Htag' & Hvalid'
        & Hage' & Hinstr' & Hkind).
  destruct (decomposition_same_geometry a c0 (mem w) Hgeo) as [Hsf Htf].
  rewrite Hsf in Hset, Hl', Hframe. rewrite Htf in Htag', Hkind.
  fold (block_tag c0 a) in Htag'.
  set (i0 := set_for a c0) in *. set (t0 := block_tag c0 a) in *.
  assert (Hold0 : line_at (mem w) i0 j0 = Some l0)
    by (apply (line_at_index _ _ _ _ _ Hset); exact Hl0).
  assert (Hin : forall j l, line_at (mem w) i0 j = Some l ->
                            lines set !! Z.to_nat j = Some l).
  { intros j l Hl. apply (line_at_index _ _ _ _ _ Hset) in Hl.
    apply index_Some in Hl. apply Hl. }
  assert (Hclash : forall j l,
             j <> j0 -> line_at (mem w) i0 j = Some l -> valid l <> 0 ->
             tag l <> t0).
  { intros j l Hne Hl Hv Ht.
    assert (Hm : line_matches (tag_for a c0) l) by (split; assumption).
    destruct Hkind as [(Hm0 & _)|[(Hnone & _)|(Hnone & _)]].
    - apply Hne.
      apply (Hnodup i0 j j0 l l0 Hl Hold0 Hv); [apply Hm0|].
      destruct Hm0 as [Ht0 _]. rewrite Ht. symmetry. exact Ht0.
    - exact (proj1 (Forall_lookup _ _) Hnone _ _ (Hin j l Hl) Hm).
    - exact (proj1 (Forall_lookup _ _) Hnone _ _ (Hin j l Hl) Hm). }
  assert (Hnow : forall i t,
             last_use c0 (h ++ [a]) i t
             = if (i0 =? i) && (t0 =? t) then instr_count (mem w) + 1
               else last_use c0 h i t).
  { intros i t. rewrite last_use_snoc, Htime. reflexivity. }
  constructor.
  - exact (same_geometry_trans _ _ _ Hgeo (lookup_step_geometry a w w' Hstep)).
  - rewrite Hinstr', Htime, length_app. cbn [length]. lia.
  - exact (lookup_step_no_duplicates a w w' Hnodup Hstep).
  - intros i j l Hl Hv. rewrite Hnow.
    destruct (decide ((i, j) = (i0, j0))) as [Heq|Hne].
    + injection Heq as -> ->.
      assert (l = l') by congruence. subst l.
      rewrite Htag', !Z.eqb_refl. cbn [andb].
      destruct Hc as [He Hh Hsum _]. lia.
    + rewrite Hframe in Hl by exact Hne.
      destruct ((i0 =? i) && (t0 =? tag l)) eqn:Hm; [|exact (Hage i j l Hl Hv)].
      apply andb_true_iff in Hm as [Hi%Z.eqb_eq Ht%Z.eqb_eq]. subst i.
      exfalso. apply (Hclash j l); [congruence|exact Hl|exact Hv|auto].
  - intros i t. rewrite Hnow.
    pose proof (last_use_bound c0 h i t) as Hbound. rewrite <- Htime in Hbound.
    destruct ((i0 =? i) && (t0 =? t)) eqn:Hm.
    { intros _. apply andb_true_iff in Hm as [Hi%Z.eqb_eq Ht%Z.eqb_eq].
      subst i t. left. exists j0, l'. auto. }
    intros Hused.
    destruct (Hgone i t Hused) as [(j & l & Hl & Hv & Ht)|Hall].
    + destruct (decide ((i, j) = (i0, j0))) as [Heq|Hne].
      * injection Heq as -> ->.
        assert (l = l0) by congruence. subst l.
        rewrite Z.eqb_refl in Hm. cbn [andb] in Hm.
        apply Z.eqb_neq in Hm.
        destruct Hkind as [(Hm0 & _)|[(_ & Hinv & _)|(_ & Hvalid & Hold & _)]].
        -- exfalso. apply Hm. destruct Hm0 as [Ht0 _].
           rewrite <- Ht. symmetry. exact Ht0.
        -- exfalso. exact (Hv Hinv).
        -- right. intros j2 l2 Hl2.
           destruct (decide (j2 = j0)) as [->|Hj].
           ++ assert (l2 = l') by congruence. subst l2.
              split; [exact Hvalid'|]. lia.
           ++ rewrite Hframe in Hl2 by congruence.
              pose proof (Hin j2 l2 Hl2) as Hin2.
              assert (Hv2 : valid l2 <> 0)
                by exact (proj1 (Forall_lookup _ _) Hvalid _ _ Hin2).
              split; [exact Hv2|].
              destruct (Hage i0 j0 l0 Hold0 Hv) as [Ha0 Hpos0].
              destruct (Hage i0 j2 l2 Hl2 Hv2) as [Ha2 _].
              destruct Hold as (_ & Hle & _).
              assert (Hle2 : age l0 <= age l2).
              { apply (Hle j2). apply (line_at_index _ _ _ _ _ Hset).
                exact Hl2. }
              rewrite <- Ht, <- Ha0.
              destruct (Z.eq_dec (age l0) (age l2)) as [Heq|Hneq]; [|lia].
              exfalso. apply Hj. symmetry.
              apply (Hnodup i0 j0 j2 l0 l2 Hold0 Hl2 Hv Hv2).
              apply (last_use_inj c0 h i0); [lia|congruence].
      * left. exists j, l. rewrite Hframe by exact Hne. auto.
    + right. intros j2 l2 Hl2.
      destruct (decide ((i, j2) = (i0, j0))) as [Heq|Hne].
      * injection Heq as -> ->.
        assert (l2 = l') by congruence. subst l2.
        split; [exact Hvalid'|]. lia.
      * rewrite Hframe in Hl2 by exact Hne. exact (Hall j2 l2 Hl2).
Qed.

Lemma lru_inv_fresh (s E b v : Z) :
  lru_inv (make_cache s E b v) []
          {| mem := make_cache s E b v; stdout := [] |}.
Proof.
  constructor.
  - apply same_geometry_refl.
  - reflexivity.
  - intros i j1 j2 l1 l2 Hl1 _ Hv1 _ _. exfalso.
    apply make_cache_line_at in Hl1. subst l1. apply Hv1. reflexivity.
  - intros i j l Hl Hv. exfalso.
    apply make_cache_line_at in Hl. subst l. apply Hv. reflexivity.
  - intros i t Hused. exfalso. apply Hused. reflexivity.
Qed.

Lemma lru_inv_run (s E b v : Z) (addresses : list Z) :
  geometry_ok s E b -> Z.of_nat (length addresses) <= int_max ->
  exists w',
    lookups addresses {| mem := make_cache s E b v; stdout := [] |}
    = Some (tt, w') /\
    cache_ok (mem w') /\ counters_ok (mem w') /\
    lru_inv (make_cache s E b v) addresses w'.
Proof.
  intros Hg Hn.
  destruct (lookups_counted_invariant (lru_inv (make_cache s E b v)))
    with (addresses := addresses) (h := @nil Z)
         (w := {| mem := make_cache s E b v; stdout := [] |})
    as (w' & Hrun & Hok & Hc & _ & Hinv).
  - intros h a w w' _ Hc Hlt Hinv Hstep.
    exact (lru_inv_step _ h a w w' Hc Hlt Hinv Hstep).
  - apply make_cache_ok, Hg.
  - apply make_cache_counters.
  - apply lru_inv_fresh.
  - cbn. exact Hn.
  - exists w'. auto.
Qed.

(** X9.  Replacement is least recently used.  Take any run of [lookup]
    calls on a freshly made cache and an address the run referenced.  At
    the end its block is cached, or else every line of its set is valid and
    holds a block that the run referenced later than that reference: a
    block is only ever pushed out by blocks used after it.  The run is one
    in which no counter leaves the range of [int]. *)
Theorem evicted_blocks_are_oldest (s E b v : Z) (addresses : list Z) :
  geometry_ok s E b -> Z.of_nat (length addresses) <= int_max ->
  exists w',
    lookups addresses {| mem := make_cache s E b v; stdout := [] |}
    = Some (tt, w') /\
    forall (k : nat) (a : Z),
      addresses !! k = Some a ->
      cached (mem w') a
      \/
      forall j l,
        line_at (mem w') (set_for a (mem w')) j = Some l ->
        valid l <> 0 /\
        exists (k' : nat) (a' : Z),
          (k < k')%nat /\ addresses !! k' = Some a' /\
          set_for a' (mem w') = set_for a (mem w') /\
          line_matches (tag_for a' (mem w')) l.
Proof.
  intros Hg Hn.
  destruct (lru_inv_run s E b v addresses Hg Hn)
    as (w' & Hrun & _ & _ & [Hgeo _ _ Hage Hgone]).
  exists w'. split; [exact Hrun|]. intros k a Hk.
  set (c0 := make_cache s E b v) in *.
  assert (Hdec : forall x, set_for x (mem w') = set_for x c0 /\
                           tag_for x (mem w') = tag_for x c0).
  { intros x. exact (decomposition_same_geometry x c0 (mem w') Hgeo). }
  destruct (Hdec a) as [Hsa Hta].
  pose proof (last_use_latest c0 addresses _ _ k a Hk eq_refl eq_refl)
    as Hlast.
  destruct (Hgone (set_for a c0) (block_tag c0 a)) as [(j & l & Hl & Hv & Ht)|Hall];
    [lia| |].
  - left. exists j, l. rewrite Hsa, Hta. split; [exact Hl|].
    split; [exact Ht|exact Hv].
  - right. intros j l Hl. rewrite Hsa in Hl.
    destruct (Hall j l Hl) as [Hv Hnewer]. split; [exact Hv|].
    destruct (Hage _ j l Hl Hv) as [Ha _].
    destruct (last_use_lookup c0 addresses (set_for a c0) (tag l))
      as (a' & Ha' & Hs' & Ht'); [lia|].
    exists (Z.to_nat (last_use c0 addresses (set_for a c0) (tag l) - 1)), a'.
    destruct (Hdec a') as [Hsa' Hta'].
    split; [lia|]. split; [exact Ha'|]. split; [congruence|].
    rewrite Hta'. split; [symmetry; exact Ht'|exact Hv].
Qed.

Lemma evicted_blocks_are_oldest_witness :
  exists w',
    lookups [0; 1; 2; 0] {| mem := make_cache 0 2 0 0; stdout := [] |}
    = Some (tt, w') /\
    forall (k : nat) (a : Z),
      [0; 1; 2; 0] !! k = Some a ->
      cached (mem w') a
      \/
      forall j l,
        line_at (mem w') (set_for a (mem w')) j = Some l ->
        valid l <> 0 /\
        exists (k' : nat) (a' : Z),
          (k < k')%nat /\ [0; 1; 2; 0] !! k' = Some a' /\
          set_for a' (mem w') = set_for a (mem w') /\
          line_matches (tag_for a' (mem w')) l.
Proof.
  apply (evicted_blocks_are_oldest 0 2 0 0 [0; 1; 2; 0]).
  - unfold geometry_ok. lia.
  - vm_compute. discriminate.
Defined.

(** ** Counting different blocks *)

Lemma distinct_at_least {A : Type} `{EqDecision A} (picked l : list A) :
  NoDup picked -> (forall x, x ∈ picked -> x ∈ l) ->
  Z.of_nat (length picked) <= distinct l.
Proof.
  intros Hnodup Hsub. unfold distinct.
  apply inj_le, submseteq_length, NoDup_submseteq; [exact Hnodup|].
  intros x Hx. apply elem_of_remove_dups, Hsub, Hx.
Qed.

Lemma distinct_at_most {A : Type} `{EqDecision A} (l bound : list A) :
  (forall x, x ∈ l -> x ∈ bound) ->
  distinct l <= Z.of_nat (length bound).
Proof.
  intros Hsub. unfold distinct.
  apply inj_le, submseteq_length, NoDup_submseteq;
    [apply NoDup_remove_dups|].
  intros x Hx. apply Hsub, elem_of_remove_dups, Hx.
Qed.

Section TagsUsed.
Variable c0 : cache_t.

Lemma tags_used_snoc (h : list Z) (a i : Z) :
  tags_used c0 (h ++ [a]) i
  = tags_used c0 h i
    ++ (if set_for a c0 =? i then [block_tag c0 a] else []).
Proof.
  unfold tags_used. rewrite List.filter_app, map_app. cbn [List.filter].
  destruct (set_for a c0 =? i); reflexivity.
Qed.

Lemma tags_used_elem (h : list Z) (i t : Z) :
  t ∈ tags_used c0 h i
  <-> exists a, a ∈ h /\ set_for a c0 = i /\ block_tag c0 a = t.
Proof.
  unfold tags_used. rewrite list_elem_of_In, in_map_iff. split.
  - intros (a & Ht & [Ha Hi%Z.eqb_eq]%filter_In).
    exists a. rewrite list_elem_of_In. auto.
  - intros (a & Ha%list_elem_of_In & Hi & Ht). exists a.
    split; [exact Ht|]. apply filter_In. split; [exact Ha|].
    apply Z.eqb_eq, Hi.
Qed.

(** A tag has a last use exactly when the run referenced it. *)
Lemma last_use_used (h : list Z) (i t : Z) :
  last_use c0 h i t <> 0 <-> t ∈ tags_used c0 h i.
Proof.
  induction h as [|a h IH] using rev_ind.
  - cbn. split; [lia|]. intros Hin. inversion Hin.
  - rewrite last_use_snoc, tags_used_snoc, elem_of_app, <- IH.
    destruct (Z.eqb_spec (set_for a c0) i) as [Hi|Hi]; cbn [andb].
    + destruct (Z.eqb_spec (block_tag c0 a) t) as [Ht|Ht].
      * split; [|lia]. intros _. right. rewrite Ht. constructor.
      * split; [auto|]. intros [Hu|Hin]; [exact Hu|].
        apply list_elem_of_singleton in Hin. congruence.
    + split; [auto|]. intros [Hu|Hin]; [exact Hu|]. inversion Hin.
Qed.

(** The last use in a run made of two parts. *)
Lemma last_use_app (h1 h2 : list Z) (i t : Z) :
  last_use c0 (h1 ++ h2) i t
  = if last_use c0 h2 i t =? 0 then last_use c0 h1 i t
    else Z.of_nat (length h1) + last_use c0 h2 i t.
Proof.
  induction h2 as [|a h2 IH] using rev_ind.
  - rewrite app_nil_r. reflexivity.
  - rewrite app_assoc, !last_use_snoc, IH, length_app.
    pose proof (last_use_bound c0 h2 i t) as Hb.
    destruct ((set_for a c0 =? i) && (block_tag c0 a =? t)).
    + destruct (Z.eqb_spec (Z.of_nat (length h2) + 1) 0); lia.
    + reflexivity.
Qed.
End TagsUsed.

(** The tags of a set whose lines are all valid are all different. *)
Lemma full_set_tags_nodup (c : cache_t) (i : Z) (set : cache_set_t) :
  no_duplicate_tags c -> index (set_arry c) i = Some set ->
  (forall j l, line_at c i j = Some l -> valid l <> 0) ->
  NoDup (tag <$> lines set).
Proof.
  intros Hnodup Hset Hvalid. apply NoDup_alt. intros j1 j2 x H1 H2.
  rewrite list_lookup_fmap in H1, H2.
  apply fmap_Some in H1 as (l1 & H1 & ->).
  apply fmap_Some in H2 as (l2 & H2 & Ht).
  assert (Hat : forall (j : nat) l, lines set !! j = Some l ->
                                    line_at c i (Z.of_nat j) = Some l).
  { intros j l Hl. apply (line_at_index _ _ _ _ _ Hset).
    apply index_Some. split; [lia|]. rewrite Nat2Z.id. exact Hl. }
  apply Nat2Z.inj.
  apply (Hnodup i _ _ l1 l2 (Hat _ _ H1) (Hat _ _ H2));
    [exact (Hvalid _ _ (Hat _ _ H1))|exact (Hvalid _ _ (Hat _ _ H2))|exact Ht].
Qed.

(** X10.  When a block is still cached.  Take a run of [lookup] calls on a
    freshly made cache that references an address and then goes on without
    another reference to its block.  At the end the block is cached exactly
    when the references that followed went to fewer than [associativity]
    different blocks of its set.  The run is one in which no counter leaves
    the range of [int]. *)
Theorem cached_iff_few_blocks_since (s E b v : Z) (before since : list Z)
    (a : Z) :
  let c0 := make_cache s E b v in
  geometry_ok s E b ->
  Z.of_nat (length (before ++ a :: since)) <= int_max ->
  Forall (fun x => ~ (set_for x c0 = set_for a c0 /\
                      block_tag c0 x = block_tag c0 a)) since ->
  exists w',
    lookups (before ++ a :: since) {| mem := c0; stdout := [] |}
    = Some (tt, w') /\
    (cached (mem w') a
     <-> distinct (tags_used c0 since (set_for a c0)) < E).
Proof.
  intros c0 Hg Hn Hother.
  destruct (lru_inv_run s E b v (before ++ a :: since) Hg Hn)
    as (w' & Hrun & Hok & _ & [Hgeo _ Hnodup Hage Hgone]).
  fold c0 in Hgeo, Hage, Hgone, Hrun.
  exists w'. split; [exact Hrun|].
  destruct (decomposition_same_geometry a c0 (mem w') Hgeo) as [Hsa Hta].
  set (i := set_for a c0) in *. set (t := block_tag c0 a) in *.
  set (h := before ++ a :: since) in *.
  set (n := Z.of_nat (length before)).
  assert (Hh : h = (before ++ [a]) ++ since)
    by (unfold h; rewrite <- app_assoc; reflexivity).
  assert (Hfirst : forall t', last_use c0 (before ++ [a]) i t' <= n + 1).
  { intros t'. pose proof (last_use_bound c0 (before ++ [a]) i t') as Hb.
    rewrite length_app in Hb. cbn [length] in Hb. lia. }
  assert (Hlast : forall t',
             last_use c0 h i t'
             = if last_use c0 since i t' =? 0
               then last_use c0 (before ++ [a]) i t'
               else n + 1 + last_use c0 since i t').
  { intros t'. rewrite Hh, last_use_app, length_app. cbn [length].
    destruct (_ =? 0); [reflexivity|lia]. }
  assert (Hnot : ~ t ∈ tags_used c0 since i).
  { intros (x & Hx & Hsx & Htx)%tags_used_elem.
    exact (proj1 (Forall_forall _ _) Hother x Hx (conj Hsx Htx)). }
  assert (Hta_last : last_use c0 h i t = n + 1).
  { rewrite Hlast.
    destruct (Z.eqb_spec (last_use c0 since i t) 0) as [_|Hne].
    - rewrite last_use_snoc. unfold i, t. rewrite !Z.eqb_refl. reflexivity.
    - exfalso. apply Hnot, last_use_used, Hne. }
  assert (Hlater : forall t', t' ∈ tags_used c0 since i
                              <-> n + 1 < last_use c0 h i t').
  { intros t'. rewrite <- last_use_used, Hlast.
    pose proof (last_use_bound c0 since i t') as Hb.
    pose proof (Hfirst t') as Hf.
    destruct (Z.eqb_spec (last_use c0 since i t') 0); lia. }
  destruct (cache_ok_set (mem w') a Hok) as (set & Hset & Hlen).
  rewrite Hsa in Hset.
  assert (HE : associativity (mem w') = E) by apply Hgeo.
  rewrite HE in Hlen.
  assert (HEpos : 1 <= E) by apply Hg.
  split.
  - (* cached: the other lines hold all the blocks referenced since *)
    intros (ja & la & Hla & Hta' & Hva). rewrite Hsa in Hla.
    rewrite Hta in Hta'. fold (block_tag c0 a) in Hta'. fold t in Hta'.
    destruct (Hage i ja la Hla Hva) as [Hage_a _].
    rewrite Hta', Hta_last in Hage_a.
    pose proof (proj1 (line_at_index _ _ _ _ _ Hset) Hla) as Hia.
    apply index_Some in Hia as [Hja Hia].
    assert (Hbound : distinct (tags_used c0 since i)
                     <= Z.of_nat (length (tag <$> delete (Z.to_nat ja)
                                                         (lines set)))).
    { apply distinct_at_most. intros t' Ht'.
      assert (Hne : t' <> t) by (intros ->; exact (Hnot Ht')).
      apply Hlater in Ht'.
      destruct (Hgone i t') as [(j' & l' & Hl' & Hv' & Htl')|Hall]; [lia| |].
      - pose proof (proj1 (line_at_index _ _ _ _ _ Hset) Hl') as Hi'.
        apply index_Some in Hi' as [Hj' Hi'].
        assert (Hjj : Z.to_nat j' <> Z.to_nat ja).
        { intros Heq. rewrite Heq, Hia in Hi'. injection Hi' as <-.
          congruence. }
        apply list_elem_of_fmap. exists l'. split; [auto|].
        destruct (le_lt_dec (Z.to_nat ja) (Z.to_nat j')) as [Hle|Hlt].
        + apply (list_elem_of_lookup_2 _ (Z.to_nat j' - 1)).
          rewrite list_lookup_delete_ge by lia.
          replace (S (Z.to_nat j' - 1)) with (Z.to_nat j') by lia.
          exact Hi'.
        + apply (list_elem_of_lookup_2 _ (Z.to_nat j')).
          rewrite list_lookup_delete_lt by lia. exact Hi'.
      - destruct (Hall ja la Hla) as [_ Hnewer]. lia. }
    rewrite length_fmap, length_delete in Hbound by (exists la; exact Hia).
    lia.
  - (* not cached: the set is full of blocks referenced since *)
    intros Hfew.
    destruct (Hgone i t) as [(j & l & Hl & Hv & Ht)|Hall]; [lia| |].
    + exists j, l. rewrite Hsa, Hta. split; [exact Hl|].
      split; [exact Ht|exact Hv].
    + exfalso.
      assert (Hmany : Z.of_nat (length (tag <$> lines set))
                      <= distinct (tags_used c0 since i)).
      { apply distinct_at_least.
        - apply (full_set_tags_nodup (mem w') i set Hnodup Hset).
          intros j l Hl. apply (Hall j l Hl).
        - intros t' (l & -> & Hin)%list_elem_of_fmap.
          apply list_elem_of_lookup in Hin as (j & Hj).
          assert (Hl : line_at (mem w') i (Z.of_nat j) = Some l).
          { apply (line_at_index _ _ _ _ _ Hset), index_Some.
            split; [lia|]. rewrite Nat2Z.id. exact Hj. }
          destruct (Hall _ l Hl) as [Hv Hnewer].
          destruct (Hage i _ l Hl Hv) as [Hal _].
          apply Hlater. lia. }
      rewrite length_fmap, Hlen in Hmany. lia.
Qed.

Lemma cached_iff_few_blocks_since_witness :
  exists w',
    lookups ([0] ++ 1 :: [2; 2]) {| mem := make_cache 0 2 0 0; stdout := [] |}
    = Some (tt, w') /\
    (cached (mem w') 1
     <-> distinct (tags_used (make_cache 0 2 0 0) [2; 2]
                     (set_for 1 (make_cache 0 2 0 0))) < 2).
Proof.
  apply (cached_iff_few_blocks_since 0 2 0 0 [0] [2; 2] 1).
  - unfold geometry_ok. lia.
  - vm_compute. discriminate.
  - repeat constructor; intros [_ H]; vm_compute in H; discriminate.
Defined.

(** ** A working set that fits *)

Lemma distinct_mono {A : Type} `{EqDecision A} (l l' : list A) :
  (forall x, x ∈ l -> x ∈ l') -> distinct l <= distinct l'.
Proof.
  intros Hsub.
  apply (distinct_at_least (remove_dups l) l'); [apply NoDup_remove_dups|].
  intros x Hx. apply Hsub, elem_of_remove_dups, Hx.
Qed.

Lemma distinct_snoc_old {A : Type} `{EqDecision A} (l : list A) (x : A) :
  x ∈ l -> distinct (l ++ [x]) = distinct l.
Proof.
  intros Hx. apply Z.le_antisymm; apply distinct_mono; intros y Hy.
  - apply elem_of_app in Hy as [Hy|Hy]; [exact Hy|].
    apply list_elem_of_singleton in Hy. subst y. exact Hx.
  - apply elem_of_app. left. exact Hy.
Qed.

Lemma distinct_snoc_new {A : Type} `{EqDecision A} (l : list A) (x : A) :
  ~ x ∈ l -> distinct (l ++ [x]) = distinct l + 1.
Proof.
  intros Hx. apply Z.le_antisymm.
  - etransitivity;
      [apply (distinct_at_most (l ++ [x]) (x :: remove_dups l))|].
    + intros y Hy. apply elem_of_app in Hy as [Hy|Hy].
      * right. apply elem_of_remove_dups, Hy.
      * apply list_elem_of_singleton in Hy. subst y. left.
    + unfold distinct. cbn [length]. lia.
  - etransitivity;
      [|apply (distinct_at_least (x :: remove_dups l) (l ++ [x]))].
    + unfold distinct. cbn [length]. lia.
    + constructor; [|apply NoDup_remove_dups].
      intros Hin. apply Hx, elem_of_remove_dups, Hin.
    + intros y Hy. apply elem_of_app.
      apply elem_of_cons in Hy as [->|Hy].
      * right. constructor.
      * left. apply elem_of_remove_dups, Hy.
Qed.

Lemma blocks_used_elem (c0 : cache_t) (h : list Z) (i t : Z) :
  (i, t) ∈ blocks_used c0 h <-> t ∈ tags_used c0 h i.
Proof.
  rewrite tags_used_elem. unfold blocks_used.
  change (map ?f h) with (f <$> h). rewrite list_elem_of_fmap. split.
  - intros (a & Heq & Ha). injection Heq as -> ->. exists a. auto.
  - intros (a & Ha & <- & <-). exists a. auto.
Qed.

(** A set full of valid lines, none holding [t], has seen more different
    tags than it has lines once [t] is counted. *)
Lemma full_set_overflows (c0 : cache_t) (h used : list Z) (w : world)
    (i t : Z) (set : cache_set_t) :
  lru_inv c0 h w ->
  index (set_arry (mem w)) i = Some set ->
  (forall j l, line_at (mem w) i j = Some l -> valid l <> 0 /\ tag l <> t) ->
  t ∈ used -> (forall x, x ∈ tags_used c0 h i -> x ∈ used) ->
  Z.of_nat (length (lines set)) + 1 <= distinct used.
Proof.
  intros [_ _ Hnodup Hage _] Hset Hfull Ht Hsub.
  assert (Hat : forall l, l ∈ lines set ->
                          exists j, line_at (mem w) i j = Some l).
  { intros l (j & Hj)%list_elem_of_lookup. exists (Z.of_nat j).
    apply (line_at_index _ _ _ _ _ Hset), index_Some.
    split; [lia|]. rewrite Nat2Z.id. exact Hj. }
  etransitivity;
    [|apply (distinct_at_least (t :: (tag <$> lines set)) used)].
  - cbn [length]. rewrite length_fmap. lia.
  - constructor.
    + intros (l & Hl & Hin)%list_elem_of_fmap.
      destruct (Hat l Hin) as (j & Hj).
      destruct (Hfull j l Hj) as [_ Hne]. congruence.
    + apply (full_set_tags_nodup (mem w) i set Hnodup Hset).
      intros j l Hl. apply (Hfull j l Hl).
  - intros x Hx. apply elem_of_cons in Hx as [->|Hx]; [exact Ht|].
    apply list_elem_of_fmap in Hx as (l & -> & Hin).
    destruct (Hat l Hin) as (j & Hj).
    destruct (Hfull j l Hj) as [Hv _].
    destruct (Hage i j l Hj Hv) as [Ha Hpos].
    apply Hsub, last_use_used. lia.
Qed.

Lemma working_set_fits_prefix (c0 : cache_t) (E : Z) (h : list Z) (a : Z) :
  working_set_fits c0 E (h ++ [a]) -> working_set_fits c0 E h.
Proof.
  unfold working_set_fits. rewrite !Forall_forall. intros Hfits x Hx.
  etransitivity; [|apply (Hfits x); apply elem_of_app; left; exact Hx].
  apply distinct_mono. intros t Ht. rewrite tags_used_snoc.
  apply elem_of_app. left. exact Ht.
Qed.

Lemma working_set_step (c0 : cache_t) (E : Z) (h : list Z) (a : Z)
    (w w' : world) :
  cache_ok (mem w) -> counters_ok (mem w) ->
  instr_count (mem w) < int_max ->
  associativity (mem w) = E ->
  lru_inv c0 h w ->
  evict_count (mem w) = 0 ->
  miss_count (mem w) = distinct (blocks_used c0 h) ->
  working_set_fits c0 E (h ++ [a]) ->
  lookup_step a w w' ->
  evict_count (mem w') = 0 /\
  miss_count (mem w') = distinct (blocks_used c0 (h ++ [a])).
Proof.
  intros Hok Hc Hlt HE Hinv He Hm Hfits Hstep.
  pose proof Hinv as [Hgeo _ Hnodup Hage Hgone].
  destruct (lookup_step_view a w w' Hc Hlt Hstep)
    as (set & j0 & l0 & l' & Hset & Hl0 & _ & _ & _ & _ & _ & _ & Hkind).
  destruct (decomposition_same_geometry a c0 (mem w) Hgeo) as [Hsf Htf].
  rewrite Hsf in Hset. rewrite Htf in Hkind.
  set (i0 := set_for a c0) in *. set (t0 := block_tag c0 a) in *.
  assert (Hlen : Z.of_nat (length (lines set)) = E).
  { pose proof Hset as [_ Hset']%index_Some.
    rewrite (proj1 (Forall_lookup _ _) (ok_lines _ Hok) _ _ Hset'), HE.
    destruct (ok_geometry _ Hok) as (_ & _ & _ & HE1). lia. }
  assert (Hin : forall j l, line_at (mem w) i0 j = Some l ->
                            lines set !! Z.to_nat j = Some l).
  { intros j l Hl. apply (line_at_index _ _ _ _ _ Hset) in Hl.
    apply index_Some in Hl. apply Hl. }
  assert (Hblocks : blocks_used c0 (h ++ [a])
                    = blocks_used c0 h ++ [(i0, t0)]).
  { unfold blocks_used. rewrite map_app. reflexivity. }
  assert (Hbound : distinct (tags_used c0 (h ++ [a]) i0) <= E).
  { apply (proj1 (Forall_forall _ _) Hfits a).
    apply elem_of_app. right. constructor. }
  assert (Hnew : t0 ∈ tags_used c0 (h ++ [a]) i0).
  { rewrite tags_used_snoc. unfold i0. rewrite Z.eqb_refl.
    apply elem_of_app. right. constructor. }
  assert (Holder : forall x, x ∈ tags_used c0 h i0 ->
                             x ∈ tags_used c0 (h ++ [a]) i0).
  { intros x Hx. rewrite tags_used_snoc. apply elem_of_app. left. exact Hx. }
  rewrite Hblocks.
  destruct Hkind as [(Hm0 & _ & Hmiss & Hev)
                    |[(Hnone & Hinv0 & _ & Hmiss & Hev)
                     |(Hnone & Hvalid & _)]].
  - (* hit: the block was referenced before *)
    split; [lia|]. rewrite Hmiss, Hm. symmetry. apply distinct_snoc_old.
    apply blocks_used_elem, last_use_used.
    assert (Hat0 : line_at (mem w) i0 j0 = Some l0)
      by (apply (line_at_index _ _ _ _ _ Hset); exact Hl0).
    destruct Hm0 as [Ht0 Hv0].
    destruct (Hage i0 j0 l0 Hat0 Hv0) as [Ha0 Hpos0].
    fold (block_tag c0 a) in Ht0. fold t0 in Ht0. rewrite Ht0 in Ha0. lia.
  - (* a line was free: the block is new *)
    split; [lia|]. rewrite Hmiss, Hm. symmetry. apply distinct_snoc_new.
    intros Hused%blocks_used_elem%last_use_used.
    destruct (Hgone i0 t0 Hused) as [(j & l & Hl & Hv & Ht)|Hall].
    + apply (proj1 (Forall_lookup _ _) Hnone _ _ (Hin j l Hl)).
      split; [exact Ht|exact Hv].
    + assert (Hat0 : line_at (mem w) i0 j0 = Some l0)
        by (apply (line_at_index _ _ _ _ _ Hset); exact Hl0).
      destruct (Hall j0 l0 Hat0) as [Hv0 _]. exact (Hv0 Hinv0).
  - (* an eviction would need more blocks than the set has lines *)
    exfalso.
    pose proof (full_set_overflows c0 h (tags_used c0 (h ++ [a]) i0) w i0 t0
                  set Hinv Hset) as Hover.
    rewrite Hlen in Hover.
    assert (E + 1 <= distinct (tags_used c0 (h ++ [a]) i0)); [|lia].
    apply Hover; [|exact Hnew|exact Holder].
    intros j l Hl. pose proof (Hin j l Hl) as Hl'.
    assert (Hv : valid l <> 0)
      by exact (proj1 (Forall_lookup _ _) Hvalid _ _ Hl').
    split; [exact Hv|]. intros Ht.
    apply (proj1 (Forall_lookup _ _) Hnone _ _ Hl').
    split; [exact Ht|exact Hv].
Qed.

(** X11.  A working set that fits is never evicted.  If no set is asked to
    hold more different blocks than it has lines, a run of [lookup] calls
    on a freshly made cache evicts nothing, misses exactly once for each
    different block and hits on every other reference, and ends with every
    referenced block cached.  The run is one in which no counter leaves the
    range of [int]. *)
Theorem fitting_working_set_stays (s E b v : Z) (addresses : list Z) :
  let c0 := make_cache s E b v in
  geometry_ok s E b -> Z.of_nat (length addresses) <= int_max ->
  working_set_fits c0 E addresses ->
  exists w',
    lookups addresses {| mem := c0; stdout := [] |} = Some (tt, w') /\
    evict_count (mem w') = 0 /\
    miss_count (mem w') = distinct (blocks_used c0 addresses) /\
    hit_count (mem w')
    = Z.of_nat (length addresses) - distinct (blocks_used c0 addresses) /\
    forall a, a ∈ addresses -> cached (mem w') a.
Proof.
  intros c0 Hg Hn Hfits.
  destruct (lookups_counted_invariant
              (fun h w =>
                 lru_inv c0 h w /\
                 (working_set_fits c0 E h ->
                  evict_count (mem w) = 0 /\
                  miss_count (mem w) = distinct (blocks_used c0 h))))
    with (addresses := addresses) (h := @nil Z)
         (w := {| mem := c0; stdout := [] |})
    as (w' & Hrun & Hok & Hc & Hi & Hinv & Hcount).
  - intros h a w w' Hok Hc Hlt [Hinv Hcount] Hstep.
    split; [exact (lru_inv_step c0 h a w w' Hc Hlt Hinv Hstep)|].
    intros Hfits'.
    destruct (Hcount (working_set_fits_prefix c0 E h a Hfits')) as [He Hm].
    apply (working_set_step c0 E h a w w' Hok Hc Hlt); try assumption.
    destruct Hinv as [(_ & HE & _) _ _ _ _]. exact HE.
  - apply make_cache_ok, Hg.
  - apply make_cache_counters.
  - split; [apply lru_inv_fresh|]. intros _. split; reflexivity.
  - cbn. exact Hn.
  - cbn [app] in Hinv, Hcount. destruct (Hcount Hfits) as [He Hm].
    exists w'. split; [exact Hrun|]. split; [exact He|].
    split; [exact Hm|]. split.
    + cbn [mem instr_count c0 make_cache] in Hi.
      destruct Hc as [_ _ Hsum _]. lia.
    + intros a Ha.
      pose proof Hinv as [Hgeo _ _ _ Hgone].
      destruct (decomposition_same_geometry a c0 (mem w') Hgeo) as [Hsa Hta].
      assert (Hused : block_tag c0 a ∈ tags_used c0 addresses (set_for a c0)).
      { apply tags_used_elem. exists a. auto. }
      destruct (Hgone (set_for a c0) (block_tag c0 a))
        as [(j & l & Hl & Hv & Ht)|Hall]; [apply last_use_used, Hused| |].
      * exists j, l. rewrite Hsa, Hta. split; [exact Hl|].
        split; [exact Ht|exact Hv].
      * exfalso.
        destruct (cache_ok_set (mem w') a Hok) as (set & Hset & Hlen).
        rewrite Hsa in Hset.
        assert (HE : associativity (mem w') = E) by apply Hgeo.
        assert (HE1 : 1 <= E) by apply Hg.
        pose proof (full_set_overflows c0 addresses
                      (tags_used c0 addresses (set_for a c0)) w'
                      (set_for a c0) (block_tag c0 a) set Hinv Hset) as Hover.
        rewrite Hlen, HE in Hover.
        pose proof (proj1 (Forall_forall _ _) Hfits a Ha) as Hbound.
        cbn beta in Hbound.
        assert (Z.of_nat (Z.to_nat E) + 1
                <= distinct (tags_used c0 addresses (set_for a c0))); [|lia].
        apply Hover; [|exact Hused|auto].
        intros j l Hl. destruct (Hall j l Hl) as [Hv Hnewer].
        split; [exact Hv|]. intros Ht.
        destruct Hinv as [_ _ _ Hage _].
        destruct (Hage _ j l Hl Hv) as [Ha' _]. rewrite Ht in Ha'. lia.
Qed.

Lemma fitting_working_set_stays_witness :
  exists w',
    lookups [0; 8; 16; 0; 24; 8]
      {| mem := make_cache 1 2 3 0; stdout := [] |}
    = Some (tt, w') /\
    evict_count (mem w') = 0 /\
    miss_count (mem w')
    = distinct (blocks_used (make_cache 1 2 3 0) [0; 8; 16; 0; 24; 8]) /\
    hit_count (mem w')
    = Z.of_nat (length [0; 8; 16; 0; 24; 8])
      - distinct (blocks_used (make_cache 1 2 3 0) [0; 8; 16; 0; 24; 8]) /\
    forall a, a ∈ [0; 8; 16; 0; 24; 8] -> cached (mem w') a.
Proof.
  apply (fitting_working_set_stays 1 2 3 0 [0; 8; 16; 0; 24; 8]).
  - unfold geometry_ok. lia.
  - vm_compute. discriminate.
  - repeat constructor; vm_compute; discriminate.
Defined.

(** ** Ages of the valid lines *)

(** X13.  Ages never tie among valid lines.  After any run of [lookup]
    calls on a freshly made cache, two different valid lines of one set
    have different ages, each line carrying the count of references at the
    last one to its block; so when a set is full the line of smallest age
    is unique and the choice of the victim never rests on the scan order.
    The run is one in which no counter leaves the range of [int]. *)
Theorem valid_ages_never_tie (s E b v : Z) (addresses : list Z) :
  geometry_ok s E b -> Z.of_nat (length addresses) <= int_max ->
  exists w',
    lookups addresses {| mem := make_cache s E b v; stdout := [] |}
    = Some (tt, w') /\
    forall i j1 j2 l1 l2,
      line_at (mem w') i j1 = Some l1 -> line_at (mem w') i j2 = Some l2 ->
      valid l1 <> 0 -> valid l2 <> 0 ->
      (1 <= age l1 <= instr_count (mem w')) /\
      (age l1 = age l2 -> j1 = j2).
Proof.
  intros Hg Hn.
  destruct (lru_inv_run s E b v addresses Hg Hn)
    as (w' & Hrun & _ & _ & [_ Htime Hnodup Hage _]).
  exists w'. split; [exact Hrun|].
  intros i j1 j2 l1 l2 Hl1 Hl2 Hv1 Hv2.
  destruct (Hage i j1 l1 Hl1 Hv1) as [Ha1 Hpos1].
  destruct (Hage i j2 l2 Hl2 Hv2) as [Ha2 _].
  split.
  - pose proof (last_use_bound (make_cache s E b v) addresses i (tag l1)).
    lia.
  - intros Heq. apply (Hnodup i j1 j2 l1 l2 Hl1 Hl2 Hv1 Hv2).
    apply (last_use_inj (make_cache s E b v) addresses i); [lia|congruence].
Qed.

Lemma valid_ages_never_tie_witness :
  exists w',
    lookups [0; 16; 32; 0; 48; 16]
      {| mem := make_cache 1 2 3 0; stdout := [] |}
    = Some (tt, w') /\
    forall i j1 j2 l1 l2,
      line_at (mem w') i j1 = Some l1 -> line_at (mem w') i j2 = Some l2 ->
      valid l1 <> 0 -> valid l2 <> 0 ->
      (1 <= age l1 <= instr_count (mem w')) /\
      (age l1 = age l2 -> j1 = j2).
Proof.
  apply (valid_ages_never_tie 1 2 3 0 [0; 16; 32; 0; 48; 16]).
  - unfold geometry_ok. lia.
  - vm_compute. discriminate.
Defined.

(** ** Addresses of one block *)

(** X15.  The offset inside a block is ignored.  When the masks fit an
    [int], two addresses with the same block number
    [address >> block_bits] are looked up alike: [lookup] returns the same
    state for both, so the counts and the lines cannot tell them apart. *)
Theorem same_block_same_lookup (address address' : Z) (w : world) :
  geometry_fields_ok (mem w) ->
  Z.shiftr address' (block_bits (mem w)) = Z.shiftr address (block_bits (mem w)) ->
  lookup address' w = lookup address w.
Proof.
  intros Hg Hblock.
  assert (Hg1 : geometry_fields_ok (mem (count_instr w))) by exact Hg.
  assert (Hset : set_for address' (mem (count_instr w))
                 = set_for address (mem (count_instr w))).
  { rewrite !set_for_eq by exact Hg1. cbn [mem count_instr block_bits
      set_instr_count set_bits]. rewrite Hblock. reflexivity. }
  assert (Htag : tag_for address' (mem (count_instr w))
                 = tag_for address (mem (count_instr w))).
  { rewrite !tag_for_eq by exact Hg1. cbn [mem count_instr block_bits
      set_instr_count set_bits].
    destruct Hg as (Hs & Hb & _).
    rewrite !(Z.add_comm (set_bits (mem w))), <- !Z.shiftr_shiftr by lia.
    rewrite Hblock. reflexivity. }
  unfold lookup, bind at 1 3, modify_cache. fold (count_instr w).
  unfold bind at 1 3, get_cache. rewrite Hset, Htag. reflexivity.
Qed.

Lemma same_block_same_lookup_witness :
  lookup 74567 {| mem := make_cache 4 2 3 0; stdout := [] |}
  = lookup 74565 {| mem := make_cache 4 2 3 0; stdout := [] |}.
Proof.
  apply (same_block_same_lookup 74565 74567
           {| mem := make_cache 4 2 3 0; stdout := [] |}).
  - unfold geometry_fields_ok. cbn. repeat split; lia.
  - reflexivity.
Defined.

(** ** Freeing the cache *)





